(** * Cross-calibration of multi-mission altimetry data (captoolkit, crosscal.py)

    A shallow embedding of the statistical core of [crosscal.py] and the
    properties its specification states about it.

    Numeric model.  The program computes on NumPy [float64] arrays in which
    NaN marks a missing entry.  A finite value is modelled by an exact
    rational ([Q]) and NaN by [None]; overflow and the infinities are outside
    the model, and so is the rounding of values, with one exception:
    [np.arange] decides how many bins there are and where their edges lie, so
    its length and its elements are computed as NumPy computes them, every
    operation rounded to the nearest [float64] ([round64]).  Library routines
    that leave the rationals
    ([np.sqrt], [np.exp], [np.sin], [np.cos], [np.interp], [np.linalg.lstsq],
    [scipy.ndimage.map_coordinates], the k-d tree) are parameters of the
    sections that use them.  Python exceptions are values of [exn]; [/] is
    Python 3 true division.  Parallel columns of one table ([t], [h], [m],
    ...) are lists of equal length. *)

From Stdlib Require Import ZArith QArith Qround Qabs Qpower List Bool Lia Lqa Sorted.
Import ListNotations.
Open Scope Q_scope.

(** ** Floats with NaN *)

Definition flt : Type := option Q.

Definition nan : flt := None.

Definition isnan (v : flt) : bool :=
  match v with
  | None => true
  | Some _ => false
  end.

Definition Qlt_bool (a b : Q) : bool := negb (Qle_bool b a).

Definition lift1 (f : Q -> Q) (a : flt) : flt :=
  match a with
  | Some x => Some (f x)
  | None => nan
  end.

Definition lift2 (f : Q -> Q -> Q) (a b : flt) : flt :=
  match a, b with
  | Some x, Some y => Some (f x y)
  | _, _ => nan
  end.

Definition fadd : flt -> flt -> flt := lift2 Qplus.
Definition fsub : flt -> flt -> flt := lift2 Qminus.
Definition fmul : flt -> flt -> flt := lift2 Qmult.
Definition fdiv : flt -> flt -> flt := lift2 Qdiv.
Definition fabs : flt -> flt := lift1 Qabs.

(** Comparisons involving NaN are false, as in IEEE-754. *)
Definition cmp2 (c : Q -> Q -> bool) (a b : flt) : bool :=
  match a, b with
  | Some x, Some y => c x y
  | _, _ => false
  end.

Definition flt_lt : flt -> flt -> bool := cmp2 Qlt_bool.
Definition flt_gt (a b : flt) : bool := flt_lt b a.
Definition flt_le : flt -> flt -> bool := cmp2 Qle_bool.
Definition flt_eq : flt -> flt -> bool := cmp2 Qeq_bool.

(** ** Exceptions *)

Inductive exn : Type :=
| ValueError
| IndexError
| AssertionError
| UnboundLocalError
| ZeroDivisionError.

Inductive result (A : Type) : Type :=
| Ok (a : A)
| Raise (e : exn).

Arguments Ok {A} a.
Arguments Raise {A} e.

Definition bind {A B : Type} (r : result A) (k : A -> result B) : result B :=
  match r with
  | Ok a => k a
  | Raise e => Raise e
  end.

Notation "x <- r ;; k" := (bind r (fun x => k))
  (at level 61, r at next level, right associativity).

(** ** Array helpers *)

(** Boolean-mask indexing [a[mask]]. *)
Fixpoint select {A : Type} (mask : list bool) (a : list A) : list A :=
  match mask, a with
  | b :: mask', v :: a' => if b then v :: select mask' a' else select mask' a'
  | _, _ => []
  end.

(** Masked assignment of a scalar, [a[mask] = v]. *)
Fixpoint assign {A : Type} (mask : list bool) (v : A) (a : list A) : list A :=
  match mask, a with
  | b :: mask', w :: a' => (if b then v else w) :: assign mask' v a'
  | _, _ => a
  end.

(** The non-NaN entries of an array, [a[~np.isnan(a)]]. *)
Fixpoint finite_vals (a : list flt) : list Q :=
  match a with
  | [] => []
  | Some q :: t => q :: finite_vals t
  | None :: t => finite_vals t
  end.

Definition Qsum (l : list Q) : Q := fold_right Qplus 0 l.

Definition len {A : Type} (l : list A) : Q := inject_Z (Z.of_nat (length l)).

(** [np.sum]: NaN propagates. *)
Definition np_sum (a : list flt) : flt := fold_right fadd (Some 0) a.

(** [np.nansum]: NaN counts as zero; the empty sum is 0. *)
Definition nansum (a : list flt) : Q := Qsum (finite_vals a).

(** [np.mean] of finite values; NaN for an empty array. *)
Definition Qmean (l : list Q) : flt :=
  match l with
  | [] => nan
  | _ => Some (Qsum l / len l)
  end.

(** [np.nanmean]. *)
Definition nanmean (a : list flt) : flt := Qmean (finite_vals a).

(** [ndarray.mean]: NaN propagates. *)
Definition np_mean (a : list flt) : flt :=
  match a with
  | [] => nan
  | _ => fdiv (np_sum a) (Some (len a))
  end.

(** Sorting, for the order statistics. *)
Fixpoint insert_sorted (a : Q) (l : list Q) : list Q :=
  match l with
  | [] => [a]
  | b :: t => if Qle_bool a b then a :: l else b :: insert_sorted a t
  end.

Definition np_sort (l : list Q) : list Q := fold_right insert_sorted [] l.

(** [np.median] of finite values: the middle element of the sorted array, or
    the mean of the two middle elements; NaN for an empty array. *)
Definition median (l : list Q) : flt :=
  let s := np_sort l in
  let n := length s in
  match n with
  | O => nan
  | _ =>
      if Nat.even n
      then Some ((nth (n / 2 - 1) s 0 + nth (n / 2) s 0) / 2)
      else Some (nth (n / 2) s 0)
  end.

(** [np.nanmedian]. *)
Definition nanmedian (a : list flt) : flt := median (finite_vals a).

(** ** Rounding to [float64]

    The [float64] nearest to a rational, ties to even.  The significand has
    53 bits; the exponent range is not modelled (no overflow, no
    subnormals). *)

(** The integer nearest to [q], the even one of two that are equally near. *)
Definition round_half_even (q : Q) : Z :=
  let f := Qfloor q in
  let r := q - inject_Z f in
  if Qlt_bool r (1 # 2) then f
  else if Qlt_bool (1 # 2) r then (f + 1)%Z
  else if Z.even f then f else (f + 1)%Z.

(** The exponent [e] of the last significand bit of a positive [q]:
    [2^52 <= q / 2^e < 2^53]. *)
Definition binade (q : Q) : Z :=
  let e := (Z.log2 (Qnum q) - Z.log2 (Zpos (Qden q)) - 52)%Z in
  if Qle_bool (2 ^ 52) (q / 2 ^ e) then e else (e - 1)%Z.

Definition round64_pos (q : Q) : Q :=
  let e := binade q in
  Qred (inject_Z (round_half_even (q / 2 ^ e)) * 2 ^ e).

Definition round64 (q : Q) : Q :=
  if Qeq_bool q 0 then 0
  else if Qlt_bool q 0 then - round64_pos (- q)
  else round64_pos q.


(** [np.arange(start, stop, step)] on Python floats, as NumPy computes it:
    the length is the ceiling of the rounded quotient
    [(stop - start) / step] (not positive: an empty array); the first element
    is [start], the second the rounded [start + step], and element [i >= 2]
    is [start + i * delta] with [delta] the rounded difference of the first
    two.  The arguments enter as the values the caller holds; only the
    operations of [np.arange] itself are rounded.  The division by a zero
    step raises [ZeroDivisionError]. *)
Definition arange_len (start stop step : Q) : nat :=
  Z.to_nat (Qceiling (round64 (round64 (stop - start) / step))).

Definition arange_nth (start step : Q) (i : nat) : Q :=
  match i with
  | O => start
  | S O => round64 (start + step)
  | _ => round64 (start + round64 (inject_Z (Z.of_nat i)
                                   * round64 (round64 (start + step) - start)))
  end.

Definition arange (start stop step : Q) : result (list Q) :=
  if Qeq_bool step 0 then Raise ZeroDivisionError
  else Ok (map (arange_nth start step) (seq 0 (arange_len start stop step))).

(** [np.ones(n) * np.nan]; a negative dimension is an error. *)
Definition nan_array (n : Z) : result (list flt) :=
  if (n <? 0)%Z then Raise ValueError else Ok (repeat nan (Z.to_nat n)).

(** ** [mad_std] (source lines 303-305) *)

Definition mad_std (x : list flt) : flt :=
  let m := nanmedian x in
  fmul (Some (7413 # 5000)) (nanmedian (map (fun v => fabs (fsub v m)) x)).

(** Sorted distinct values, [np.unique], for mission identifiers. *)
Fixpoint insert_unique (a : Z) (l : list Z) : list Z :=
  match l with
  | [] => [a]
  | b :: t =>
      if (a <? b)%Z then a :: l
      else if (a =? b)%Z then l
      else b :: insert_unique a t
  end.

Definition unique (l : list Z) : list Z := fold_right insert_unique [] l.

Fixpoint map2 {A B C : Type} (f : A -> B -> C) (a : list A) (b : list B) : list C :=
  match a, b with
  | x :: a', y :: b' => f x y :: map2 f a' b'
  | _, _ => []
  end.

(** The result of a binning routine: the tuple [(xb, yb, eb, nb, sb)]. *)
Record binned : Type := Binned {
  xb : list Q;
  yb : list flt;
  eb : list flt;
  nb : list flt;
  sb : list flt
}.

(** One bin: value, spread, count and sum. *)
Record bin_stat : Type := BinStat {
  b_y : flt;
  b_e : flt;
  b_n : flt;
  b_s : flt
}.

Definition empty_stat : bin_stat := BinStat nan nan nan nan.

(** [(x >= lo) & (x <= hi)]: both edges belong to the bin. *)
Definition in_bin (lo hi v : Q) : bool := Qle_bool lo v && Qle_bool v hi.

Section Numpy.

Variable np_sqrt : Q -> Q.
Variable np_exp : Q -> Q.
Variable np_interp : list Q -> list Q -> list flt -> result (list flt).
Variable np_lstsq : list (list Q) -> list Q -> list Q.
(** [t |-> np.sin(2 * np.pi * t)] and [t |-> np.cos(2 * np.pi * t)]. *)
Variable sin_2pi : Q -> Q.
Variable cos_2pi : Q -> Q.
(** [map_coordinates(data, [[yp], [xp]], order=1)]. *)
Variable map_coordinates : list (list flt) -> Q -> Q -> flt.
(** [transform_coord(projGrd, projGeo, x, y)] (pyproj). *)
Variable transform_coord : list Q -> list Q -> list Q * list Q.

(** [np.nanstd]: the population standard deviation of the non-NaN entries. *)
Definition nanvar (a : list flt) : flt :=
  match nanmean a with
  | None => nan
  | Some m => Qmean (map (fun q => (q - m) * (q - m)) (finite_vals a))
  end.

Definition nanstd (a : list flt) : flt := lift1 np_sqrt (nanvar a).

(** *** [binning] (source lines 187-212) *)

Definition binning_stat (x : list Q) (y : list flt) (lo hi : Q) : bin_stat :=
  let ybv := select (map (in_bin lo hi) x) y in
  match ybv with
  | [] => empty_stat
  | _ => BinStat (nanmedian ybv) (nanstd ybv) (Some (len ybv)) (np_sum ybv)
  end.

Definition binning (x : list Q) (y : list flt) (xmin xmax dx : Q)
  : result binned :=
  bins <- arange xmin (xmax + dx) dx ;;
  steps <- arange xmin xmax dx ;;
  init <- nan_array (Z.of_nat (length bins) - 1) ;;
  let stats :=
    map (fun i => binning_stat x y (nth i bins 0) (nth (S i) bins 0))
        (seq 0 (length init)) in
  Ok (Binned (map (fun s => s + (1 # 2) * dx) steps)
             (map b_y stats) (map b_e stats) (map b_n stats) (map b_s stats)).

(** *** [binning2] (source lines 685-745) *)

Definition Qmin_list (l : list Q) : result Q :=
  match l with
  | [] => Raise ValueError
  | a :: t => Ok (fold_left (fun m v => if Qle_bool m v then m else v) t a)
  end.

Definition Qmax_list (l : list Q) : result Q :=
  match l with
  | [] => Raise ValueError
  | a :: t => Ok (fold_left (fun m v => if Qle_bool v m then m else v) t a)
  end.

Definition or_default (o : option Q) (d : result Q) : result Q :=
  match o with
  | Some v => Ok v
  | None => d
  end.

(** The statistics of one window [(t1, t2)]; the weights of the selected
    samples are [exp(-(x - centre) / weight)], or ones. *)
Definition binning2_stat (x : list Q) (y : list flt) (median_flag : bool)
    (weight : option Q) (t1 t2 : Q) : bin_stat :=
  let mask := map (in_bin t1 t2) x in
  let xv := select mask x in
  let ybv := select mask y in
  match xv with
  | [] => empty_stat
  | _ =>
      let wbv :=
        match weight with
        | Some w => map (fun xi => np_exp (- (xi - (1 # 2) * (t1 + t2)) / w)) xv
        | None => map (fun _ => 1) xv
        end in
      BinStat
        (if median_flag then nanmedian ybv
         else Some (nansum (map2 (fun w v => fmul (Some w) v) wbv ybv) / Qsum wbv))
        (mad_std ybv)
        (Some (len (finite_vals ybv)))
        (np_sum ybv)
  end.

Definition binning2 (x : list Q) (y : list flt) (xmin xmax : option Q)
    (dx window : Q) (interp median_flag : bool) (weight : option Q)
  : result binned :=
  xmin <- or_default xmin (Qmin_list x) ;;
  xmax <- or_default xmax (Qmax_list x) ;;
  steps <- arange xmin xmax dx ;;
  let bins := map (fun ti => (ti, ti + window)) steps in
  let stats :=
    map (fun b => binning2_stat x y median_flag weight (fst b) (snd b)) bins in
  let xb0 := map (fun b => (1 # 2) * (fst b + snd b)) bins in
  let r := Binned xb0 (map b_y stats) (map b_e stats) (map b_n stats)
                  (map b_s stats) in
  if interp then
    match np_interp x xb0 (yb r) with
    | Raise _ => Ok r
    | Ok yb' =>
        match np_interp x xb0 (eb r) with
        | Raise _ => Ok (Binned xb0 yb' (eb r) (nb r) (sb r))
        | Ok eb' =>
            match np_interp x xb0 (sb r) with
            | Raise _ => Ok (Binned xb0 yb' eb' (nb r) (sb r))
            | Ok sb' => Ok (Binned x yb' eb' (nb r) sb')
            end
        end
    end
  else Ok r.


(** *** [bin_mission] (source lines 104-184) *)

(** The per-mission series stacked row by row. *)
Record mission_bins : Type := MissionBins {
  tbi : list (list Q);
  hbi : list (list flt);
  ebi : list (list flt);
  nbi : list (list flt);
  mbi : list (list Z)
}.

(** Lines 147-159: the effective sample size from the populated bins. *)
Definition effective_n (hb : list flt) : Q :=
  if (length (finite_vals hb) =? 0)%nat then 1
  else (len (finite_vals hb) * (1 / 12)) / (2 * (3 / 12)).

(** One iteration of the mission loop.  [win] is reassigned for mission 8 and
    the new value stays in force for the missions after it. *)
Definition bin_mission_row (ti : list Q) (hi : list flt) (mi : list Z)
    (ei : list flt) (tstart tstop tstep : Q) (wi : option Q)
    (win : Q) (m : Z)
  : result (Q * (list Q * list flt * list flt * list flt)) :=
  let im := map (fun v => (v =? m)%Z) mi in
  let m_rms := fdiv (np_mean (select im ei)) (Some (np_sqrt 2)) in
  let win := if (m =? 8)%Z then 6 / 12 else win in
  b <- binning2 (select im ti) (select im hi) (Some tstart) (Some tstop) tstep
                win false false wi ;;
  o <- binning2 (select im ti) (select im hi) (Some tstart) (Some tstop) tstep
                (1 / 12) false true None ;;
  let gap := map isnan (yb o) in
  let hb := assign gap nan (yb b) in
  let eb1 := assign gap nan (eb b) in
  let nb1 := assign gap nan (nb b) in
  let eb2 := map (fun e => if flt_lt e (Some (1 # 100)) then m_rms else e) eb1 in
  let n_eff := effective_n hb in
  let eb3 := map (fun e => fdiv e (Some (np_sqrt n_eff))) eb2 in
  let es := map (fun e => if isnan e then e else m_rms) eb3 in
  let et := map2 (fun s e => lift1 np_sqrt (fadd (fmul s s) (fmul e e))) es eb3 in
  Ok (win, (xb b, hb, et, nb1)).

Fixpoint bin_mission_loop (ti : list Q) (hi : list flt) (mi : list Z)
    (ei : list flt) (tstart tstop tstep : Q) (wi : option Q)
    (win : Q) (mu : list Z) : result mission_bins :=
  match mu with
  | [] => Ok (MissionBins [] [] [] [] [])
  | m :: mu' =>
      r <- bin_mission_row ti hi mi ei tstart tstop tstep wi win m ;;
      let '(win', (tb, hb, et, nb1)) := r in
      rest <- bin_mission_loop ti hi mi ei tstart tstop tstep wi win' mu' ;;
      Ok (MissionBins (tb :: tbi rest) (hb :: hbi rest) (et :: ebi rest)
                      (nb1 :: nbi rest) (map (fun _ => m) tb :: mbi rest))
  end.

(** [a[nbi < 1] = nan] on one row. *)
Definition reject_row (n : list flt) (a : list flt) : list flt :=
  assign (map (fun c => flt_lt c (Some 1)) n) nan a.

Definition bin_mission (ti : list Q) (hi : list flt) (mi : list Z)
    (ei : list flt) (tstart tstop tstep win : Q) (wi : option Q)
  : result mission_bins :=
  _ <- arange tstart tstop tstep ;;
  r <- bin_mission_loop ti hi mi ei tstart tstop tstep wi win (unique mi) ;;
  Ok (MissionBins (tbi r) (map2 reject_row (nbi r) (hbi r))
                  (map2 reject_row (nbi r) (ebi r)) (nbi r) (mbi r)).

(** *** [lsq_solve] (source lines 53-102) *)

Definition dot (a b : list Q) : Q := Qsum (map2 Qmult a b).

(** The body of the [while] loop, run at most [fuel] times.  [x] is the
    coefficient vector of the last solve, [None] while the name is unbound. *)
Fixpoint lsq_loop (fuel : nat) (n_sigma threshold : Q) (n_lim : nat)
    (X : list (list Q)) (y : list flt) (x : option (list Q))
  : option (list Q) :=
  match fuel with
  | O => x
  | S fuel' =>
      let i_o := map (fun v => negb (isnan v)) y in
      let X1 := select i_o X in
      let y1 := select i_o y in
      let n_obs := length y1 in
      if (n_lim + 1 <? n_obs)%nat then
        let x1 := np_lstsq X1 (finite_vals y1) in
        let res := map2 (fun v row => fsub v (Some (dot row x1))) y1 X1 in
        let s := fmul (Some n_sigma) (mad_std res) in
        let out := map (fun r => flt_gt (fabs r) s
                                 || flt_gt (fabs r) (Some threshold)) res in
        let y2 := assign out nan y1 in
        let n_out := length (finite_vals y2) in
        if (n_out =? n_obs)%nat then Some x1
        else lsq_loop fuel' n_sigma threshold n_lim X1 y2 (Some x1)
      else x
  end.

(** [X] has [n_lim] columns; [return x] with [x] never assigned raises. *)
Definition lsq_solve (n_lim : nat) (X : list (list Q)) (y : list flt)
    (n_iter : Z) (n_sigma threshold : Q) : result (list Q) :=
  match lsq_loop (Z.to_nat (n_iter + 1)) n_sigma threshold n_lim X y None with
  | Some x => Ok x
  | None => Raise UnboundLocalError
  end.

(** *** [cross_calibrate] (source lines 545-682) *)

(** Satellite overlap periods [to] and the group pairs [mo]. *)
Definition overlap_windows : list (Q * Q) :=
  [ (1995 + 5 / 12 - 1 / 2, 1996 + 5 / 12 + 1 / 2);
    (2002 + 10 / 12 - 1 / 2, 2003 + 6 / 12 + 1 / 2);
    (2010 + 6 / 12 - 1 / 2, 2010 + 10 / 12 + 1 / 2) ].

Definition overlap_pairs : list (Z * Z) := [ (1, 0); (2, 1); (3, 2) ]%Z.

(** [mi == g] on the float group index; NaN matches nothing. *)
Definition is_group (g : Z) (m : option Z) : bool :=
  match m with
  | Some v => (v =? g)%Z
  | None => false
  end.

(** What the [try] block leaves behind for one overlap. *)
Record overlap_stats : Type := OverlapStats {
  o_b0 : list flt;
  o_b1 : list flt;
  o_s0 : flt;
  o_s1 : flt;
  o_n0 : flt;
  o_n1 : flt;
  o_diff : flt
}.

(** The [except] branch: everything is the scalar NaN. *)
Definition no_overlap : overlap_stats :=
  OverlapStats [nan] [nan] nan nan nan nan nan.

Definition overlap_try (t0 t1 : list Q) (h0 h1 : list flt)
  : result overlap_stats :=
  t0min <- Qmin_list t0 ;;
  t1max <- Qmax_list t1 ;;
  let tmin := t0min - 1 / 12 in
  let tmax := t1max + 1 / 12 in
  r0 <- binning t0 h0 tmin tmax (1 / 12) ;;
  r1 <- binning t1 h1 tmin tmax (1 / 12) ;;
  let b0 := yb r0 in
  let b1 := yb r1 in
  let keep := map (fun v => negb (isnan v)) b0 in
  Ok (OverlapStats b0 b1 (nanstd b0) (nanstd b0)
        (Some (len (select keep b0))) (Some (len (select keep b1)))
        (nanmedian (map2 fsub b0 b1))).

Definition overlap_measure (t0 t1 : list Q) (h0 h1 : list flt) : overlap_stats :=
  match overlap_try t0 t1 h0 h1 with
  | Ok s => s
  | Raise _ => no_overlap
  end.

(** The test criterion of lines 636-671: the difference kept for rule [i],
    or 0 when the rule is gated. *)
Definition gate_diff (i : nat) (a : Q) (s : overlap_stats) : Q :=
  let b0m := nanmean (o_b0 s) in
  let b1m := nanmean (o_b1 s) in
  let i0_min := fsub b0m (fmul (Some a) (o_s0 s)) in
  let i0_max := fadd b0m (fmul (Some a) (o_s0 s)) in
  let i1_min := fsub b1m (fmul (Some a) (o_s1 s)) in
  let i1_max := fadd b1m (fmul (Some a) (o_s1 s)) in
  let nlim := Some 1 in
  let '(i0_min, i0_max, i1_min, i1_max) :=
    if (i =? 0)%nat then (Some 0, Some 0, Some 0, Some 0)
    else (i0_min, i0_max, i1_min, i1_max) in
  match o_diff s with
  | None => 0
  | Some d =>
      if flt_le (o_n0 s) nlim || flt_le (o_n1 s) nlim then 0
      else if flt_gt i0_max i1_min && flt_lt i0_min i1_max then 0
      else if Qlt_bool 10 (Qabs d) then 0
      else d
  end.

(** The observations of one group inside one window, and the gated difference
    of rule [i]. *)
Definition rule_diff (ti : list Q) (dh : list flt) (mi : list (option Z))
    (a : Q) (i : nat) (w : Q * Q) (p : Z * Z) : Q :=
  let im := map (in_bin (fst w) (snd w)) ti in
  let g0 := map (is_group (fst p)) (select im mi) in
  let g1 := map (is_group (snd p)) (select im mi) in
  gate_diff i a
    (overlap_measure (select g0 (select im ti)) (select g1 (select im ti))
                     (select g0 (select im dh)) (select g1 (select im dh))).

(** The loop state: bias vector [hb], reference bias [b_ref], [flag]. *)
Record ledger : Type := Ledger {
  l_hb : list Q;
  l_b_ref : Q;
  l_flag : Z
}.

Definition cross_step (ti : list Q) (dh : list flt) (mi : list (option Z))
    (a : Q) (st : ledger) (rule : nat * ((Q * Q) * (Z * Z))) : ledger :=
  let '(i, (w, p)) := rule in
  let diff := rule_diff ti dh mi a i w p in
  Ledger (assign (map (is_group (fst p)) mi) (l_b_ref st + diff) (l_hb st))
         (l_b_ref st + diff)
         (if Qeq_bool diff 0 then l_flag st else (l_flag st + 1)%Z).

Definition overlap_rules : list (nat * ((Q * Q) * (Z * Z))) :=
  combine (seq 0 (length overlap_windows)) (combine overlap_windows overlap_pairs).

Definition cross_calibrate (ti : list Q) (hi dh : list flt)
    (mi : list (option Z)) (a : Q) : list Q * Z :=
  let st := fold_left (cross_step ti dh mi a) overlap_rules
                      (Ledger (map (fun _ => 0) hi) 0 0%Z) in
  (l_hb st, l_flag st).

(** *** [interp2d] (source lines 857-885) *)

(** Indexing; a position outside the array raises [IndexError]. *)
Definition get {A : Type} (l : list A) (i : nat) : result A :=
  match nth_error l i with
  | Some v => Ok v
  | None => Raise IndexError
  end.

(** [a[-1]]. *)
Definition get_last {A : Type} (l : list A) : result A :=
  get (rev l) 0.

(** [a[:, 0]] of a two-dimensional array. *)
Fixpoint column0 {A : Type} (a : list (list A)) : result (list A) :=
  match a with
  | [] => Ok []
  | r :: a' =>
      v <- get r 0 ;;
      c <- column0 a' ;;
      Ok (v :: c)
  end.

(** [(ny, nx) == data.shape]. *)
Definition has_shape {A : Type} (ny nx : nat) (data : list (list A)) : bool :=
  (length data =? ny)%nat && forallb (fun r => (length r =? nx)%nat) data.

Definition interp2d (xd yd : list (list Q)) (data : list (list flt))
    (xq yq : Q) : result flt :=
  let xd := rev xd in
  let yd := rev yd in
  let data := rev data in
  xd <- get xd 0 ;;
  yd <- column0 yd ;;
  let nx := length xd in
  let ny := length yd in
  x0 <- get xd 0 ;;
  x1 <- get xd 1 ;;
  y0 <- get yd 0 ;;
  y1 <- get yd 1 ;;
  if negb (has_shape ny nx data) then Raise AssertionError
  else
    xl <- get_last xd ;;
    yl <- get_last yd ;;
    if negb (Qlt_bool x0 xl && Qlt_bool y0 yl) then Raise AssertionError
    else
      let xp := (xq - x0) * (len xd - 1) / (xl - x0) in
      let yp := (yq - y0) * (len yd - 1) / (yl - y0) in
      Ok (map_coordinates data yp xp).

(** *** [normalize_seasonal] (source lines 887-947)

    The parameters [hs] (used for its shape only) and [t0] (unused) of the
    source are kept out of the per-mission helpers. *)

(** [np.nanmedian(C[0:3, :, :], axis=0)]; the shape is that of layer 0 (the
    stack holds one layer per mission). *)
Definition nanmedian_axis0 (layers : list (list (list flt))) : list (list flt) :=
  match layers with
  | [] => []
  | l0 :: _ =>
      map (fun r =>
             map (fun c => nanmedian (map (fun l => nth c (nth r l []) nan) layers))
                 (seq 0 (length (nth r l0 []))))
          (seq 0 (length l0))
  end.

(** Lines 901-902: the reference layer of a coefficient stack, the median
    of the layers of missions 0 to 2. *)
Definition reference_layer (C : list (list (list flt))) : list (list flt) :=
  nanmedian_axis0 (firstn 3 C).

(** [np.sqrt(c0**2 + c1**2)]. *)
Definition amplitude (c0 c1 : flt) : flt :=
  lift1 np_sqrt (fadd (fmul c0 c0) (fmul c1 c1)).

(** [a_ref / a_sat > 1] in IEEE arithmetic: a positive value over zero is
    [+inf], and a NaN quotient compares false. *)
Definition ratio_gt_one (a_ref a_sat : flt) : bool :=
  match a_ref, a_sat with
  | Some r, Some s =>
      if Qeq_bool s 0 then Qlt_bool 0 r else Qlt_bool 1 (r / s)
  | _, _ => false
  end.

(** [1 - a_ref / a_sat] on the path where the quotient is not above one; the
    quotient over a zero amplitude is NaN there ([0 / 0]; amplitudes are
    square roots, hence not negative). *)
Definition scale_deficit (a_ref a_sat : flt) : flt :=
  match a_ref, a_sat with
  | Some r, Some s => if Qeq_bool s 0 then nan else Some (1 - r / s)
  | _, _ => nan
  end.

(** The four interpolated coefficients of mission [m] at the mean position of
    its observations: [(c0r, c1r, c0m, c1m)].  [C0r] and [C1r] are the
    reference layers that [normalize_seasonal] reduces before the loop. *)
Definition mission_coefficients (xs ys : list Q) (ms : list Z)
    (Xm Ym : list (list Q)) (C0 C1 : list (list (list flt)))
    (C0r C1r : list (list flt)) (m : Z)
  : result (flt * flt * flt * flt) :=
  let i_s := map (fun v => (v =? m)%Z) ms in
  let xs_i := Qsum (select i_s xs) / len (select i_s xs) in
  let ys_i := Qsum (select i_s ys) / len (select i_s ys) in
  c0r <- interp2d Xm Ym C0r xs_i ys_i ;;
  c1r <- interp2d Xm Ym C1r xs_i ys_i ;;
  C0m <- get C0 (Z.to_nat m) ;;
  c0m <- interp2d Xm Ym C0m xs_i ys_i ;;
  C1m <- get C1 (Z.to_nat m) ;;
  c1m <- interp2d Xm Ym C1m xs_i ys_i ;;
  Ok (c0r, c1r, c0m, c1m).

Fixpoint map3 {A B C D : Type} (f : A -> B -> C -> D)
    (a : list A) (b : list B) (c : list C) : list D :=
  match a, b, c with
  | x :: a', y :: b', z :: c' => f x y z :: map3 f a' b' c'
  | _, _, _ => []
  end.

(** One iteration of the mission loop on the output vector. *)
Definition normalize_mission (xs ys ts : list Q) (ms : list Z)
    (Xm Ym : list (list Q)) (C0 C1 : list (list (list flt)))
    (C0r C1r : list (list flt)) (h_out : list flt) (m : Z)
  : result (list flt) :=
  if (m <? 3)%Z then Ok h_out
  else
    c <- mission_coefficients xs ys ms Xm Ym C0 C1 C0r C1r m ;;
    let '(c0r, c1r, c0m, c1m) := c in
    let a_ref := amplitude c0r c1r in
    let a_sat := amplitude c0m c1m in
    if ratio_gt_one a_ref a_sat then Ok h_out
    else
      let h_c t :=
        fmul (scale_deficit a_ref a_sat)
             (fadd (fmul c0m (Some (sin_2pi (t - 0))))
                   (fmul c1m (Some (cos_2pi (t - 0))))) in
      Ok (map3 (fun v t old => if (v =? m)%Z then h_c t else old) ms ts h_out).

Fixpoint normalize_loop (xs ys ts : list Q) (ms : list Z)
    (Xm Ym : list (list Q)) (C0 C1 : list (list (list flt)))
    (C0r C1r : list (list flt)) (h_out : list flt) (mi : list Z)
  : result (list flt) :=
  match mi with
  | [] => Ok h_out
  | m :: mi' =>
      h <- normalize_mission xs ys ts ms Xm Ym C0 C1 C0r C1r h_out m ;;
      normalize_loop xs ys ts ms Xm Ym C0 C1 C0r C1r h mi'
  end.

Definition normalize_seasonal (xs ys ts : list Q) (hs : list flt) (ms : list Z)
    (Xm Ym : list (list Q)) (C0 C1 : list (list (list flt)))
  : result (list flt) :=
  let C0r := reference_layer C0 in
  let C1r := reference_layer C1 in
  normalize_loop xs ys ts ms Xm Ym C0 C1 C0r C1r
                 (map (fun _ => Some 0) hs) (unique ms).

(** *** [runfilter] (source lines 950-992) *)

(** Masked assignment of an array, [a[mask] = vals]. *)
Fixpoint scatter {A : Type} (mask : list bool) (vals : list A) (a : list A)
  : list A :=
  match mask, a with
  | true :: mask', w :: a' =>
      match vals with
      | v :: vals' => v :: scatter mask' vals' a'
      | [] => w :: scatter mask' [] a'
      end
  | false :: mask', w :: a' => w :: scatter mask' vals a'
  | _, _ => a
  end.

Definition runfilter_mission (t : list Q) (h : list flt) (m : list Z)
    (alpha win : Q) (hi : list flt) (mk : Z) : result (list flt) :=
  let im := map (fun v => (v =? mk)%Z) m in
  let tm := select im t in
  let hm := select im h in
  b <- binning2 tm hm None None (1 / 12) win true true None ;;
  let hs := yb b in
  let dh :=
    if negb (length hs =? length hm)%nat
    then map (fun v => fsub v (nanmedian hm)) hm
    else map2 fsub hm hs in
  let io := map (fun d => flt_gt (fabs d) (fmul (Some alpha) (mad_std dh))) dh in
  Ok (scatter im (assign io nan hm) hi).

Fixpoint runfilter_loop (t : list Q) (h : list flt) (m : list Z)
    (alpha win : Q) (hi : list flt) (mi : list Z) : result (list flt) :=
  match mi with
  | [] => Ok hi
  | mk :: mi' =>
      hi' <- runfilter_mission t h m alpha win hi mk ;;
      runfilter_loop t h m alpha win hi' mi'
  end.

Definition runfilter (t : list Q) (h : list flt) (m : list Z) (alpha win : Q)
  : result (list flt) :=
  runfilter_loop t h m alpha win h (unique m).

(** *** [design_matrix] (source lines 442-479) *)

Definition design_matrix (t : list Q) (m : list Z) : list (list Q) * list nat :=
  let mi := unique m in
  (map2 (fun ti mk =>
           [1; ti; (1 # 2) * (ti * ti); cos_2pi ti; sin_2pi ti;
            cos_2pi (2 * ti); sin_2pi (2 * ti)]
           ++ map (fun u => if (mk =? u)%Z then 1 else 0) mi)
        t m,
   map (fun i => (7 + i)%nat) (seq 0 (length mi))).

(** *** The prediction loop of [main] (source lines 1253-1539) *)

(** One row of the input columns [x, y, time, elev, sigma, mode]. *)
Record observation : Type := Obs {
  o_x : Q;
  o_y : Q;
  o_time : Q;
  o_elev : flt;
  o_sigma : flt;
  o_mode : Z
}.

(** The command-line settings the loop reads. *)
Record config : Type := Config {
  dx : Q;
  dy : Q;
  dmax : Q;
  nlim : Z;
  dtlim : Q;
  nmlim : Z;
  tstep_ : Q;
  rcali : bool;
  apply : bool
}.

(** [tree.query_ball_point((xc, yc), r)]: the points at Euclidean distance at
    most [r] from the centre. *)
Definition query_ball_point (obs : list observation) (xc yc r : Q)
  : list observation :=
  filter (fun o =>
            Qle_bool 0 r
            && Qle_bool ((o_x o - xc) * (o_x o - xc) + (o_y o - yc) * (o_y o - yc))
                        (r * r))
         obs.

(** The counters of one cell: [nobs], [dt], [npct], [nsen]. *)
Record coverage : Type := Coverage {
  nobs : Z;
  dt : Q;
  npct : Q;
  nsen : Z
}.

(** The nested constraint test of lines 1296-1300, which leaves the search
    loop by [break]. *)
Definition constraints_met (cfg : config) (c : coverage) : bool :=
  (nlim cfg <? nobs c)%Z && Qlt_bool (dtlim cfg) (dt c)
  && (nmlim cfg <=? nsen c)%Z && Qlt_bool (7 / 10) (npct c).

(** The single pass of [for ii in range(1)] over the neighbourhood [cap]:
    the counters it leaves and whether it ended with [break]. *)
Definition meet_constraints (cfg : config) (cap : list observation)
  : result (coverage * bool) :=
  let t := map o_time cap in
  match t with
  | [] => Ok (Coverage 0 0 1 0, false)
  | _ =>
      tmin <- Qmin_list t ;;
      tmax <- Qmax_list t ;;
      let c := Coverage (Z.of_nat (length t)) (tmax - tmin) 1
                        (Z.of_nat (length (unique (map o_mode cap)))) in
      b <- binning t (map Some t) tmin tmax (1 / 12) ;;
      let t_sample := yb b in
      match t_sample with
      | [] => Ok (c, false)
      | _ =>
          let c := Coverage (nobs c) (dt c)
                            (len (finite_vals t_sample) / len t_sample)
                            (nsen c) in
          Ok (c, constraints_met cfg c)
      end
  end.

(** The final test of data coverage (line 1303): [true] skips the cell. *)
Definition final_test (cfg : config) (c : coverage) : bool :=
  (nobs c <? nlim cfg)%Z || Qlt_bool (dt c) (dtlim cfg) || Qlt_bool (npct c) 0.

(** Lines 1318-1319: the observations inside the cell's own footprint. *)
Definition in_cell (cfg : config) (xc yc : Q) (o : observation) : bool :=
  Qle_bool (xc - (1 # 2) * dx cfg) (o_x o) && Qle_bool (o_x o) (xc + (1 # 2) * dx cfg)
  && Qle_bool (yc - (1 # 2) * dy cfg) (o_y o) && Qle_bool (o_y o) (yc + (1 # 2) * dy cfg).

(** How far a cell gets before the adjustment starts. *)
Inductive gate : Type :=
| SkipCoverage
| SkipFootprint
| Proceed (cap : list observation).

Definition cell_gate (cfg : config) (obs : list observation) (xc yc : Q)
  : result gate :=
  let cap := query_ball_point obs xc yc (dmax cfg) in
  r <- meet_constraints cfg cap ;;
  if final_test cfg (fst r) then Ok SkipCoverage
  else if (length (filter (in_cell cfg xc yc) cap) =? 5)%nat then Ok SkipFootprint
  else Ok (Proceed cap).

(** The seasonal amplitude rasters read at start-up. *)
Record rasters : Type := Rasters {
  Xa : list (list Q);
  Ya : list (list Q);
  C0 : list (list (list flt));
  C1 : list (list (list flt))
}.

(** What one solved cell appends to the output lists. *)
Record bundle : Type := Bundle {
  lats : list Q;
  lons : list Q;
  lat0 : list Q;
  lon0 : list Q;
  dxy0 : list Q;
  h_ts : list flt;
  e_ts : list flt;
  m_id : list Z;
  h_ct : list Q;
  h_cf : list Q;
  h_cr : list Q;
  f_cr : Z;
  tobs : list Q;
  rmse : flt;
  dims : nat * nat
}.

(** Lines 1414-1420: mission identifier to sensor-era group, NaN otherwise. *)
Definition sensor_group (m : Z) : option Z :=
  if ((m =? 1) || (m =? 2))%Z then Some 3%Z
  else if ((m =? 3) || (m =? 0))%Z then Some 2%Z
  else if ((m =? 4) || (m =? 5))%Z then Some 1%Z
  else if ((m =? 6) || (m =? 7) || (m =? 8))%Z then Some 0%Z
  else None.

(** Lines 1325-1534: filtering, seasonal normalisation, binning, the fit and
    both calibration stages for a cell that passed the gates.  [None] is the
    [continue] of line 1367; otherwise the new [h_cal_tot] and the bundle. *)
Definition adjust_cell (cfg : config) (ras : rasters) (cap : list observation)
    (xc yc : Q) : result (option (list Q * bundle)) :=
  let xcap := map o_x cap in
  let ycap := map o_y cap in
  let tcap := map o_time cap in
  let scap := map o_sigma cap in
  let mcap := map o_mode cap in
  let dxy := map (fun o => np_sqrt ((o_x o - xc) * (o_x o - xc)
                                    + (o_y o - yc) * (o_y o - yc))) cap in
  hcap <- runfilter tcap (map o_elev cap) mcap 10 (3 / 12) ;;
  h_scale <- normalize_seasonal xcap ycap tcap hcap mcap
                                (Xa ras) (Ya ras) (C0 ras) (C1 ras) ;;
  let hcap := map2 fsub hcap h_scale in
  let tstep := tstep_ cfg / 12 in
  mb <- bin_mission tcap hcap mcap scap 1992 2019 tstep (6 / 12) (Some (3 / 12)) ;;
  let tbin := concat (tbi mb) in
  let hbin := concat (hbi mb) in
  let mbin := concat (mbi mb) in
  if (Z.of_nat (length (finite_vals hbin)) <? nlim cfg)%Z then Ok None
  else
    let dtv :=
      match Qmean tbin with
      | Some mu => map (fun t => t - mu) tbin
      | None => []
      end in
    let '(Acap, cols) := design_matrix dtv mbin in
    Cm <- lsq_solve (7 + length cols) Acap hbin 5 5 10 ;;
    let dh := map2 (fun h row => fsub h (Some (dot row Cm))) hbin Acap in
    let rms_fit := mad_std dh in
    let h_cal_fit := map (fun row => dot (skipn 7 row) (skipn 7 Cm)) Acap in
    let hbin := map2 (fun h f => fsub h (Some f)) hbin h_cal_fit in
    let '(h_cal_res, flag) :=
      if rcali cfg
      then cross_calibrate tbin hbin dh (map sensor_group mbin) 0
      else (map (fun _ => 0) h_cal_fit, 0%Z) in
    let h_cal_tot := map2 Qplus h_cal_fit h_cal_res in
    let i_upd := map (in_cell cfg xc yc) cap in
    mo <- bin_mission (select i_upd tcap) (select i_upd hcap) (select i_upd mcap)
                      (select i_upd scap) 1992 2019 tstep (1 / 12) None ;;
    let mcap_ := concat (mbi mo) in
    let hcap_ :=
      map2 (fun h m_i =>
              fsub h (Qmean (select (map (fun v => (v =? m_i)%Z) mbin) h_cal_tot)))
           (concat (hbi mo)) mcap_ in
    let '(lon_i, lat_i) := transform_coord xcap ycap in
    let '(lon_0, lat_0) := transform_coord [xc] [yc] in
    if apply cfg
       && negb ((length h_cal_tot =? length (select i_upd hcap))%nat
                || (length h_cal_tot =? 1)%nat)
    then Raise ValueError
    else
      Ok (Some (h_cal_tot,
                Bundle lat_i lon_i lat_0 lon_0 dxy hcap_ (concat (ebi mo)) mcap_
                       h_cal_tot h_cal_fit h_cal_res flag (concat (tbi mo)) rms_fit
                       (length (hbi mo), arange_len 1992 2019 tstep))).

(** The state the loop carries: the output lists and [h_cal_tot]. *)
Record outputs : Type := Outputs {
  out_cells : list bundle;
  h_cal_tot : list Q
}.

(** The body of the prediction loop for the cell centred at [(xc, yc)]. *)
Definition cell_step (cfg : config) (ras : rasters) (obs : list observation)
    (st : outputs) (cell : Q * Q) : result outputs :=
  g <- cell_gate cfg obs (fst cell) (snd cell) ;;
  match g with
  | SkipCoverage => Ok st
  | SkipFootprint => Ok st
  | Proceed cap =>
      r <- adjust_cell cfg ras cap (fst cell) (snd cell) ;;
      match r with
      | None => Ok st
      | Some (tot, b) => Ok (Outputs (out_cells st ++ [b]) tot)
      end
  end.

Fixpoint prediction_loop (cfg : config) (ras : rasters) (obs : list observation)
    (st : outputs) (cells : list (Q * Q)) : result outputs :=
  match cells with
  | [] => Ok st
  | c :: cells' =>
      st' <- cell_step cfg ras obs st c ;;
      prediction_loop cfg ras obs st' cells'
  end.

End Numpy.

(** ** [make_grid] (source lines 351-357) and the cell list of [main] *)

(** What [make_grid] can end in: the two mesh arrays, [OverflowError] from
    [int] of an infinite quotient, or [ValueError] from [int] of NaN and from
    a negative number of samples. *)
Inductive grid_outcome (A : Type) : Type :=
| GridOk (a : A)
| GridOverflowError
| GridValueError.

Arguments GridOk {A} a.
Arguments GridOverflowError {A}.
Arguments GridValueError {A}.

(** [int(q)]: the fractional part is dropped, rounding towards zero. *)
Definition Qtrunc (q : Q) : Z :=
  if Qlt_bool q 0 then Qceiling q else Qfloor q.

(** [int(np.abs(hi - lo) / d) + 1]; a zero [d] makes the quotient infinite,
    or NaN for an empty range.  The quotient is a value and is taken
    exactly, as the numeric model has it: where NumPy's rounded quotient
    falls on the other side of an integer the count differs by one. *)
Definition axis_count (lo hi d : Q) : grid_outcome Z :=
  if Qeq_bool d 0
  then (if Qeq_bool (Qabs (hi - lo)) 0 then GridValueError
        else GridOverflowError)
  else GridOk (Qtrunc (Qabs (hi - lo) / d) + 1)%Z.

(** [np.linspace(a, b, num=n)]. *)
Definition linspace (a b : Q) (n : Z) : grid_outcome (list Q) :=
  if (n <? 0)%Z then GridValueError
  else GridOk (match Z.to_nat n with
               | O => []
               | S O => [a]
               | S (S _) =>
                   map (fun i => a + inject_Z (Z.of_nat i)
                                     * ((b - a) / inject_Z (n - 1)))
                       (seq 0 (Z.to_nat n))
               end).

(** [np.meshgrid(x_i, y_i)]: both arrays have one row per [y] and one column
    per [x]. *)
Definition meshgrid (x_i y_i : list Q) : list (list Q) * list (list Q) :=
  (map (fun _ => x_i) y_i, map (fun y => map (fun _ => y) x_i) y_i).

Definition make_grid (xmin xmax ymin ymax dx dy : Q)
  : grid_outcome (list (list Q) * list (list Q)) :=
  match axis_count ymin ymax dy with
  | GridOk Nn =>
      match axis_count xmin xmax dx with
      | GridOk Ne =>
          match linspace xmin xmax Ne with
          | GridOk x_i =>
              match linspace ymin ymax Nn with
              | GridOk y_i => GridOk (meshgrid x_i y_i)
              | GridOverflowError => GridOverflowError
              | GridValueError => GridValueError
              end
          | GridOverflowError => GridOverflowError
          | GridValueError => GridValueError
          end
      | GridOverflowError => GridOverflowError
      | GridValueError => GridValueError
      end
  | GridOverflowError => GridOverflowError
  | GridValueError => GridValueError
  end.

(** Lines 1214-1215 and 1272: the cell centres [(xi[i], yi[i])] of the
    flattened grid. *)
Definition grid_cells (g : list (list Q) * list (list Q)) : list (Q * Q) :=
  combine (concat (fst g)) (concat (snd g)).

(** The nodes of one grid axis span [[lo, hi]]: at least one node, the
    first at [lo], the last at [hi] when there are two or more, neighbours
    equally far apart, all inside the range. *)
Definition spanning_axis (lo hi : Q) (nodes : list Q) : Prop :=
  (1 <= length nodes)%nat
  /\ nth 0 nodes 0 == lo
  /\ ((2 <= length nodes)%nat -> nth (length nodes - 1) nodes 0 == hi)
  /\ (forall i, (S i < length nodes)%nat ->
        nth (S i) nodes 0 - nth i nodes 0
        == (hi - lo) / inject_Z (Z.of_nat (length nodes - 1)))
  /\ (forall i, (i < length nodes)%nat ->
        lo <= nth i nodes 0 /\ nth i nodes 0 <= hi).

(** ** The elevation edit of [main] (source lines 1153-1175) *)

Definition edit_elevation (roglim : Q) (time : list Q)
    (elev dh_bs rough : list flt) (mode : list Z) : list flt :=
  let dh_bs :=
    assign (map2 (fun b m => isnan b && (m =? 8)%Z) dh_bs mode) (Some 0) dh_bs in
  let elev := assign (map isnan dh_bs) nan elev in
  let elev := map2 fsub elev dh_bs in
  let elev :=
    if forallb (fun r => negb (flt_eq r (Some 9999))) rough
    then assign (map2 (fun r m => flt_gt r (Some roglim) && (1 <? m)%Z)
                      rough mode) nan elev
    else elev in
  let i_time := map (fun t => Qlt_bool 2019 t && Qlt_bool t (19922 # 10)) time in
  assign i_time nan elev.

(** ** Computable stand-ins for the library routines

    Used to run the definitions on concrete data. *)

(** [np.sqrt], rounded down to six decimals. *)
Definition sqrt_approx (q : Q) : Q :=
  Z.sqrt (Qnum q * 10 ^ 12 / Z.pos (Qden q)) # 10 ^ 6.

(** [np.exp] by its Taylor polynomial of degree 4. *)
Definition exp_approx (q : Q) : Q :=
  1 + q + q * q / 2 + q * q * q / 6 + q * q * q * q / 24.

(** The fractional part of the phase, in [[0, 1)]. *)
Definition phase (t : Q) : Q := t - inject_Z (Qfloor t).

(** [sin(2 pi t)] by the parabolic approximation of each half period. *)
Definition sin_2pi_approx (t : Q) : Q :=
  let p := phase t in
  if Qle_bool p (1 # 2) then 16 * p * ((1 # 2) - p)
  else - (16 * (p - (1 # 2)) * (1 - p)).

Definition cos_2pi_approx (t : Q) : Q := sin_2pi_approx (t + (1 # 4)).

(** [np.interp] stand-in: the value of the nearest sample point to the left,
    an error for no sample points. *)
Definition interp_left (x xp : list Q) (fp : list flt) : result (list flt) :=
  match xp with
  | [] => Raise ValueError
  | _ =>
      Ok (map (fun v =>
                 last (select (map (fun p => Qle_bool p v) xp) fp) (hd nan fp))
              x)
  end.

(** [np.linalg.lstsq] stand-in: the mean of the targets on the constant
    column, zero elsewhere. *)
Definition lstsq_mean (X : list (list Q)) (y : list Q) : list Q :=
  match X with
  | [] => []
  | r :: _ => match Qmean y with
              | Some m => m :: map (fun _ => 0) (tl r)
              | None => map (fun _ => 0) r
              end
  end.

(** [map_coordinates] stand-in: the grid node at the rounded-down
    coordinates, 0 outside the grid. *)
Definition map_nearest (data : list (list flt)) (yp xp : Q) : flt :=
  if Qlt_bool yp 0 || Qlt_bool xp 0 then Some 0
  else nth (Z.to_nat (Qfloor xp)) (nth (Z.to_nat (Qfloor yp)) data []) (Some 0).

(** [transform_coord] stand-in: the identity projection. *)
Definition transform_id (x y : list Q) : list Q * list Q := (x, y).

(** The gated difference that rule [i] of [cross_calibrate] adds to the
    reference bias. *)
Definition rule_offset (np_sqrt : Q -> Q) (ti : list Q) (dh : list flt)
    (mi : list (option Z)) (a : Q) (i : nat) : Q :=
  rule_diff np_sqrt ti dh mi a i
            (nth i overlap_windows (0, 0)) (nth i overlap_pairs (0, 0)%Z).

(** The expected ledger of the chaining example, by group. *)
Definition chained_bias (g : Z) : Q :=
  if (g =? 1)%Z then 2
  else if (g =? 2)%Z then 5
  else if (g =? 3)%Z then 4
  else 0.

(** Mission [m] is exempt from seasonal rescaling: it belongs to the
    reference class, or its interpolated amplitude is below the reference
    amplitude. *)
Definition exempt_mission (np_sqrt : Q -> Q)
    (map_coordinates : list (list flt) -> Q -> Q -> flt)
    (xs ys : list Q) (ms : list Z) (Xm Ym : list (list Q))
    (C0 C1 : list (list (list flt))) (m : Z) : Prop :=
  (m < 3)%Z
  \/ exists c0r c1r c0m c1m,
       mission_coefficients map_coordinates xs ys ms Xm Ym C0 C1
      (reference_layer C0) (reference_layer C1) m
       = Ok (c0r, c1r, c0m, c1m)
       /\ flt_lt (amplitude np_sqrt c0m c1m) (amplitude np_sqrt c0r c1r) = true.

(** ** Sample data *)

(** Three overlaps with two observations per group and month: group 1 sits 2
    above group 0, group 2 sits 3 above group 1, group 3 sits 1 below
    group 2. *)
Definition chain_ti : list Q :=
  [3991 # 2; 19957 # 10; 3991 # 2; 19957 # 10;
   2003; 20032 # 10; 2003; 20032 # 10;
   4021 # 2; 20107 # 10; 4021 # 2; 20107 # 10].

Definition chain_dh : list flt :=
  map Some [0; 0; 2; 2; 0; 0; 3; 3; 0; 0; -1; -1].

Definition chain_mi : list (option Z) :=
  map Some [0; 0; 1; 1; 1; 1; 2; 2; 2; 2; 3; 3]%Z.

(** The first overlap with group 1 observed in 1995.5, 1995.7 and 1995.9 and
    group 0 observed once, in 1995.9. *)
Definition single_ti : list Q := [19955 # 10; 19957 # 10; 19959 # 10; 19959 # 10].

Definition single_dh : list flt := map Some [1; 1; 1; 0].

Definition single_mi : list (option Z) := map Some [1; 1; 1; 0]%Z.

(** A cell setting: 2 x 2 cells, search radius 10, and the thresholds
    [nlim], [dtlim], [nmlim] of the coverage test. *)
Definition sample_cfg (n_lim : Z) (dt_lim : Q) (nm_lim : Z) : config :=
  Config 2 2 10 n_lim dt_lim nm_lim 1 true false.

(** An observation of height 0 and error 1/10 at the cell centre. *)
Definition obs_at (t : Q) (m : Z) : observation :=
  Obs 0 0 t (Some 0) (Some (1 # 10)) m.

(** Two observations three months apart: only the first of the three
    monthly bins is populated (the last edge that [np.arange] returns is just
    below the second epoch). *)
Definition sparse_obs : list observation :=
  [obs_at 2000 1; obs_at (2000 + 1 / 4) 1].

(** Two observations of one mission within one month. *)
Definition dense_obs : list observation :=
  [obs_at 2000 1; obs_at (2000 + 1 / 16) 1].

(** Five observations within the footprint of the cell at the origin. *)
Definition five_obs : list observation :=
  [obs_at 2000 1; obs_at (2000 + 1 / 20) 1; obs_at (2000 + 2 / 20) 1;
   obs_at (2000 + 3 / 20) 1; obs_at (2000 + 4 / 20) 1].

(** Empty rasters and an empty output. *)
Definition no_rasters : rasters := Rasters [] [] [] [].

Definition no_outputs : outputs := Outputs [] [].

(** Fourteen yearly observations of one mission at the cell centre, yearly
    time steps, the sample rasters, and an output list that already holds
    one (empty) bundle. *)
Definition yearly_cfg : config := Config 2 2 10 1 0 1 12 true false.

Definition yearly_obs : list observation :=
  map (fun i => obs_at (2000 + inject_Z (Z.of_nat i)) 1) (seq 0 14).

Definition seed_outputs : outputs :=
  Outputs [Bundle [] [] [] [] [] [] [] [] [] [] [] 0 [] nan (0%nat, 0%nat)] [].

(** How many bundles a run of the loop leaves, if it completes. *)
Definition bundle_count (r : result outputs) : option nat :=
  match r with
  | Ok st => Some (length (out_cells st))
  | Raise _ => None
  end.

(** A 2 x 2 grid over the unit square and constant coefficient layers: the
    reference missions 0-2 have cosine amplitude 3, mission 3 has 1 and
    mission 4 has 5. *)
Definition unit_X : list (list Q) := [[0; 1]; [0; 1]].

Definition unit_Y : list (list Q) := [[1; 1]; [0; 0]].

Definition flat (c : Q) : list (list flt) :=
  [[Some c; Some c]; [Some c; Some c]].

Definition sample_C0 : list (list (list flt)) :=
  [flat 3; flat 3; flat 3; flat 1; flat 5].

Definition sample_C1 : list (list (list flt)) :=
  [flat 0; flat 0; flat 0; flat 0; flat 0].

Definition season_ts : list Q := [2000; 2000 + 1 / 4; 2000 + 1 / 8; 2000 + 1 / 8].

Definition season_ms : list Z := [1; 3; 3; 4]%Z.

Definition season_hs : list flt := [Some 0; Some 0; Some 0; Some 0].

Definition sample_rasters : rasters := Rasters unit_X unit_Y sample_C0 sample_C1.

(** * Properties *)

(** ** Order statistics *)

Lemma insert_sorted_In (a q : Q) (l : list Q) :
  In q (insert_sorted a l) -> q = a \/ In q l.
Proof.
  induction l as [|b t IH]; simpl.
  - intros [H|[]]; auto.
  - destruct (Qle_bool a b); simpl.
    + intros [H|H]; auto.
    + intros [H|H]; auto. destruct (IH H); auto.
Qed.

Lemma np_sort_In (q : Q) (l : list Q) : In q (np_sort l) -> In q l.
Proof.
  induction l as [|a t IH]; simpl; auto.
  intros H. apply insert_sorted_In in H. destruct H; auto.
Qed.

Lemma insert_sorted_length (a : Q) (l : list Q) :
  length (insert_sorted a l) = S (length l).
Proof.
  induction l as [|b t IH]; simpl; auto.
  destruct (Qle_bool a b); simpl; auto.
Qed.

Lemma np_sort_length (l : list Q) : length (np_sort l) = length l.
Proof.
  induction l as [|a t IH]; simpl; auto.
  rewrite insert_sorted_length. congruence.
Qed.

(** The median of a non-empty array lies between any two bounds of its
    entries. *)
Lemma median_between (lo hi : Q) (l : list Q) :
  l <> [] ->
  (forall q, In q l -> lo <= q /\ q <= hi) ->
  exists m, median l = Some m /\ lo <= m /\ m <= hi.
Proof.
  intros Hne Hb. unfold median.
  assert (Hlen : length (np_sort l) <> 0%nat).
  { rewrite np_sort_length. destruct l; simpl; congruence. }
  assert (Hin : forall i, (i < length (np_sort l))%nat ->
                          lo <= nth i (np_sort l) 0 /\ nth i (np_sort l) 0 <= hi).
  { intros i Hi. apply Hb, np_sort_In, nth_In, Hi. }
  set (s := np_sort l) in *. set (n := length s) in *.
  assert (Hhalf : (n / 2 < n)%nat) by (apply Nat.div_lt; lia).
  destruct n as [|n'] eqn:En; [congruence|].
  destruct (Nat.even (S n')).
  - destruct (Hin (S n' / 2 - 1)%nat ltac:(lia)) as [A1 A2].
    destruct (Hin (S n' / 2)%nat Hhalf) as [B1 B2].
    eexists; split; [reflexivity|]. split.
    + apply Qle_shift_div_l; lra.
    + apply Qle_shift_div_r; lra.
  - destruct (Hin (S n' / 2)%nat Hhalf) as [B1 B2].
    eexists; split; [reflexivity|]. split; assumption.
Qed.

Lemma finite_vals_deviation (m : Q) (x : list flt) :
  finite_vals (map (fun v => fabs (fsub v (Some m))) x)
  = map (fun q => Qabs (q - m)) (finite_vals x).
Proof.
  induction x as [|[q|] t IH]; simpl; auto. now rewrite IH.
Qed.

(** ** [mad_std] *)

(** C8: for an array with at least one finite value [mad_std] is a number,
    it is non-negative, it is zero when all finite values are equal, and it
    is zero when there is a single finite value. *)
Theorem mad_std_nonneg_zero (x : list flt) :
  finite_vals x <> [] ->
  exists r, mad_std x = Some r /\ 0 <= r
    /\ ((forall a b, In a (finite_vals x) -> In b (finite_vals x) -> a == b)
        -> r == 0)
    /\ (length (finite_vals x) = 1%nat -> r == 0).
Proof.
  intros Hne. unfold mad_std, nanmedian.
  destruct (finite_vals x) as [|c t] eqn:Ex; [congruence|].
  assert (Hmed : exists m, median (c :: t) = Some m) .
  { destruct (median_between c c [c]) as [m [Hm _]]; [discriminate| |].
    - intros q [<-|[]]; split; apply Qle_refl.
    - clear Hm. unfold median. rewrite np_sort_length. simpl length.
      destruct (Nat.even (S (length t))); eexists; reflexivity. }
  destruct Hmed as [m Hm]. rewrite Hm, finite_vals_deviation, Ex.
  set (dev := map (fun q => Qabs (q - m)) (c :: t)).
  assert (Hdne : dev <> []) by (unfold dev; simpl; discriminate).
  assert (Hconst : (forall a b, In a (c :: t) -> In b (c :: t) -> a == b) ->
                   exists d, median dev = Some d /\ d == 0).
  { intros Heq.
    destruct (median_between c c (c :: t)) as [m' [Hm' [L U]]]; [discriminate| |].
    { intros q Hq. assert (q == c) by (apply Heq; simpl; auto). split; lra. }
    rewrite Hm in Hm'. injection Hm' as <-.
    destruct (median_between 0 0 dev Hdne) as [d [Hd [L0 U0]]].
    { intros q Hq. unfold dev in Hq. apply in_map_iff in Hq.
      destruct Hq as [a [<- Ha]].
      assert (E : a - m == 0) by (assert (a == c) by (apply Heq; simpl; auto); lra).
      rewrite E. simpl. split; apply Qle_refl. }
    exists d. split; [assumption|lra]. }
  destruct (median_between 0 (Qsum dev) dev Hdne) as [d [Hd [L _]]].
  { intros q Hq. split.
    - unfold dev in Hq. apply in_map_iff in Hq. destruct Hq as [a [<- _]].
      apply Qabs_nonneg.
    - assert (Hnn : forall l, (forall v, In v l -> 0 <= v) -> 0 <= Qsum l).
      { induction l as [|v l IH]; simpl; intros Hl; [apply Qle_refl|].
        assert (0 <= v) by (apply Hl; auto).
        assert (0 <= Qsum l) by (apply IH; intros; apply Hl; auto). lra. }
      assert (Hall : forall v, In v dev -> 0 <= v).
      { intros v Hv. unfold dev in Hv. apply in_map_iff in Hv.
        destruct Hv as [a [<- _]]. apply Qabs_nonneg. }
      clear - Hq Hall Hnn. induction dev as [|v l IH]; [contradiction|].
      simpl. destruct Hq as [->|Hq].
      + assert (0 <= Qsum l) by (apply Hnn; intros; apply Hall; simpl; auto). lra.
      + assert (q <= Qsum l) by (apply IH; auto; intros; apply Hall; simpl; auto).
        assert (0 <= v) by (apply Hall; simpl; auto). lra. }
  rewrite Hd. simpl. eexists; split; [reflexivity|].
  split; [|split].
  - assert (0 <= 7413 # 5000) by (unfold Qle; simpl; lia). nra.
  - intros Heq. destruct (Hconst Heq) as [d' [Hd' Z0]].
    rewrite Hd in Hd'. injection Hd' as <-. rewrite Z0. ring.
  - intros Hlen. destruct t; [|discriminate].
    destruct Hconst as [d' [Hd' Z0]].
    { intros a b [<-|[]] [<-|[]]. reflexivity. }
    rewrite Hd in Hd'. injection Hd' as <-. rewrite Z0. ring.
Qed.

Lemma mad_std_nonneg_zero_witness :
  exists r, mad_std [Some 3; None; Some 5; Some 9] = Some r /\ 0 <= r
    /\ ((forall a b, In a [3; 5; 9] -> In b [3; 5; 9] -> a == b) -> r == 0)
    /\ (3%nat = 1%nat -> r == 0).
Proof.
  apply (mad_std_nonneg_zero [Some 3; None; Some 5; Some 9]).
  simpl. discriminate.
Defined.

(** ** [binning2] *)

Lemma nth_map_seq {A : Type} (f : nat -> A) (n i : nat) (d : A) :
  (i < n)%nat -> nth i (map f (seq 0 n)) d = f i.
Proof.
  intros Hi. rewrite (nth_indep _ d (f 0%nat)) by (now rewrite length_map, length_seq).
  rewrite map_nth, seq_nth by assumption. reflexivity.
Qed.


(** ** Rounding to [float64] keeps the sign *)

Lemma round_half_even_floor (q : Q) : (Qfloor q <= round_half_even q)%Z.
Proof.
  unfold round_half_even.
  destruct (Qlt_bool _ _); [lia|]. destruct (Qlt_bool _ _); [lia|].
  destruct (Z.even _); lia.
Qed.

Lemma two_power_pos (e : Z) : 0 < 2 ^ e.
Proof.
  apply Qpower_0_lt. reflexivity.
Qed.

(** A positive rational is at least the power of two that the bit lengths of
    its numerator and denominator give. *)
Lemma log2_lower (q : Q) :
  0 < q -> 2 ^ (Z.log2 (Qnum q) - Z.log2 (Zpos (Qden q)) - 1) <= q.
Proof.
  intros Hq. destruct q as [n d]. cbn [Qnum Qden].
  assert (Hn : (0 < n)%Z).
  { unfold Qlt in Hq. simpl in Hq. lia. }
  destruct (Z.log2_spec n Hn) as [L1 _].
  destruct (Z.log2_spec (Zpos d) ltac:(lia)) as [_ L2].
  pose proof (Z.log2_nonneg n) as N1.
  pose proof (Z.log2_nonneg (Zpos d)) as N2.
  set (ln := Z.log2 n) in *. set (ld := Z.log2 (Zpos d)) in *.
  replace (ln - ld - 1)%Z with (ln - Z.succ ld)%Z by lia.
  rewrite Qpower_minus by discriminate.
  change 2 with (inject_Z 2).
  rewrite <- !Zpower_Qpower by lia.
  rewrite Zle_Qle in L1. rewrite Zlt_Qlt in L2.
  set (a := inject_Z (2 ^ ln)) in *. set (b := inject_Z (2 ^ Z.succ ld)) in *.
  assert (Hd : 0 < inject_Z (Zpos d)).
  { change 0 with (inject_Z 0). rewrite <- Zlt_Qlt. lia. }
  assert (Hb : 0 < b) by lra.
  assert (Eq : n # d == inject_Z n / inject_Z (Zpos d)) by apply Qmake_Qdiv.
  rewrite Eq.
  apply Qle_shift_div_l; [exact Hd|].
  apply Qle_trans with (a / b * b); [|field_simplify; [lra|lra]].
  apply Qmult_le_l; [|lra].
  apply Qlt_shift_div_l; [exact Hb|]. rewrite Qmult_0_l.
  apply Qlt_le_trans with (inject_Z 1); [reflexivity|].
  unfold a. rewrite <- Zle_Qle. pose proof (Z.pow_pos_nonneg 2 ln). lia.
Qed.

(** The scaled significand of a positive rational has 53 bits at least. *)
Lemma binade_lower (q : Q) : 0 < q -> 2 ^ 52 <= q / 2 ^ binade q.
Proof.
  intros Hq. unfold binade.
  set (k := (Z.log2 (Qnum q) - Z.log2 (Zpos (Qden q)))%Z).
  destruct (Qle_bool (2 ^ 52) (q / 2 ^ (k - 52))) eqn:E.
  - apply Qle_bool_iff. exact E.
  - pose proof (log2_lower q Hq) as L. fold k in L.
    pose proof (two_power_pos (k - 52 - 1)) as P.
    apply Qle_shift_div_l; [exact P|].
    apply Qle_trans with (2 ^ (k - 1)); [|exact L].
    rewrite <- Qpower_plus by discriminate.
    replace (52 + (k - 52 - 1))%Z with (k - 1)%Z by lia. apply Qle_refl.
Qed.

Lemma round64_pos_pos (q : Q) : 0 < q -> 0 < round64_pos q.
Proof.
  intros Hq. unfold round64_pos. rewrite Qred_correct.
  pose proof (binade_lower q Hq) as B.
  pose proof (two_power_pos (binade q)) as P.
  set (s := q / 2 ^ binade q) in *.
  assert (H1 : (1 <= Qfloor s)%Z).
  { assert (H : Qfloor 1 = 1%Z) by reflexivity. rewrite <- H.
    apply Qfloor_resp_le. apply Qle_trans with (2 ^ 52); [discriminate|exact B]. }
  pose proof (round_half_even_floor s) as H2.
  assert (H3 : 1 <= inject_Z (round_half_even s)).
  { change 1 with (inject_Z 1). rewrite <- Zle_Qle. lia. }
  nra.
Qed.

Lemma round64_pos_sign (q : Q) : 0 < q -> 0 < round64 q.
Proof.
  intros Hq. unfold round64.
  assert (E1 : Qeq_bool q 0 = false).
  { apply not_true_is_false. intros H. apply Qeq_bool_eq in H. lra. }
  assert (E2 : Qlt_bool q 0 = false).
  { unfold Qlt_bool. apply negb_false_iff, Qle_bool_iff. lra. }
  rewrite E1, E2. now apply round64_pos_pos.
Qed.




(** ** [np.arange] *)

Lemma step_nonzero (step : Q) : ~ step == 0 -> Qeq_bool step 0 = false.
Proof.
  intros Hz. apply not_true_is_false. intros H. apply Qeq_bool_eq in H.
  contradiction.
Qed.

Lemma arange_returns (start stop step : Q) :
  ~ step == 0 ->
  arange start stop step
  = Ok (map (arange_nth start step) (seq 0 (arange_len start stop step))).
Proof.
  intros Hz. unfold arange. now rewrite (step_nonzero step Hz).
Qed.

(** An ascending range is not empty, for any rounding of the quotient. *)
Lemma arange_len_pos (start stop step : Q) :
  0 < step -> start < stop -> (1 <= arange_len start stop step)%nat.
Proof.
  intros Hpos Hlt. unfold arange_len.
  assert (H1 : 0 < round64 (stop - start)) by (apply round64_pos_sign; lra).
  assert (H2 : 0 < round64 (round64 (stop - start) / step)).
  { apply round64_pos_sign. apply Qlt_shift_div_l; lra. }
  pose proof (Qle_ceiling (round64 (round64 (stop - start) / step))) as C.
  assert (Hc : (0 < Qceiling (round64 (round64 (stop - start) / step)))%Z).
  { rewrite Zlt_Qlt. change (inject_Z 0) with 0. lra. }
  lia.
Qed.




(** ** [cross_calibrate] *)

Lemma nth_error_assign {A : Type} (mask : list bool) (v : A) (a : list A)
    (k : nat) (b : bool) (w : A) :
  nth_error mask k = Some b -> nth_error a k = Some w ->
  nth_error (assign mask v a) k = Some (if b then v else w).
Proof.
  revert a k. induction mask as [|c mask IH]; intros a k Hm Ha.
  - destruct k; discriminate.
  - destruct a as [|u a]; [destruct k; discriminate|].
    destruct k as [|k]; simpl in *.
    + injection Hm as ->. injection Ha as ->. reflexivity.
    + apply IH; assumption.
Qed.

Lemma nth_error_zeros {A : Type} (hi : list A) (k : nat) :
  (k < length hi)%nat -> nth_error (map (fun _ => 0) hi) k = Some 0.
Proof.
  intros Hk. destruct (nth_error hi k) eqn:E.
  - now rewrite nth_error_map, E.
  - apply nth_error_None in E. lia.
Qed.

(** C3: when the three overlap rules, taken in order, keep the offsets +2, +3
    and -1, every observation of group 0, 1, 2, 3 is assigned the correction
    0, 2, 5, 4 respectively, and all three rules count as successful. *)
Theorem cross_calibrate_chains_offsets
    (np_sqrt : Q -> Q) (ti : list Q) (hi dh : list flt)
    (mi : list (option Z)) (a : Q) :
  length mi = length hi ->
  rule_offset np_sqrt ti dh mi a 0 == 2 ->
  rule_offset np_sqrt ti dh mi a 1 == 3 ->
  rule_offset np_sqrt ti dh mi a 2 == -1 ->
  snd (cross_calibrate np_sqrt ti hi dh mi a) = 3%Z
  /\ forall k g, nth_error mi k = Some (Some g) ->
       exists v, nth_error (fst (cross_calibrate np_sqrt ti hi dh mi a)) k = Some v
                 /\ v == chained_bias g.
Proof.
  intros Hlen H0 H1 H2.
  unfold cross_calibrate, overlap_rules. simpl combine. simpl fold_left.
  unfold cross_step. simpl fst. simpl snd.
  unfold rule_offset in H0, H1, H2. simpl nth in H0, H1, H2.
  set (d0 := rule_diff np_sqrt ti dh mi a 0 _ _) in *.
  set (d1 := rule_diff np_sqrt ti dh mi a 1 _ _) in *.
  set (d2 := rule_diff np_sqrt ti dh mi a 2 _ _) in *.
  assert (E0 : Qeq_bool d0 0 = false).
  { apply not_true_is_false. intros H. apply Qeq_bool_eq in H. lra. }
  assert (E1 : Qeq_bool d1 0 = false).
  { apply not_true_is_false. intros H. apply Qeq_bool_eq in H. lra. }
  assert (E2 : Qeq_bool d2 0 = false).
  { apply not_true_is_false. intros H. apply Qeq_bool_eq in H. lra. }
  simpl l_b_ref. simpl l_hb. simpl l_flag. rewrite E0, E1, E2.
  split; [reflexivity|].
  intros k g Hk.
  assert (Hkl : (k < length hi)%nat).
  { rewrite <- Hlen. apply nth_error_Some. congruence. }
  assert (Hm : forall j, nth_error (map (is_group j) mi) k = Some (g =? j)%Z).
  { intros j. rewrite nth_error_map, Hk. reflexivity. }
  pose proof (nth_error_zeros hi k Hkl) as Hz.
  pose proof (nth_error_assign _ (0 + d0) _ k _ _ (Hm 1%Z) Hz) as A1.
  pose proof (nth_error_assign _ (0 + d0 + d1) _ k _ _ (Hm 2%Z) A1) as A2.
  pose proof (nth_error_assign _ (0 + d0 + d1 + d2) _ k _ _ (Hm 3%Z) A2) as A3.
  eexists; split; [exact A3|].
  unfold chained_bias.
  destruct (g =? 3)%Z eqn:G3.
  - apply Z.eqb_eq in G3. subst g. simpl. lra.
  - destruct (g =? 2)%Z eqn:G2.
    + apply Z.eqb_eq in G2. subst g. simpl. lra.
    + destruct (g =? 1)%Z eqn:G1; [lra|reflexivity].
Qed.

Lemma cross_calibrate_chains_offsets_witness :
  snd (cross_calibrate sqrt_approx chain_ti chain_dh chain_dh chain_mi 0) = 3%Z
  /\ forall k g, nth_error chain_mi k = Some (Some g) ->
       exists v,
         nth_error (fst (cross_calibrate sqrt_approx chain_ti chain_dh chain_dh
                                         chain_mi 0)) k = Some v
         /\ v == chained_bias g.
Proof.
  apply (cross_calibrate_chains_offsets sqrt_approx chain_ti chain_dh chain_dh
                                        chain_mi 0).
  - reflexivity.
  - vm_compute. reflexivity.
  - vm_compute. reflexivity.
  - vm_compute. reflexivity.
Defined.

(** C4: in the first overlap window group 0 has one populated monthly bin
    while group 1 has four.  The count [n1] is taken over the bins populated
    for the other group, so it is 4 as well; the rule is not gated, its
    offset 1 enters the ledger and the success counter becomes 1. *)
Theorem cross_calibrate_single_bin_not_gated :
  let s := overlap_measure sqrt_approx
             [19955 # 10; 19957 # 10; 19959 # 10] [19959 # 10]
             [Some 1; Some 1; Some 1] [Some 0] in
  length (finite_vals (o_b0 s)) = 4%nat
  /\ length (finite_vals (o_b1 s)) = 1%nat
  /\ o_n1 s = Some 4
  /\ rule_offset sqrt_approx single_ti single_dh single_mi 0 0 = 1
  /\ cross_calibrate sqrt_approx single_ti single_dh single_dh single_mi 0
     = ([1; 1; 1; 0], 1%Z).
Proof.
  vm_compute. repeat split; reflexivity.
Qed.

(** ** [bin_mission] *)

(** With at least one populated bin the effective sample size is a sixth of
    the populated-bin count. *)
Lemma effective_n_sixth (hb : list flt) :
  finite_vals hb <> [] ->
  effective_n hb == len (finite_vals hb) / 6.
Proof.
  intros Hne. unfold effective_n.
  destruct (finite_vals hb) as [|q t]; [congruence|].
  simpl Nat.eqb. cbv iota. field.
Qed.

(** C9: for a mission with six populated bins the effective sample size is 1,
    a sixth of the count, and not the half of it, 3. *)
Theorem effective_n_six_bins :
  effective_n [Some 1; Some 1; nan; Some 1; Some 1; Some 1; Some 1] == 1
  /\ ~ effective_n [Some 1; Some 1; nan; Some 1; Some 1; Some 1; Some 1] == 6 / 2
  /\ effective_n [nan; nan] == 1.
Proof.
  vm_compute. repeat split; discriminate.
Qed.

(** ** [lsq_solve] *)

Lemma select_finite_length (y : list flt) :
  length (select (map (fun v => negb (isnan v)) y) y) = length (finite_vals y).
Proof.
  induction y as [|[q|] t IH]; simpl; auto.
Qed.

(** With too few valid observations the loop body leaves the coefficient
    vector as it found it. *)
Lemma lsq_loop_underdetermined (np_lstsq : list (list Q) -> list Q -> list Q)
    (fuel : nat) (n_sigma threshold : Q) (n_lim : nat) (X : list (list Q))
    (y : list flt) (x : option (list Q)) :
  (length (finite_vals y) <= n_lim + 1)%nat ->
  lsq_loop np_lstsq fuel n_sigma threshold n_lim X y x = x.
Proof.
  intros Hle. destruct fuel as [|fuel]; simpl; [reflexivity|].
  rewrite select_finite_length.
  destruct (n_lim + 1 <? length (finite_vals y))%nat eqn:E; [|reflexivity].
  apply Nat.ltb_lt in E. lia.
Qed.

(** C2: when the valid observations number at most the unknowns plus one,
    [lsq_solve] reaches [return x] with [x] unassigned and raises. *)
Theorem lsq_solve_underdetermined_raises
    (np_lstsq : list (list Q) -> list Q -> list Q)
    (n_lim : nat) (X : list (list Q)) (y : list flt)
    (n_iter : Z) (n_sigma threshold : Q) :
  (length (finite_vals y) <= n_lim + 1)%nat ->
  lsq_solve np_lstsq n_lim X y n_iter n_sigma threshold = Raise UnboundLocalError.
Proof.
  intros Hle. unfold lsq_solve.
  now rewrite lsq_loop_underdetermined.
Qed.

Lemma lsq_solve_underdetermined_raises_witness :
  lsq_solve lstsq_mean 2 [[1; 0]; [1; 1]; [1; 2]; [1; 3]]
            [Some 1; Some 2; nan; Some 3] 5 5 100
  = Raise UnboundLocalError.
Proof.
  apply (lsq_solve_underdetermined_raises lstsq_mean 2
           [[1; 0]; [1; 1]; [1; 2]; [1; 3]] [Some 1; Some 2; nan; Some 3] 5 5 100).
  simpl. lia.
Defined.

(** ** [normalize_seasonal] *)

Lemma map3_length {A B C D : Type} (f : A -> B -> C -> D)
    (a : list A) (b : list B) (c : list C) :
  length b = length a -> length c = length a ->
  length (map3 f a b c) = length a.
Proof.
  revert b c. induction a as [|x a IH]; intros [|y b] [|z c]; simpl;
    try discriminate; auto.
Qed.

Lemma map3_nth_error {A B C D : Type} (f : A -> B -> C -> D)
    (a : list A) (b : list B) (c : list C) (k : nat) (x : A) :
  length b = length a -> length c = length a ->
  nth_error a k = Some x ->
  exists y z, nth_error b k = Some y /\ nth_error c k = Some z
              /\ nth_error (map3 f a b c) k = Some (f x y z).
Proof.
  revert b c k. induction a as [|x0 a IH]; intros [|y b] [|z c] k;
    simpl; try discriminate.
  - destruct k; discriminate.
  - intros Hb Hc Hk. destruct k as [|k]; simpl in *.
    + injection Hk as ->. eauto.
    + apply IH; congruence.
Qed.

Section Seasonal.

Variable np_sqrt : Q -> Q.
Variable sin_2pi : Q -> Q.
Variable cos_2pi : Q -> Q.
Variable map_coordinates : list (list flt) -> Q -> Q -> flt.

(** [np.sqrt] does not return a negative number. *)
Hypothesis np_sqrt_nonneg : forall q, 0 <= q -> 0 <= np_sqrt q.

Variables xs ys ts : list Q.
Variable ms : list Z.
Variables Xm Ym : list (list Q).
Variables C0 C1 : list (list (list flt)).


Lemma amplitude_nonneg (c0 c1 : flt) (s : Q) :
  amplitude np_sqrt c0 c1 = Some s -> 0 <= s.
Proof.
  unfold amplitude. destruct c0 as [a|], c1 as [b|]; simpl; try discriminate.
  intros H. injection H as <-. apply np_sqrt_nonneg. nra.
Qed.

Lemma weaker_amplitude_skips (c0r c1r c0m c1m : flt) :
  flt_lt (amplitude np_sqrt c0m c1m) (amplitude np_sqrt c0r c1r) = true ->
  ratio_gt_one (amplitude np_sqrt c0r c1r) (amplitude np_sqrt c0m c1m) = true.
Proof.
  intros Hlt.
  destruct (amplitude np_sqrt c0m c1m) as [s|] eqn:Es; [|discriminate].
  destruct (amplitude np_sqrt c0r c1r) as [r|] eqn:Er; [|discriminate].
  pose proof (amplitude_nonneg _ _ _ Es) as Hs.
  unfold flt_lt, cmp2, Qlt_bool in Hlt. apply negb_true_iff in Hlt.
  assert (Hsr : s < r).
  { apply Qnot_le_lt. intros H. apply Qle_bool_iff in H. congruence. }
  unfold ratio_gt_one, Qlt_bool.
  destruct (Qeq_bool s 0) eqn:Ez; apply negb_true_iff, not_true_is_false;
    intros H; apply Qle_bool_iff in H.
  - apply Qeq_bool_eq in Ez. lra.
  - assert (Hs0 : 0 < s).
    { apply Qnot_le_lt. intros H0. assert (E : s == 0) by lra.
      apply Qeq_eq_bool in E. congruence. }
    assert (1 < r / s) by (apply Qlt_shift_div_l; lra). lra.
Qed.

Lemma normalize_mission_keeps (h h' : list flt) (m' m : Z) (k : nat) :
  length ts = length ms -> length h = length ms ->
  normalize_mission np_sqrt sin_2pi cos_2pi map_coordinates
                    xs ys ts ms Xm Ym C0 C1
      (reference_layer C0) (reference_layer C1) h m' = Ok h' ->
  nth_error ms k = Some m ->
  exempt_mission np_sqrt map_coordinates xs ys ms Xm Ym C0 C1 m ->
  nth_error h' k = nth_error h k /\ length h' = length ms.
Proof.
  intros Lt Lh Hrun Hk Hex. unfold normalize_mission in Hrun.
  destruct (m' <? 3)%Z eqn:Eref.
  { injection Hrun as <-. auto. }
  destruct (mission_coefficients map_coordinates xs ys ms Xm Ym C0 C1
      (reference_layer C0) (reference_layer C1) m')
    as [[[[c0r c1r] c0m] c1m]|e] eqn:Ec; simpl in Hrun; [|discriminate].
  destruct (ratio_gt_one _ _) eqn:Egt.
  { injection Hrun as <-. auto. }
  injection Hrun as <-. split; [|now apply map3_length].
  destruct (map3_nth_error
              (fun v t old =>
                 if (v =? m')%Z
                 then fmul (scale_deficit (amplitude np_sqrt c0r c1r)
                                          (amplitude np_sqrt c0m c1m))
                           (fadd (fmul c0m (Some (sin_2pi (t - 0))))
                                 (fmul c1m (Some (cos_2pi (t - 0)))))
                 else old)
              ms ts h k m Lt Lh Hk) as [t [old [_ [Hold ->]]]].
  rewrite Hold. destruct (m =? m')%Z eqn:Em; [|reflexivity].
  apply Z.eqb_eq in Em. subst m'. exfalso.
  destruct Hex as [Hlt|[a [b [c [d [Hc Hlt]]]]]].
  - apply Z.ltb_ge in Eref. lia.
  - rewrite Ec in Hc. injection Hc as <- <- <- <-.
    apply weaker_amplitude_skips in Hlt. congruence.
Qed.

Lemma normalize_loop_keeps (mi : list Z) (h h' : list flt) (m : Z) (k : nat) :
  length ts = length ms -> length h = length ms ->
  normalize_loop np_sqrt sin_2pi cos_2pi map_coordinates
                 xs ys ts ms Xm Ym C0 C1
      (reference_layer C0) (reference_layer C1) h mi = Ok h' ->
  nth_error ms k = Some m ->
  exempt_mission np_sqrt map_coordinates xs ys ms Xm Ym C0 C1 m ->
  nth_error h' k = nth_error h k.
Proof.
  revert h. induction mi as [|m' mi IH]; intros h Lt Lh Hrun Hk Hex;
    cbn [normalize_loop] in Hrun.
  - now injection Hrun as <-.
  - destruct (normalize_mission np_sqrt sin_2pi cos_2pi map_coordinates
                xs ys ts ms Xm Ym C0 C1
      (reference_layer C0) (reference_layer C1) h m') as [h1|e] eqn:E1;
      cbn [bind] in Hrun; [|discriminate].
    destruct (normalize_mission_keeps h h1 m' m k Lt Lh E1 Hk Hex) as [Hn Hl].
    rewrite <- Hn. apply IH; assumption.
Qed.

(** C6: the correction returned for an observation is exactly zero when its
    mission is below 3 or the mission's interpolated amplitude is below the
    reference amplitude. *)
Theorem normalize_seasonal_zero_when_exempt
    (hs h_out : list flt) (k : nat) (m : Z) :
  length ts = length ms -> length hs = length ms ->
  normalize_seasonal np_sqrt sin_2pi cos_2pi map_coordinates
                     xs ys ts hs ms Xm Ym C0 C1 = Ok h_out ->
  nth_error ms k = Some m ->
  exempt_mission np_sqrt map_coordinates xs ys ms Xm Ym C0 C1 m ->
  nth_error h_out k = Some (Some 0).
Proof.
  intros Lt Lh Hrun Hk Hex. unfold normalize_seasonal in Hrun.
  rewrite (normalize_loop_keeps _ _ _ m k Lt (eq_trans (length_map _ _) Lh)
             Hrun Hk Hex).
  assert (Hkl : (k < length hs)%nat).
  { rewrite Lh. apply nth_error_Some. congruence. }
  destruct (nth_error hs k) eqn:E.
  - now rewrite nth_error_map, E.
  - apply nth_error_None in E. lia.
Qed.

End Seasonal.

(** ** [binning] *)

Lemma nan_array_returns (n : nat) :
  (1 <= n)%nat -> nan_array (Z.of_nat n - 1) = Ok (repeat nan (n - 1)).
Proof.
  intros Hn. unfold nan_array.
  replace (Z.of_nat n - 1 <? 0)%Z with false by (symmetry; apply Z.ltb_ge; lia).
  f_equal. f_equal. lia.
Qed.




(** ** The coverage gate of the prediction loop *)

Lemma fold_min_le (t : list Q) (a : Q) :
  fold_left (fun m v => if Qle_bool m v then m else v) t a <= a.
Proof.
  revert a. induction t as [|v t IH]; intros a; simpl; [apply Qle_refl|].
  destruct (Qle_bool a v) eqn:E; [apply IH|].
  apply Qle_trans with v; [apply IH|].
  apply Qlt_le_weak, Qnot_le_lt. intros H. apply Qle_bool_iff in H. congruence.
Qed.

Lemma fold_max_ge (t : list Q) (a : Q) :
  a <= fold_left (fun m v => if Qle_bool v m then m else v) t a.
Proof.
  revert a. induction t as [|v t IH]; intros a; simpl; [apply Qle_refl|].
  destruct (Qle_bool v a) eqn:E; [apply IH|].
  apply Qle_trans with v; [|apply IH].
  apply Qlt_le_weak, Qnot_le_lt. intros H. apply Qle_bool_iff in H. congruence.
Qed.

Lemma Qmin_le_Qmax (l : list Q) (a b : Q) :
  Qmin_list l = Ok a -> Qmax_list l = Ok b -> a <= b.
Proof.
  destruct l as [|h t]; simpl; [discriminate|].
  intros Ha Hb. injection Ha as <-. injection Hb as <-.
  apply Qle_trans with h; [apply fold_min_le|apply fold_max_ge].
Qed.

Lemma binning_returns (np_sqrt : Q -> Q) (x : list Q) (y : list flt)
    (xmin xmax dx : Q) :
  0 < dx -> xmin < xmax + dx -> exists r, binning np_sqrt x y xmin xmax dx = Ok r.
Proof.
  intros Hpos Hlt.
  assert (Hz : ~ dx == 0) by lra.
  pose proof (arange_len_pos xmin (xmax + dx) dx Hpos Hlt) as Hn.
  unfold binning.
  rewrite (arange_returns xmin (xmax + dx) dx Hz),
          (arange_returns xmin xmax dx Hz). cbn [bind].
  rewrite length_map, length_seq.
  rewrite (nan_array_returns _ Hn). cbn [bind]. eexists. reflexivity.
Qed.

Lemma len_nonneg {A : Type} (l : list A) : 0 <= len l.
Proof.
  unfold len. change 0 with (inject_Z 0). rewrite <- Zle_Qle. lia.
Qed.

Lemma len_pos {A : Type} (a : A) (l : list A) : 0 < len (a :: l).
Proof.
  unfold len. change 0 with (inject_Z 0). rewrite <- Zlt_Qlt. simpl length. lia.
Qed.

(** The single pass over the neighbourhood never fails; it counts the
    observations, and the sampling fraction it leaves is not negative. *)
Lemma meet_constraints_returns (np_sqrt : Q -> Q) (cfg : config)
    (cap : list observation) :
  exists c b,
    meet_constraints np_sqrt cfg cap = Ok (c, b)
    /\ nobs c = Z.of_nat (length cap)
    /\ 0 <= npct c
    /\ (cap = [] -> dt c = 0)
    /\ (forall tmin tmax,
          Qmin_list (map o_time cap) = Ok tmin ->
          Qmax_list (map o_time cap) = Ok tmax -> dt c = tmax - tmin)
    /\ (b = true -> constraints_met cfg c = true).
Proof.
  unfold meet_constraints. destruct cap as [|o cap].
  - simpl. do 2 eexists. split; [reflexivity|]. simpl.
    repeat split; discriminate.
  - remember (map o_time (o :: cap)) as t eqn:Et.
    destruct t as [|h tl]; [simpl in Et; discriminate|].
    destruct (Qmin_list (h :: tl)) as [tmin|e] eqn:Hmin;
      [|simpl in Hmin; discriminate].
    destruct (Qmax_list (h :: tl)) as [tmax|e] eqn:Hmax;
      [|simpl in Hmax; discriminate].
    cbn [bind].
    pose proof (Qmin_le_Qmax (h :: tl) tmin tmax Hmin Hmax) as Hle.
    assert (Hlt : tmin < tmax + 1 / 12).
    { apply Qle_lt_trans with tmax; [exact Hle|].
      rewrite <- (Qplus_0_r tmax) at 1. apply Qplus_lt_r. reflexivity. }
    destruct (binning_returns np_sqrt (h :: tl) (map Some (h :: tl)) tmin tmax
                (1 / 12) ltac:(reflexivity) Hlt) as [r Hr].
    rewrite Hr. cbn [bind].
    assert (Hlen : Z.of_nat (length (h :: tl)) = Z.of_nat (length (o :: cap))).
    { rewrite Et. now rewrite length_map. }
    destruct (yb r) as [|v ts] eqn:Ey.
    + do 2 eexists. split; [reflexivity|]. cbn [nobs npct dt].
      split; [exact Hlen|]. split; [discriminate|]. split; [discriminate|].
      split; [|discriminate].
      intros a b Ha Hb. congruence.
    + do 2 eexists. split; [reflexivity|]. cbn [nobs npct dt].
      split; [exact Hlen|]. split; [|split; [discriminate|split; [|auto]]].
      * apply Qle_shift_div_l; [apply len_pos|].
        rewrite Qmult_0_l. apply len_nonneg.
      * intros a b Ha Hb. congruence.
Qed.

(** C1 (as the code has it): the single pass over the neighbourhood always
    completes; a cell that holds at least [nmlim] distinct missions is
    skipped at the coverage gate exactly when its observation count is below
    [nlim] or its time span is below [dtlim], whatever its sampling fraction;
    a cell that meets all four conditions is therefore never skipped
    there. *)
Theorem coverage_gate_is_final_test (np_sqrt : Q -> Q) (cfg : config)
    (obs : list observation) (xc yc : Q) :
  exists c b,
    meet_constraints np_sqrt cfg (query_ball_point obs xc yc (dmax cfg))
    = Ok (c, b)
    /\ nobs c = Z.of_nat (length (query_ball_point obs xc yc (dmax cfg)))
    /\ (query_ball_point obs xc yc (dmax cfg) = [] -> dt c = 0)
    /\ (forall tmin tmax,
          Qmin_list (map o_time (query_ball_point obs xc yc (dmax cfg)))
          = Ok tmin ->
          Qmax_list (map o_time (query_ball_point obs xc yc (dmax cfg)))
          = Ok tmax ->
          dt c = tmax - tmin)
    /\ ((nmlim cfg <= nsen c)%Z ->
        (cell_gate np_sqrt cfg obs xc yc = Ok SkipCoverage
         <-> (nobs c < nlim cfg)%Z \/ dt c < dtlim cfg))
    /\ (constraints_met cfg c = true ->
        cell_gate np_sqrt cfg obs xc yc <> Ok SkipCoverage).
Proof.
  destruct (meet_constraints_returns np_sqrt cfg
              (query_ball_point obs xc yc (dmax cfg)))
    as [c [b [Hrun [Hn [Hp [Hd0 [Hd _]]]]]]].
  exists c, b. split; [exact Hrun|]. split; [exact Hn|].
  split; [exact Hd0|]. split; [exact Hd|].
  assert (Hft : final_test cfg c = true
                <-> (nobs c < nlim cfg)%Z \/ dt c < dtlim cfg).
  { unfold final_test.
    assert (Hnp : Qlt_bool (npct c) 0 = false).
    { unfold Qlt_bool. apply negb_false_iff, Qle_bool_iff, Hp. }
    rewrite Hnp, orb_false_r, orb_true_iff, Z.ltb_lt.
    unfold Qlt_bool. rewrite negb_true_iff. split.
    - intros [H|H]; [left; exact H|right].
      apply Qnot_le_lt. intros H'. apply Qle_bool_iff in H'. congruence.
    - intros [H|H]; [left; exact H|right].
      apply not_true_is_false. intros H'. apply Qle_bool_iff in H'. lra. }
  assert (Hgate : cell_gate np_sqrt cfg obs xc yc = Ok SkipCoverage
                  <-> final_test cfg c = true).
  { unfold cell_gate. rewrite Hrun. cbn [bind fst].
    destruct (final_test cfg c); [tauto|].
    destruct (length _ =? 5)%nat; split; discriminate. }
  split; [intros _; rewrite Hgate; exact Hft|].
  intros Hmet Hskip. apply Hgate, Hft in Hskip.
  unfold constraints_met in Hmet.
  repeat (apply andb_true_iff in Hmet; destruct Hmet as [Hmet ?]).
  apply Z.ltb_lt in Hmet.
  destruct Hskip as [Hs|Hs]; [lia|].
  unfold Qlt_bool in H1. apply negb_true_iff in H1.
  assert (dtlim cfg < dt c).
  { apply Qnot_le_lt. intros H'. apply Qle_bool_iff in H'. congruence. }
  lra.
Qed.

Lemma coverage_gate_is_final_test_witness :
  exists c b,
    meet_constraints sqrt_approx (sample_cfg 1 0 1)
      (query_ball_point five_obs 0 0 (dmax (sample_cfg 1 0 1))) = Ok (c, b)
    /\ constraints_met (sample_cfg 1 0 1) c = true
    /\ cell_gate sqrt_approx (sample_cfg 1 0 1) five_obs 0 0 <> Ok SkipCoverage
    /\ (cell_gate sqrt_approx (sample_cfg 1 0 1) five_obs 0 0 = Ok SkipCoverage
        <-> (nobs c < nlim (sample_cfg 1 0 1))%Z \/ dt c < dtlim (sample_cfg 1 0 1)).
Proof.
  destruct (coverage_gate_is_final_test sqrt_approx (sample_cfg 1 0 1)
              five_obs 0 0) as [c [b [Hrun [_ [_ [_ [Hiff Hmet]]]]]]].
  exists c, b. split; [exact Hrun|].
  assert (Hc : constraints_met (sample_cfg 1 0 1) c = true).
  { vm_compute in Hrun. injection Hrun as <- _. vm_compute. reflexivity. }
  assert (Hm : (nmlim (sample_cfg 1 0 1) <= nsen c)%Z).
  { vm_compute in Hrun. injection Hrun as <- _. vm_compute. discriminate. }
  split; [exact Hc|]. split; [exact (Hmet Hc)|exact (Hiff Hm)].
Defined.

(** C1 fails as stated: a cell whose sampling fraction is 1/3 and a cell
    with exactly [nlim] observations both fail the four-condition test and
    both pass the coverage gate. *)
Lemma coverage_gate_ignores_conditions :
  (meet_constraints sqrt_approx (sample_cfg 1 0 1)
     (query_ball_point sparse_obs 0 0 10)
   = Ok (Coverage 2 (1 # 4) (1 # 3) 1, false)
   /\ constraints_met (sample_cfg 1 0 1) (Coverage 2 (1 # 4) (1 # 3) 1) = false
   /\ cell_gate sqrt_approx (sample_cfg 1 0 1) sparse_obs 0 0
      = Ok (Proceed sparse_obs))
  /\ (meet_constraints sqrt_approx (sample_cfg 2 0 1)
        (query_ball_point dense_obs 0 0 10)
      = Ok (Coverage 2 (1 # 16) 1 1, false)
      /\ constraints_met (sample_cfg 2 0 1) (Coverage 2 (1 # 16) 1 1) = false
      /\ cell_gate sqrt_approx (sample_cfg 2 0 1) dense_obs 0 0
         = Ok (Proceed dense_obs)).
Proof.
  repeat split; vm_compute; reflexivity.
Qed.

(** ** The footprint test of the prediction loop *)

Section Footprint.

Variable np_sqrt : Q -> Q.
Variable np_exp : Q -> Q.
Variable np_interp : list Q -> list Q -> list flt -> result (list flt).
Variable np_lstsq : list (list Q) -> list Q -> list Q.
Variable sin_2pi : Q -> Q.
Variable cos_2pi : Q -> Q.
Variable map_coordinates : list (list flt) -> Q -> Q -> flt.
Variable transform_coord : list Q -> list Q -> list Q * list Q.

(** C10: for a cell that passes the coverage gate, exactly five observations
    inside the cell's footprint skip the cell and leave the output as it
    was; with four or six the cell goes on to the adjustment, whose result
    alone decides what is appended. *)
Theorem footprint_of_five_is_skipped (cfg : config) (ras : rasters)
    (obs : list observation) (st : outputs) (cell : Q * Q)
    (c : coverage) (b : bool) :
  let cap := query_ball_point obs (fst cell) (snd cell) (dmax cfg) in
  let n := length (filter (in_cell cfg (fst cell) (snd cell)) cap) in
  meet_constraints np_sqrt cfg cap = Ok (c, b) ->
  final_test cfg c = false ->
  (n = 5%nat ->
   cell_gate np_sqrt cfg obs (fst cell) (snd cell) = Ok SkipFootprint
   /\ cell_step np_sqrt np_exp np_interp np_lstsq sin_2pi cos_2pi
                map_coordinates transform_coord cfg ras obs st cell = Ok st)
  /\ (n = 4%nat \/ n = 6%nat ->
      cell_gate np_sqrt cfg obs (fst cell) (snd cell) = Ok (Proceed cap)
      /\ cell_step np_sqrt np_exp np_interp np_lstsq sin_2pi cos_2pi
                   map_coordinates transform_coord cfg ras obs st cell
         = (r <- adjust_cell np_sqrt np_exp np_interp np_lstsq sin_2pi cos_2pi
                             map_coordinates transform_coord cfg ras cap
                             (fst cell) (snd cell) ;;
            match r with
            | None => Ok st
            | Some (tot, bd) => Ok (Outputs (out_cells st ++ [bd]) tot)
            end)).
Proof.
  intros cap n Hrun Hft.
  assert (Hgate : cell_gate np_sqrt cfg obs (fst cell) (snd cell)
                  = if (n =? 5)%nat then Ok SkipFootprint else Ok (Proceed cap)).
  { unfold cell_gate. fold cap. rewrite Hrun. cbn [bind fst]. rewrite Hft.
    fold n. reflexivity. }
  split.
  - intros Hn. unfold cell_step. rewrite Hgate, Hn. auto.
  - intros Hn. unfold cell_step. rewrite Hgate.
    assert (E : (n =? 5)%nat = false) by (apply Nat.eqb_neq; lia).
    rewrite E. auto.
Qed.

End Footprint.

(** ** Runs on the sample data *)

Lemma sqrt_approx_nonneg (q : Q) : 0 <= q -> 0 <= sqrt_approx q.
Proof.
  intros _. unfold sqrt_approx, Qle. simpl.
  rewrite Z.mul_1_r. apply Z.sqrt_nonneg.
Qed.


Lemma normalize_seasonal_zero_when_exempt_witness :
  exists h_out,
    normalize_seasonal sqrt_approx sin_2pi_approx cos_2pi_approx map_nearest
                       [0; 0; 0; 0] [0; 0; 0; 0] season_ts season_hs season_ms
                       unit_X unit_Y sample_C0 sample_C1
    = Ok h_out
    /\ nth_error h_out 1 = Some (Some 0).
Proof.
  destruct (normalize_seasonal sqrt_approx sin_2pi_approx cos_2pi_approx
              map_nearest [0; 0; 0; 0] [0; 0; 0; 0] season_ts season_hs
              season_ms unit_X unit_Y sample_C0 sample_C1)
    as [h_out|e] eqn:Hrun; [|vm_compute in Hrun; discriminate].
  exists h_out. split; [reflexivity|].
  apply (normalize_seasonal_zero_when_exempt sqrt_approx sin_2pi_approx
           cos_2pi_approx map_nearest sqrt_approx_nonneg
           [0; 0; 0; 0] [0; 0; 0; 0] season_ts season_ms unit_X unit_Y
           sample_C0 sample_C1 season_hs h_out 1%nat 3%Z).
  - reflexivity.
  - reflexivity.
  - exact Hrun.
  - reflexivity.
  - right. exists (Some 3), (Some 0), (Some 1), (Some 0).
    split; vm_compute; reflexivity.
Defined.

Lemma footprint_of_five_is_skipped_witness :
  cell_gate sqrt_approx (sample_cfg 1 0 1) five_obs 0 0 = Ok SkipFootprint
  /\ cell_step sqrt_approx exp_approx interp_left lstsq_mean sin_2pi_approx
               cos_2pi_approx map_nearest transform_id (sample_cfg 1 0 1)
               no_rasters five_obs no_outputs (0, 0)
     = Ok no_outputs.
Proof.
  refine (proj1 (footprint_of_five_is_skipped sqrt_approx exp_approx interp_left
                   lstsq_mean sin_2pi_approx cos_2pi_approx map_nearest
                   transform_id (sample_cfg 1 0 1) no_rasters five_obs
                   no_outputs (0, 0) (Coverage 5 (4 # 20) (3 # 3) 1) true _ _) _).
  - vm_compute. reflexivity.
  - vm_compute. reflexivity.
  - vm_compute. reflexivity.
Defined.

(** * Further properties of the code *)

(** ** [np.unique] *)

Lemma insert_unique_In (a x : Z) (l : list Z) :
  In x (insert_unique a l) <-> x = a \/ In x l.
Proof.
  induction l as [|b t IH]; simpl.
  - intuition.
  - destruct (a <? b)%Z eqn:E1; simpl; [intuition|].
    destruct (a =? b)%Z eqn:E2; simpl.
    + apply Z.eqb_eq in E2. subst. intuition.
    + rewrite IH. intuition.
Qed.

Lemma unique_In (x : Z) (l : list Z) : In x (unique l) <-> In x l.
Proof.
  induction l as [|a t IH]; simpl; [tauto|].
  rewrite insert_unique_In, IH. intuition.
Qed.

Lemma insert_unique_sorted (a : Z) (l : list Z) :
  StronglySorted Z.lt l -> StronglySorted Z.lt (insert_unique a l).
Proof.
  induction l as [|b t IH]; intros Hs; simpl.
  - constructor; constructor.
  - inversion Hs as [|? ? Ht Hb]; subst.
    destruct (a <? b)%Z eqn:E1.
    + apply Z.ltb_lt in E1. constructor; [assumption|].
      constructor; [assumption|].
      rewrite Forall_forall in *. intros y Hy. specialize (Hb y Hy). lia.
    + destruct (a =? b)%Z eqn:E2; [assumption|].
      apply Z.ltb_ge in E1. apply Z.eqb_neq in E2.
      constructor; [apply IH; assumption|].
      rewrite Forall_forall in *. intros y Hy.
      apply insert_unique_In in Hy. destruct Hy as [->|Hy]; [lia|auto].
Qed.

Lemma unique_sorted (l : list Z) : StronglySorted Z.lt (unique l).
Proof.
  induction l as [|a t IH]; simpl; [constructor|].
  now apply insert_unique_sorted.
Qed.

(** ** [lsq_solve]: when it returns *)

Lemma select_finite_vals (y : list flt) :
  finite_vals (select (map (fun v => negb (isnan v)) y) y) = finite_vals y.
Proof.
  induction y as [|[q|] t IH]; simpl; auto. now rewrite IH.
Qed.

Lemma lsq_loop_stays_bound (np_lstsq : list (list Q) -> list Q -> list Q)
    (fuel : nat) (n_sigma threshold : Q) (n_lim : nat) (X : list (list Q))
    (y : list flt) (x : list Q) :
  lsq_loop np_lstsq fuel n_sigma threshold n_lim X y (Some x) <> None.
Proof.
  revert X y x. induction fuel as [|fuel IH]; intros X y x; simpl;
    [discriminate|].
  destruct (n_lim + 1 <? _)%nat; [|discriminate].
  destruct (_ =? _)%nat; [discriminate|apply IH].
Qed.

(** X1: [lsq_solve] returns a coefficient vector exactly when the iteration
    cap is not negative and the valid observations outnumber the unknowns
    plus one; in every other case it raises. *)
Theorem lsq_solve_returns_iff
    (np_lstsq : list (list Q) -> list Q -> list Q)
    (n_lim : nat) (X : list (list Q)) (y : list flt)
    (n_iter : Z) (n_sigma threshold : Q) :
  (exists x, lsq_solve np_lstsq n_lim X y n_iter n_sigma threshold = Ok x)
  <-> (0 <= n_iter)%Z /\ (n_lim + 1 < length (finite_vals y))%nat.
Proof.
  unfold lsq_solve. split.
  - intros [x Hx].
    destruct (Z_lt_le_dec n_iter 0) as [Hneg|Hpos].
    + replace (Z.to_nat (n_iter + 1)) with 0%nat in Hx by lia.
      simpl in Hx. discriminate.
    + split; [assumption|].
      destruct (Nat.lt_ge_cases (n_lim + 1) (length (finite_vals y)))
        as [H|H]; [assumption|].
      rewrite lsq_loop_underdetermined in Hx by assumption. discriminate.
  - intros [Hpos Hobs].
    destruct (Z.to_nat (n_iter + 1)) as [|fuel] eqn:Ef; [lia|].
    simpl. rewrite select_finite_length.
    apply Nat.ltb_lt in Hobs. rewrite Hobs.
    destruct (_ =? _)%nat; [eexists; reflexivity|].
    match goal with
    | |- context [lsq_loop ?f ?k ?a ?b ?c ?d ?e (Some ?v)] =>
        pose proof (lsq_loop_stays_bound f k a b c d e v) as Hb;
        destruct (lsq_loop f k a b c d e (Some v)) as [x|]
    end; [eexists; reflexivity|congruence].
Qed.

Lemma assign_none {A B : Type} (f : B -> bool) (l : list B) (v : A)
    (a : list A) :
  (forall r, In r l -> f r = false) -> assign (map f l) v a = a.
Proof.
  revert a. induction l as [|r l IH]; intros a Hf; simpl; [reflexivity|].
  destruct a as [|w a]; [reflexivity|].
  rewrite (Hf r) by (simpl; auto). f_equal. apply IH.
  intros; apply Hf; simpl; auto.
Qed.

(** X2: when no residual of the first solve exceeds [n_sigma] robust
    standard deviations or the absolute threshold, nothing is rejected and
    [lsq_solve] returns the least-squares solution of the valid rows after
    that single solve. *)
Theorem lsq_solve_clean_single_pass
    (np_lstsq : list (list Q) -> list Q -> list Q)
    (n_lim : nat) (X : list (list Q)) (y : list flt)
    (n_iter : Z) (n_sigma threshold : Q) :
  let i_o := map (fun v => negb (isnan v)) y in
  let x1 := np_lstsq (select i_o X) (finite_vals y) in
  let res := map2 (fun v row => fsub v (Some (dot row x1)))
                  (select i_o y) (select i_o X) in
  (0 <= n_iter)%Z ->
  (n_lim + 1 < length (finite_vals y))%nat ->
  (forall r, In r res ->
     flt_gt (fabs r) (fmul (Some n_sigma) (mad_std res)) = false
     /\ flt_gt (fabs r) (Some threshold) = false) ->
  lsq_solve np_lstsq n_lim X y n_iter n_sigma threshold = Ok x1.
Proof.
  intros i_o x1 res Hpos Hobs Hclean. unfold lsq_solve.
  destruct (Z.to_nat (n_iter + 1)) as [|fuel] eqn:Ef; [lia|].
  simpl. rewrite select_finite_length, select_finite_vals.
  apply Nat.ltb_lt in Hobs. rewrite Hobs.
  fold i_o. fold x1. fold res.
  rewrite (assign_none
             (fun r => flt_gt (fabs r) (fmul (Some n_sigma) (mad_std res))
                       || flt_gt (fabs r) (Some threshold)) res).
  - unfold i_o. rewrite select_finite_vals, Nat.eqb_refl. reflexivity.
  - intros r Hr. destruct (Hclean r Hr) as [-> ->]. reflexivity.
Qed.

Lemma lsq_solve_clean_single_pass_witness :
  lsq_solve lstsq_mean 0 [[1]; [1]; [1]; [1]] [Some 2; nan; Some 2; Some 2]
            5 5 100
  = Ok (lstsq_mean [[1]; [1]; [1]] [2; 2; 2]).
Proof.
  apply (lsq_solve_clean_single_pass lstsq_mean 0 [[1]; [1]; [1]; [1]]
           [Some 2; nan; Some 2; Some 2] 5 5 100).
  - lia.
  - simpl. lia.
  - intros r Hr. vm_compute in Hr.
    destruct Hr as [<-|[<-|[<-|[]]]]; split; reflexivity.
Defined.

(** ** [cross_calibrate]: the ledger in general *)

(** The loop over the three rules, written out. *)
Lemma cross_calibrate_unfold (np_sqrt : Q -> Q) (ti : list Q)
    (hi dh : list flt) (mi : list (option Z)) (a : Q) :
  let d0 := rule_offset np_sqrt ti dh mi a 0 in
  let d1 := rule_offset np_sqrt ti dh mi a 1 in
  let d2 := rule_offset np_sqrt ti dh mi a 2 in
  cross_calibrate np_sqrt ti hi dh mi a
  = (assign (map (is_group 3) mi) (0 + d0 + d1 + d2)
       (assign (map (is_group 2) mi) (0 + d0 + d1)
          (assign (map (is_group 1) mi) (0 + d0) (map (fun _ => 0) hi))),
     ((if Qeq_bool d2 0
       then (if Qeq_bool d1 0
             then (if Qeq_bool d0 0 then 0 else 0 + 1)
             else (if Qeq_bool d0 0 then 0 else 0 + 1) + 1)
       else (if Qeq_bool d1 0
             then (if Qeq_bool d0 0 then 0 else 0 + 1)
             else (if Qeq_bool d0 0 then 0 else 0 + 1) + 1) + 1))%Z).
Proof.
  intros d0 d1 d2.
  unfold cross_calibrate, overlap_rules. simpl combine. simpl fold_left.
  unfold cross_step. simpl fst. simpl snd.
  unfold d0, d1, d2, rule_offset. simpl nth.
  simpl l_b_ref. simpl l_hb. simpl l_flag.
  destruct (Qeq_bool (rule_diff np_sqrt ti dh mi a 2 _ _) 0);
    destruct (Qeq_bool (rule_diff np_sqrt ti dh mi a 1 _ _) 0);
    destruct (Qeq_bool (rule_diff np_sqrt ti dh mi a 0 _ _) 0); reflexivity.
Qed.

(** X3: whatever the data, the correction of an observation depends on its
    group alone and is the running sum of the kept offsets: nothing for
    group 0 and for observations outside the four groups, the first offset
    for group 1, the first two for group 2, all three for group 3. *)
Theorem cross_calibrate_is_prefix_sum
    (np_sqrt : Q -> Q) (ti : list Q) (hi dh : list flt)
    (mi : list (option Z)) (a : Q) (k : nat) (g : option Z) :
  length mi = length hi ->
  nth_error mi k = Some g ->
  exists v,
    nth_error (fst (cross_calibrate np_sqrt ti hi dh mi a)) k = Some v
    /\ v == (if is_group 3 g
             then rule_offset np_sqrt ti dh mi a 0
                  + rule_offset np_sqrt ti dh mi a 1
                  + rule_offset np_sqrt ti dh mi a 2
             else if is_group 2 g
             then rule_offset np_sqrt ti dh mi a 0
                  + rule_offset np_sqrt ti dh mi a 1
             else if is_group 1 g
             then rule_offset np_sqrt ti dh mi a 0
             else 0).
Proof.
  intros Hlen Hk. rewrite cross_calibrate_unfold. cbn [fst].
  assert (Hkl : (k < length hi)%nat).
  { rewrite <- Hlen. apply nth_error_Some. congruence. }
  assert (Hm : forall j, nth_error (map (is_group j) mi) k = Some (is_group j g)).
  { intros j. rewrite nth_error_map, Hk. reflexivity. }
  pose proof (nth_error_zeros hi k Hkl) as Hz.
  pose proof (nth_error_assign _ (0 + rule_offset np_sqrt ti dh mi a 0)
                _ k _ _ (Hm 1%Z) Hz) as A1.
  pose proof (nth_error_assign _ (0 + rule_offset np_sqrt ti dh mi a 0
                                  + rule_offset np_sqrt ti dh mi a 1)
                _ k _ _ (Hm 2%Z) A1) as A2.
  pose proof (nth_error_assign _ (0 + rule_offset np_sqrt ti dh mi a 0
                                  + rule_offset np_sqrt ti dh mi a 1
                                  + rule_offset np_sqrt ti dh mi a 2)
                _ k _ _ (Hm 3%Z) A2) as A3.
  eexists; split; [exact A3|].
  destruct (is_group 3 g); [ring|].
  destruct (is_group 2 g); [ring|].
  destruct (is_group 1 g); [ring|reflexivity].
Qed.

Lemma cross_calibrate_is_prefix_sum_witness :
  exists v,
    nth_error (fst (cross_calibrate sqrt_approx chain_ti chain_dh chain_dh
                                    chain_mi 0)) 7 = Some v
    /\ v == rule_offset sqrt_approx chain_ti chain_dh chain_mi 0 0
            + rule_offset sqrt_approx chain_ti chain_dh chain_mi 0 1.
Proof.
  apply (cross_calibrate_is_prefix_sum sqrt_approx chain_ti chain_dh chain_dh
           chain_mi 0 7 (Some 2%Z)); reflexivity.
Defined.

(** The sanity bound of line 665 holds for every kept difference. *)
Lemma gate_diff_bounded (i : nat) (a : Q) (s : overlap_stats) :
  Qabs (gate_diff i a s) <= 10.
Proof.
  unfold gate_diff.
  destruct (if (i =? 0)%nat then _ else _) as [[[p1 p2] p3] p4].
  destruct (o_diff s) as [d|]; [|discriminate].
  destruct (_ || _); [discriminate|].
  destruct (_ && _); [discriminate|].
  destruct (Qlt_bool 10 (Qabs d)) eqn:E; [discriminate|].
  unfold Qlt_bool in E. apply negb_false_iff, Qle_bool_iff in E. exact E.
Qed.

Lemma nth_error_assign_cases {A : Type} (mask : list bool) (v : A)
    (a : list A) (k : nat) (w : A) :
  nth_error (assign mask v a) k = Some w -> w = v \/ nth_error a k = Some w.
Proof.
  revert a k. induction mask as [|b mask IH]; intros a k H; [auto|].
  destruct a as [|u a]; [auto|].
  destruct k as [|k]; simpl in H.
  - destruct b; [left; congruence|right; exact H].
  - apply IH in H. exact H.
Qed.

(** X4: no correction exceeds 30 in magnitude (three offsets of at most 10
    each), and the success flag counts between 0 and 3 rules. *)
Theorem cross_calibrate_bounded
    (np_sqrt : Q -> Q) (ti : list Q) (hi dh : list flt)
    (mi : list (option Z)) (a : Q) :
  (forall k v,
      nth_error (fst (cross_calibrate np_sqrt ti hi dh mi a)) k = Some v ->
      Qabs v <= 30)
  /\ (0 <= snd (cross_calibrate np_sqrt ti hi dh mi a) <= 3)%Z.
Proof.
  rewrite cross_calibrate_unfold. cbn [fst snd].
  pose proof (gate_diff_bounded 0 a) as B0.
  pose proof (gate_diff_bounded 1 a) as B1.
  pose proof (gate_diff_bounded 2 a) as B2.
  unfold rule_offset, rule_diff.
  set (d0 := gate_diff 0 a _). set (d1 := gate_diff 1 a _).
  set (d2 := gate_diff 2 a _).
  assert (H0 : -(10) <= d0 /\ d0 <= 10) by (apply Qabs_Qle_condition, B0).
  assert (H1 : -(10) <= d1 /\ d1 <= 10) by (apply Qabs_Qle_condition, B1).
  assert (H2 : -(10) <= d2 /\ d2 <= 10) by (apply Qabs_Qle_condition, B2).
  split.
  - intros k v Hv. apply Qabs_Qle_condition.
    apply nth_error_assign_cases in Hv. destruct Hv as [->|Hv]; [lra|].
    apply nth_error_assign_cases in Hv. destruct Hv as [->|Hv]; [lra|].
    apply nth_error_assign_cases in Hv. destruct Hv as [->|Hv]; [lra|].
    rewrite nth_error_map in Hv. destruct (nth_error hi k); simpl in Hv;
      [injection Hv as <-; lra|discriminate].
  - destruct (Qeq_bool d2 0), (Qeq_bool d1 0), (Qeq_bool d0 0); lia.
Qed.

(** ** [cross_calibrate]: gating *)

Lemma select_nil {A : Type} (mask : list bool) : @select A mask [] = [].
Proof.
  destruct mask; reflexivity.
Qed.

Lemma select_group_none {A : Type} (f : Q -> bool) (g : Z) (ti : list Q)
    (mi : list (option Z)) (X : list A) :
  (forall k t, nth_error ti k = Some t -> nth_error mi k = Some (Some g) ->
               f t = false) ->
  select (map (is_group g) (select (map f ti) mi)) (select (map f ti) X) = [].
Proof.
  revert mi X. induction ti as [|t ti IH]; intros mi X H; simpl.
  - destruct mi; reflexivity.
  - destruct mi as [|m mi]; simpl.
    + destruct (f t); reflexivity.
    + assert (H' : forall k t0, nth_error ti k = Some t0 ->
                                nth_error mi k = Some (Some g) -> f t0 = false).
      { intros k t0 H1 H2. apply (H (S k)); assumption. }
      destruct X as [|x X]; [apply select_nil|].
      destruct (f t) eqn:Ef; simpl; [|apply IH, H'].
      destruct (is_group g m) eqn:Eg; [|apply IH, H'].
      destruct m as [z|]; simpl in Eg; [|discriminate].
      apply Z.eqb_eq in Eg. subst z.
      rewrite (H 0%nat t eq_refl eq_refl) in Ef. discriminate.
Qed.

(** X5: a rule whose window holds no observation of one of its two groups
    contributes nothing: the failed minimum or maximum is caught and the
    difference is gated to zero. *)
Theorem rule_without_data_is_gated
    (np_sqrt : Q -> Q) (ti : list Q) (dh : list flt) (mi : list (option Z))
    (a : Q) (i : nat) (w : Q * Q) (p : Z * Z) (g : Z) :
  g = fst p \/ g = snd p ->
  (forall k t, nth_error ti k = Some t -> nth_error mi k = Some (Some g) ->
               in_bin (fst w) (snd w) t = false) ->
  rule_diff np_sqrt ti dh mi a i w p = 0.
Proof.
  intros Hg Hnone. unfold rule_diff.
  assert (Hgate : gate_diff i a no_overlap = 0).
  { unfold gate_diff. destruct (i =? 0)%nat; reflexivity. }
  destruct Hg as [->| ->].
  - rewrite (select_group_none _ (fst p) ti mi ti Hnone).
    unfold overlap_measure, overlap_try. simpl. exact Hgate.
  - rewrite (select_group_none _ (snd p) ti mi ti Hnone).
    unfold overlap_measure, overlap_try.
    destruct (Qmin_list _); simpl; exact Hgate.
Qed.

Lemma rule_without_data_is_gated_witness :
  rule_diff sqrt_approx single_ti single_dh single_mi 0 1
            (nth 1 overlap_windows (0, 0)) (2, 1)%Z = 0.
Proof.
  apply (rule_without_data_is_gated sqrt_approx single_ti single_dh single_mi
           0 1 (nth 1 overlap_windows (0, 0)) (2, 1)%Z 2%Z).
  - left. reflexivity.
  - intros k t Ht Hm.
    destruct k as [|[|[|[|k]]]]; simpl in Hm; try discriminate.
    destruct k; discriminate.
Defined.

Lemma interval_test_off (b0m b1m s0 s1 : flt) :
  flt_gt (fadd b0m (fmul (Some 0) s0)) (fsub b1m (fmul (Some 0) s1))
  && flt_lt (fsub b0m (fmul (Some 0) s0)) (fadd b1m (fmul (Some 0) s1))
  = false.
Proof.
  destruct b0m as [x|], b1m as [y|], s0 as [u|], s1 as [v|]; simpl;
    try reflexivity; try (now rewrite andb_false_r).
  apply not_true_is_false. intros H. apply andb_true_iff in H.
  destruct H as [H1 H2]. unfold Qlt_bool in H1, H2.
  apply negb_true_iff in H1. apply negb_true_iff in H2.
  assert (A1 : y - 0 * v < x + 0 * u).
  { apply Qnot_le_lt. intros H. apply Qle_bool_iff in H. congruence. }
  assert (A2 : x - 0 * u < y + 0 * v).
  { apply Qnot_le_lt. intros H. apply Qle_bool_iff in H. congruence. }
  lra.
Qed.

(** X6: with the gating strictness [a = 0], as [main] calls it, the
    confidence-interval test gates nothing: every rule keeps what the first
    rule, for which the test is switched off, would keep. *)
Theorem zero_strictness_disables_interval_test (i : nat) (s : overlap_stats) :
  gate_diff i 0 s = gate_diff 0 0 s.
Proof.
  unfold gate_diff. destruct (i =? 0)%nat eqn:Ei; [reflexivity|].
  simpl Nat.eqb. cbv iota.
  destruct (o_diff s) as [d|]; [|reflexivity].
  destruct (_ || _); [reflexivity|].
  rewrite interval_test_off. reflexivity.
Qed.

(** ** Medians under a constant shift *)

Lemma Qle_bool_shift (a b c : Q) : Qle_bool (a + c) (b + c) = Qle_bool a b.
Proof.
  destruct (Qle_bool a b) eqn:E.
  - apply Qle_bool_iff. apply Qle_bool_iff in E. lra.
  - apply not_true_is_false. intros H. apply Qle_bool_iff in H.
    assert (a <= b) by lra. apply Qle_bool_iff in H0. congruence.
Qed.

Lemma insert_sorted_shift (c a : Q) (l : list Q) :
  insert_sorted (a + c) (map (fun v => v + c) l)
  = map (fun v => v + c) (insert_sorted a l).
Proof.
  induction l as [|b t IH]; simpl; [reflexivity|].
  rewrite Qle_bool_shift. destruct (Qle_bool a b); simpl; [reflexivity|].
  now rewrite IH.
Qed.

Lemma np_sort_shift (c : Q) (l : list Q) :
  np_sort (map (fun v => v + c) l) = map (fun v => v + c) (np_sort l).
Proof.
  induction l as [|a t IH]; simpl; [reflexivity|].
  rewrite IH. apply insert_sorted_shift.
Qed.

Lemma nth_map_inside {A B : Type} (f : A -> B) (l : list A) (i : nat)
    (d : B) (d' : A) :
  (i < length l)%nat -> nth i (map f l) d = f (nth i l d').
Proof.
  intros Hi. rewrite (nth_indep _ d (f d')) by (now rewrite length_map).
  apply map_nth.
Qed.

(** The median of a shifted array is the shifted median. *)
Lemma median_shift (c : Q) (l : list Q) :
  l <> [] ->
  exists m m', median l = Some m /\ median (map (fun v => v + c) l) = Some m'
               /\ m' == m + c.
Proof.
  intros Hne. unfold median. rewrite np_sort_shift, length_map.
  assert (Hlen : length (np_sort l) <> 0%nat).
  { rewrite np_sort_length. destruct l; simpl; congruence. }
  set (s := np_sort l) in *. set (n := length s) in *.
  assert (Hhalf : (n / 2 < n)%nat) by (apply Nat.div_lt; lia).
  destruct n as [|n'] eqn:En; [congruence|].
  destruct (Nat.even (S n')).
  - do 2 eexists. split; [reflexivity|]. split; [reflexivity|].
    rewrite (nth_map_inside _ s _ 0 0) by (fold n; lia).
    rewrite (nth_map_inside _ s _ 0 0) by (fold n; lia).
    field.
  - do 2 eexists. split; [reflexivity|]. split; [reflexivity|].
    rewrite (nth_map_inside _ s _ 0 0) by (fold n; lia).
    reflexivity.
Qed.

(** ** [cross_calibrate]: recovering a constant offset *)

Lemma select_map {A B : Type} (f : A -> B) (mask : list bool) (l : list A) :
  select mask (map f l) = map f (select mask l).
Proof.
  revert l. induction mask as [|b mask IH]; intros [|a l]; simpl; auto.
  destruct b; simpl; now rewrite IH.
Qed.

Lemma finite_vals_Some (l : list Q) : finite_vals (map Some l) = l.
Proof.
  induction l as [|a l IH]; simpl; congruence.
Qed.

(** The value of a bin of finite samples is the median of the samples it
    selects, NaN when it selects none. *)
Lemma bin_value_finite (np_sqrt : Q -> Q) (x q : list Q) (lo hi : Q) :
  b_y (binning_stat np_sqrt x (map Some q) lo hi)
  = median (select (map (in_bin lo hi) x) q).
Proof.
  unfold binning_stat. rewrite select_map.
  destruct (select (map (in_bin lo hi) x) q) as [|a l]; [reflexivity|].
  simpl map. cbn [b_y]. unfold nanmedian.
  change (Some a :: map Some l) with (map Some (a :: l)).
  now rewrite finite_vals_Some.
Qed.

(** The bin edges of [binning] depend on the range and the width only. *)
Lemma binning_values (x : list Q) (xmin xmax dx : Q) :
  exists n edge, forall np_sqrt y r,
    binning np_sqrt x y xmin xmax dx = Ok r ->
    yb r = map (fun i => b_y (binning_stat np_sqrt x y (edge i) (edge (S i))))
               (seq 0 n).
Proof.
  unfold binning.
  destruct (arange xmin (xmax + dx) dx) as [bins|e]; cbn [bind];
    [|exists 0%nat, (fun _ => 0); intros ? ? ? H; discriminate H].
  destruct (arange xmin xmax dx) as [steps|e]; cbn [bind];
    [|exists 0%nat, (fun _ => 0); intros ? ? ? H; discriminate H].
  destruct (nan_array (Z.of_nat (length bins) - 1)) as [init|e]; cbn [bind];
    [|exists 0%nat, (fun _ => 0); intros ? ? ? H; discriminate H].
  exists (length init), (fun i => nth i bins 0).
  intros np_sqrt y r H. injection H as <-.
  cbn [yb]. now rewrite map_map.
Qed.

(** Bin by bin, a series and its shifted copy differ by the shift wherever
    the bin is populated, and both are NaN elsewhere. *)
Lemma paired_bins (x q : list Q) (c : Q) (edge : nat -> Q) (li : list nat) :
  let F0 i := median (select (map (in_bin (edge i) (edge (S i))) x)
                             (map (fun v => v + c) q)) in
  let F1 i := median (select (map (in_bin (edge i) (edge (S i))) x) q) in
  let L := map2 fsub (map F0 li) (map F1 li) in
  (forall v, In v (finite_vals L) -> c <= v /\ v <= c)
  /\ length (finite_vals L) = length (finite_vals (map F0 li))
  /\ length (select (map (fun v => negb (isnan v)) (map F0 li)) (map F1 li))
     = length (finite_vals (map F0 li)).
Proof.
  intros F0 F1 L. subst L. induction li as [|i li IH].
  - simpl. repeat split; contradiction.
  - destruct IH as [IH1 [IH2 IH3]]. simpl map. simpl map2.
    assert (Hi : (F0 i = nan /\ F1 i = nan)
                 \/ exists m m', F1 i = Some m /\ F0 i = Some m' /\ m' == m + c).
    { unfold F0, F1. rewrite select_map.
      destruct (select (map (in_bin (edge i) (edge (S i))) x) q) as [|a l] eqn:E.
      - left. split; reflexivity.
      - right. apply median_shift. discriminate. }
    destruct Hi as [[-> ->]|[m [m' [-> [-> Hm]]]]]; simpl.
    + repeat split; try assumption; apply IH1; assumption.
    + split; [|split; simpl; congruence].
      intros v [<-|Hv]; [split; lra|apply IH1, Hv].
Qed.

Lemma gate_diff_keeps (i : nat) (s : overlap_stats) (d n0 n1 : Q) :
  o_diff s = Some d -> o_n0 s = Some n0 -> o_n1 s = Some n1 ->
  1 < n0 -> 1 < n1 -> Qabs d <= 10 ->
  gate_diff i 0 s = d.
Proof.
  intros Hd H0 H1 L0 L1 Hb. unfold gate_diff. rewrite Hd, H0, H1.
  assert (E : forall n, 1 < n -> flt_le (Some n) (Some 1) = false).
  { intros n Hn. simpl. apply not_true_is_false. intros H.
    apply Qle_bool_iff in H. lra. }
  rewrite (E n0 L0), (E n1 L1).
  assert (Eb : Qlt_bool 10 (Qabs d) = false).
  { unfold Qlt_bool. apply negb_false_iff, Qle_bool_iff, Hb. }
  destruct (i =? 0)%nat; simpl orb; cbv iota.
  - simpl. rewrite Eb. reflexivity.
  - rewrite interval_test_off, Eb. reflexivity.
Qed.

(** X7: two series sampled at the same times inside an overlap, one a copy
    of the other raised by a constant of magnitude at most 10, with more
    than one populated monthly bin: the kept difference is that constant. *)
Theorem paired_offset_is_recovered
    (np_sqrt : Q -> Q) (t q : list Q) (delta : Q) (i : nat) (n0 : Q) :
  let s := overlap_measure np_sqrt t t (map (fun v => Some (v + delta)) q)
                           (map Some q) in
  o_n0 s = Some n0 -> 1 < n0 -> Qabs delta <= 10 ->
  gate_diff i 0 s == delta.
Proof.
  intros s Hn0 Hn Hb. subst s. unfold overlap_measure in *.
  destruct (overlap_try np_sqrt t t _ _) as [s|e] eqn:Hs; [|discriminate].
  unfold overlap_try in Hs.
  destruct (Qmin_list t) as [t0|e]; [|discriminate].
  destruct (Qmax_list t) as [t1|e]; [|discriminate].
  cbn [bind] in Hs.
  destruct (binning_values t (t0 - 1 / 12) (t1 + 1 / 12) (1 / 12))
    as [n [edge Hv]].
  destruct (binning np_sqrt t (map (fun v => Some (v + delta)) q) _ _ _)
    as [r0|e] eqn:H0; [|discriminate].
  destruct (binning np_sqrt t (map Some q) _ _ _) as [r1|e] eqn:H1;
    [|discriminate].
  cbn [bind] in Hs. injection Hs as <-. cbn [o_n0] in Hn0.
  rewrite (Hv _ _ _ H1) in *.
  rewrite (Hv _ _ _ H0) in *.
  assert (E0 : map (fun v => Some (v + delta)) q
               = map Some (map (fun v => v + delta) q)) by now rewrite map_map.
  rewrite E0 in *.
  rewrite (map_ext _ _ (fun i => bin_value_finite np_sqrt t _ (edge i)
                                                  (edge (S i)))) in *.
  rewrite (map_ext _ _ (fun i => bin_value_finite np_sqrt t q (edge i)
                                                  (edge (S i)))) in *.
  destruct (paired_bins t q delta edge (seq 0 n)) as [P1 [P2 P3]].
  cbv zeta in P1, P2, P3.
  set (b0 := map (fun i0 => median (select (map (in_bin (edge i0) (edge (S i0))) t)
                                         (map (fun v => v + delta) q)))
                 (seq 0 n)) in *.
  set (b1 := map (fun i0 => median (select (map (in_bin (edge i0) (edge (S i0))) t)
                                         q))
                 (seq 0 n)) in *.
  injection Hn0 as Hn0. rewrite <- Hn0 in Hn.
  unfold len in Hn. rewrite select_finite_length in Hn.
  assert (Hcount : (2 <= length (finite_vals b0))%nat).
  { change 1 with (inject_Z 1) in Hn. rewrite <- Zlt_Qlt in Hn. lia. }
  destruct (median_between delta delta (finite_vals (map2 fsub b0 b1)))
    as [d [Hd [D1 D2]]].
  { intros E. rewrite E in P2. simpl in P2. lia. }
  { exact P1. }
  assert (Eq : d == delta) by lra.
  rewrite (gate_diff_keeps i _ d (len (select (map (fun v => negb (isnan v)) b0) b0))
             (len (select (map (fun v => negb (isnan v)) b0) b1))).
  - exact Eq.
  - exact Hd.
  - reflexivity.
  - reflexivity.
  - unfold len. rewrite select_finite_length.
    change 1 with (inject_Z 1). rewrite <- Zlt_Qlt. lia.
  - unfold len. rewrite P3.
    change 1 with (inject_Z 1). rewrite <- Zlt_Qlt. lia.
  - rewrite Eq. exact Hb.
Qed.

Lemma paired_offset_is_recovered_witness :
  gate_diff 1 0
    (overlap_measure sqrt_approx [19955 # 10; 19957 # 10; 19959 # 10]
       [19955 # 10; 19957 # 10; 19959 # 10]
       (map (fun v => Some (v + (3 # 2))) [0; 1; 2]) (map Some [0; 1; 2]))
  == 3 # 2.
Proof.
  eapply (paired_offset_is_recovered sqrt_approx
            [19955 # 10; 19957 # 10; 19959 # 10] [0; 1; 2] (3 # 2) 1).
  - vm_compute. reflexivity.
  - reflexivity.
  - discriminate.
Defined.

(** ** [mad_std] under a constant bias *)

Lemma Qle_bool_Qeq (a a' b b' : Q) :
  a == a' -> b == b' -> Qle_bool a b = Qle_bool a' b'.
Proof.
  intros Ha Hb. destruct (Qle_bool a' b') eqn:E.
  - apply Qle_bool_iff. apply Qle_bool_iff in E. lra.
  - apply not_true_is_false. intros H. apply Qle_bool_iff in H.
    assert (H' : a' <= b') by lra. apply Qle_bool_iff in H'. congruence.
Qed.

Lemma insert_sorted_Qeq (a a' : Q) (l l' : list Q) :
  a == a' -> Forall2 Qeq l l' ->
  Forall2 Qeq (insert_sorted a l) (insert_sorted a' l').
Proof.
  intros Ha Hl. induction Hl as [|b b' l l' Hb Hl IH]; simpl.
  - constructor; [assumption|constructor].
  - rewrite (Qle_bool_Qeq a a' b b' Ha Hb).
    destruct (Qle_bool a' b'); repeat constructor; assumption.
Qed.

Lemma np_sort_Qeq (l l' : list Q) :
  Forall2 Qeq l l' -> Forall2 Qeq (np_sort l) (np_sort l').
Proof.
  intros Hl. induction Hl as [|a a' l l' Ha Hl IH]; simpl; [constructor|].
  now apply insert_sorted_Qeq.
Qed.

Lemma Forall2_nth_Qeq (l l' : list Q) (i : nat) :
  Forall2 Qeq l l' -> nth i l 0 == nth i l' 0.
Proof.
  intros Hl. revert i. induction Hl as [|a a' l l' Ha Hl IH]; intros [|i];
    simpl; try reflexivity; auto.
Qed.

(** Arrays that agree entry by entry as numbers have the same median. *)
Lemma median_Qeq (l l' : list Q) :
  Forall2 Qeq l l' ->
  match median l, median l' with
  | Some m, Some m' => m == m'
  | None, None => True
  | _, _ => False
  end.
Proof.
  intros Hl. apply np_sort_Qeq in Hl. unfold median.
  rewrite <- (Forall2_length Hl).
  destruct (length (np_sort l)) as [|n]; [exact I|].
  destruct (Nat.even (S n)).
  - rewrite (Forall2_nth_Qeq _ _ (S n / 2 - 1) Hl),
            (Forall2_nth_Qeq _ _ (S n / 2) Hl). reflexivity.
  - apply Forall2_nth_Qeq, Hl.
Qed.

Lemma finite_vals_shift (c : Q) (x : list flt) :
  finite_vals (map (fun v => fadd v (Some c)) x)
  = map (fun q => q + c) (finite_vals x).
Proof.
  induction x as [|[q|] t IH]; simpl; auto. now rewrite IH.
Qed.

(** X8: adding one constant to every value leaves the robust standard
    deviation unchanged (and undefined exactly when it was undefined). *)
Theorem mad_std_shift_invariant (c : Q) (x : list flt) :
  match mad_std x, mad_std (map (fun v => fadd v (Some c)) x) with
  | Some r, Some r' => r' == r
  | None, None => True
  | _, _ => False
  end.
Proof.
  unfold mad_std, nanmedian. rewrite finite_vals_shift.
  destruct (finite_vals x) as [|a t] eqn:Ex.
  - change (median []) with nan. change (median (map (fun q => q + c) []))
      with nan.
    assert (E : forall y, finite_vals y = [] ->
                          finite_vals (map (fun v => fabs (fsub v nan)) y) = []).
    { induction y as [|[q|] y IH]; simpl; auto. discriminate. }
    rewrite (E x Ex).
    rewrite (E (map (fun v => fadd v (Some c)) x))
      by (rewrite finite_vals_shift, Ex; reflexivity).
    exact I.
  - destruct (median_shift c (a :: t)) as [m [m' [Hm [Hm' Hmm]]]];
      [discriminate|].
    rewrite Hm, Hm'. rewrite !finite_vals_deviation, finite_vals_shift, Ex.
    rewrite map_map.
    pose proof (median_Qeq
                  (map (fun q => Qabs (q + c - m')) (a :: t))
                  (map (fun q => Qabs (q - m)) (a :: t))) as H.
    assert (HF : Forall2 Qeq (map (fun q => Qabs (q + c - m')) (a :: t))
                         (map (fun q => Qabs (q - m)) (a :: t))).
    { generalize (a :: t). induction l as [|q l IH]; cbn [map]; constructor;
        [|assumption].
      apply Qabs_wd. rewrite Hmm. ring. }
    specialize (H HF).
    destruct (median (map (fun q => Qabs (q - m)) (a :: t))) as [d|];
      destruct (median (map (fun q => Qabs (q + c - m')) (a :: t))) as [d'|];
      simpl; try contradiction; try exact I.
    rewrite H. reflexivity.
Qed.

(** ** [binning]: when it fails *)



(** ** [binning2]: the unweighted mean *)




Lemma binning2_explicit (np_exp : Q -> Q)
    (np_interp : list Q -> list Q -> list flt -> result (list flt))
    (x : list Q) (y : list flt) (start stop step window : Q)
    (median_flag : bool) (weight : option Q) :
  ~ step == 0 ->
  binning2 np_exp np_interp x y (Some start) (Some stop) step window
           false median_flag weight
  = Ok (let stat i :=
          binning2_stat np_exp x y median_flag weight
            (arange_nth start step i) (arange_nth start step i + window) in
        let idx := seq 0 (arange_len start stop step) in
        Binned (map (fun i => (1 # 2) * (arange_nth start step i
                                         + (arange_nth start step i + window)))
                    idx)
               (map (fun i => b_y (stat i)) idx)
               (map (fun i => b_e (stat i)) idx)
               (map (fun i => b_n (stat i)) idx)
               (map (fun i => b_s (stat i)) idx)).
Proof.
  intros Hz. unfold binning2, or_default. cbn [bind].
  rewrite (arange_returns start stop step Hz). cbn [bind]. cbv zeta.
  repeat rewrite map_map. reflexivity.
Qed.



(** ** [bin_mission]: shape, presence mask and errors *)

Lemma assign_length {A : Type} (mask : list bool) (v : A) (a : list A) :
  length (assign mask v a) = length a.
Proof.
  revert a. induction mask as [|b mask IH]; intros [|w a]; simpl; auto.
Qed.

Lemma map2_length {A B C : Type} (f : A -> B -> C) (a : list A) (b : list B) :
  length a = length b -> length (map2 f a b) = length a.
Proof.
  revert b. induction a as [|x a IH]; intros [|y b] H; simpl in *;
    try discriminate; auto.
Qed.

Lemma nth_error_map2 {A B C : Type} (f : A -> B -> C) (a : list A)
    (b : list B) (k : nat) (x : A) (y : B) :
  nth_error a k = Some x -> nth_error b k = Some y ->
  nth_error (map2 f a b) k = Some (f x y).
Proof.
  revert b k. induction a as [|u a IH]; intros [|v b] [|k] Ha Hb;
    simpl in *; try discriminate.
  - congruence.
  - now apply IH.
Qed.

Lemma nth_error_in_range {A : Type} (l : list A) (k : nat) :
  (k < length l)%nat -> exists v, nth_error l k = Some v.
Proof.
  intros H. destruct (nth_error l k) eqn:E; [eauto|].
  apply nth_error_None in E. lia.
Qed.

Section BinMission.

Variable np_sqrt : Q -> Q.
Variable np_exp : Q -> Q.
Variable np_interp : list Q -> list Q -> list flt -> result (list flt).
Variables ti : list Q.
Variables hi ei : list flt.
Variable mi : list Z.
Variables tstart tstop tstep : Q.
Variable wi : option Q.

(** One mission row, written out: the smoothed series [b], the strict
    one-month series [o] that serves as presence mask, and what the row
    returns. *)
Lemma bin_mission_row_explicit (win : Q) (m : Z) :
  ~ tstep == 0 ->
  let im := map (fun v => (v =? m)%Z) mi in
  let win' := if (m =? 8)%Z then 6 / 12 else win in
  exists b o,
    binning2 np_exp np_interp (select im ti) (select im hi) (Some tstart)
             (Some tstop) tstep win' false false wi = Ok b
    /\ binning2 np_exp np_interp (select im ti) (select im hi) (Some tstart)
                (Some tstop) tstep (1 / 12) false true None = Ok o
    /\ length (xb b) = arange_len tstart tstop tstep
    /\ length (yb b) = arange_len tstart tstop tstep
    /\ length (eb b) = arange_len tstart tstop tstep
    /\ length (nb b) = arange_len tstart tstop tstep
    /\ length (yb o) = arange_len tstart tstop tstep
    /\ bin_mission_row np_sqrt np_exp np_interp ti hi mi ei tstart tstop tstep
                       wi win m
       = Ok (win',
             (xb b,
              assign (map isnan (yb o)) nan (yb b),
              (let m_rms := fdiv (np_mean (select im ei)) (Some (np_sqrt 2)) in
               let eb3 :=
                 map (fun e => fdiv e (Some (np_sqrt (effective_n
                        (assign (map isnan (yb o)) nan (yb b))))))
                     (map (fun e => if flt_lt e (Some (1 # 100)) then m_rms else e)
                          (assign (map isnan (yb o)) nan (eb b))) in
               map2 (fun s e => lift1 np_sqrt (fadd (fmul s s) (fmul e e)))
                    (map (fun e => if isnan e then e else m_rms) eb3) eb3),
              assign (map isnan (yb o)) nan (nb b))).
Proof.
  intros Hz im win'. unfold bin_mission_row. fold im. fold win'.
  rewrite (binning2_explicit np_exp np_interp (select im ti) (select im hi)
             tstart tstop tstep win' false wi Hz).
  rewrite (binning2_explicit np_exp np_interp (select im ti) (select im hi)
             tstart tstop tstep (1 / 12) true None Hz).
  cbv zeta. cbn [bind]. do 2 eexists.
  split; [reflexivity|]. split; [reflexivity|]. cbn [xb yb eb nb].
  repeat rewrite length_map. rewrite length_seq.
  repeat (split; [reflexivity|]). reflexivity.
Qed.

Lemma bin_mission_loop_shape (mu : list Z) :
  ~ tstep == 0 -> forall win,
  exists r,
    bin_mission_loop np_sqrt np_exp np_interp ti hi mi ei tstart tstop tstep
                     wi win mu = Ok r
    /\ length (tbi r) = length mu /\ length (hbi r) = length mu
    /\ length (ebi r) = length mu /\ length (nbi r) = length mu
    /\ length (mbi r) = length mu
    /\ Forall (fun row => length row = arange_len tstart tstop tstep) (tbi r)
    /\ Forall (fun row => length row = arange_len tstart tstop tstep) (hbi r)
    /\ Forall (fun row => length row = arange_len tstart tstop tstep) (ebi r)
    /\ Forall (fun row => length row = arange_len tstart tstop tstep) (nbi r)
    /\ Forall (fun row => length row = arange_len tstart tstop tstep) (mbi r).
Proof.
  intros Hz. induction mu as [|m mu IH]; intros win.
  - simpl. eexists. split; [reflexivity|]. simpl. repeat split; constructor.
  - destruct (bin_mission_row_explicit win m Hz)
      as [b [o [_ [_ [Lx [Ly [Le [Ln [Lo Hrow]]]]]]]]].
    cbv zeta in Hrow.
    destruct (IH (if (m =? 8)%Z then 6 / 12 else win))
      as [r [Hr [L1 [L2 [L3 [L4 [L5 [F1 [F2 [F3 [F4 F5]]]]]]]]]]].
    cbn [bin_mission_loop]. rewrite Hrow. cbn [bind]. rewrite Hr. cbn [bind].
    eexists. split; [reflexivity|]. cbn [tbi hbi ebi nbi mbi length].
    repeat (split; [congruence|]).
    split; [constructor; assumption|].
    split; [constructor; [now rewrite assign_length|assumption]|].
    split; [constructor; [|assumption]|].
    { rewrite map2_length; repeat rewrite length_map;
        now rewrite assign_length. }
    split; [constructor; [now rewrite assign_length|assumption]|].
    constructor; [now rewrite length_map|assumption].
Qed.

Lemma Forall_map2_rows (n : nat) (a b : list (list flt)) :
  length a = length b ->
  Forall (fun row => length row = n) b ->
  Forall (fun row => length row = n) (map2 reject_row a b).
Proof.
  revert b. induction a as [|x a IH]; intros [|y b] Hl Hb; simpl in *;
    try discriminate; [constructor|].
  inversion Hb; subst. constructor.
  - unfold reject_row. now rewrite assign_length.
  - apply IH; [congruence|assumption].
Qed.

(** X11: for a non-zero time step [bin_mission] always returns, with one
    row per distinct mission in each of its five arrays and, in every row,
    one entry per element of [np.arange(tstart, tstop, tstep)], observed or
    not; a zero time step raises [ZeroDivisionError]. *)
Theorem bin_mission_shape (win : Q) :
  (~ tstep == 0 ->
   exists mb,
     bin_mission np_sqrt np_exp np_interp ti hi mi ei tstart tstop tstep win wi
     = Ok mb
     /\ length (tbi mb) = length (unique mi)
     /\ length (hbi mb) = length (unique mi)
     /\ length (ebi mb) = length (unique mi)
     /\ length (nbi mb) = length (unique mi)
     /\ length (mbi mb) = length (unique mi)
     /\ Forall (fun row => length row = arange_len tstart tstop tstep) (tbi mb)
     /\ Forall (fun row => length row = arange_len tstart tstop tstep) (hbi mb)
     /\ Forall (fun row => length row = arange_len tstart tstop tstep) (ebi mb)
     /\ Forall (fun row => length row = arange_len tstart tstop tstep) (nbi mb)
     /\ Forall (fun row => length row = arange_len tstart tstop tstep) (mbi mb))
  /\ (tstep == 0 ->
      bin_mission np_sqrt np_exp np_interp ti hi mi ei tstart tstop tstep win wi
      = Raise ZeroDivisionError).
Proof.
  split.
  - intros Hz. unfold bin_mission, arange.
    assert (E : Qeq_bool tstep 0 = false).
    { apply not_true_is_false. intros H. apply Qeq_bool_eq in H. contradiction. }
    rewrite E. cbn [bind].
    destruct (bin_mission_loop_shape (unique mi) Hz win)
      as [r [Hr [L1 [L2 [L3 [L4 [L5 [F1 [F2 [F3 [F4 F5]]]]]]]]]]].
    rewrite Hr. cbn [bind]. eexists. split; [reflexivity|].
    cbn [tbi hbi ebi nbi mbi].
    rewrite !map2_length by congruence.
    repeat (split; [assumption|]).
    split; [apply Forall_map2_rows; [congruence|assumption]|].
    split; [apply Forall_map2_rows; [congruence|assumption]|].
    split; assumption.
  - intros H0. unfold bin_mission, arange. apply Qeq_eq_bool in H0.
    rewrite H0. reflexivity.
Qed.

(** Where the strict series is NaN, the value, the count and the error of
    the row are NaN. *)
Lemma masked_entries (yo ys es ns : list flt) (m_rms : flt) (c : Q) (j : nat) :
  length ys = length yo -> length es = length yo -> length ns = length yo ->
  nth_error yo j = Some nan ->
  nth_error (assign (map isnan yo) nan ys) j = Some nan
  /\ nth_error (assign (map isnan yo) nan ns) j = Some nan
  /\ nth_error
       (let eb3 :=
          map (fun e => fdiv e (Some c))
              (map (fun e => if flt_lt e (Some (1 # 100)) then m_rms else e)
                   (assign (map isnan yo) nan es)) in
        map2 (fun s e => lift1 np_sqrt (fadd (fmul s s) (fmul e e)))
             (map (fun e => if isnan e then e else m_rms) eb3) eb3) j
     = Some nan.
Proof.
  intros Ly Le Ln Hj.
  assert (Hjl : (j < length yo)%nat) by (apply nth_error_Some; congruence).
  assert (Hg : nth_error (map isnan yo) j = Some true).
  { rewrite nth_error_map, Hj. reflexivity. }
  destruct (nth_error_in_range ys j ltac:(lia)) as [wy Hy].
  destruct (nth_error_in_range es j ltac:(lia)) as [we He].
  destruct (nth_error_in_range ns j ltac:(lia)) as [wn Hn].
  pose proof (nth_error_assign _ nan _ j _ _ Hg Hy) as Ay.
  pose proof (nth_error_assign _ nan _ j _ _ Hg He) as Ae.
  pose proof (nth_error_assign _ nan _ j _ _ Hg Hn) as An.
  split; [exact Ay|]. split; [exact An|]. cbv zeta.
  assert (E3 : nth_error
                 (map (fun e => fdiv e (Some c))
                      (map (fun e => if flt_lt e (Some (1 # 100)) then m_rms else e)
                           (assign (map isnan yo) nan es))) j = Some nan).
  { rewrite !nth_error_map, Ae. reflexivity. }
  assert (Es : nth_error
                 (map (fun e => if isnan e then e else m_rms)
                      (map (fun e => fdiv e (Some c))
                           (map (fun e => if flt_lt e (Some (1 # 100))
                                          then m_rms else e)
                                (assign (map isnan yo) nan es)))) j = Some nan).
  { rewrite nth_error_map, E3. reflexivity. }
  rewrite (nth_error_map2 _ _ _ j nan nan Es E3). reflexivity.
Qed.

Lemma bin_mission_loop_masked (mu : list Z) :
  ~ tstep == 0 -> forall win r i m o j,
  bin_mission_loop np_sqrt np_exp np_interp ti hi mi ei tstart tstop tstep
                   wi win mu = Ok r ->
  nth_error mu i = Some m ->
  binning2 np_exp np_interp (select (map (fun v => (v =? m)%Z) mi) ti)
           (select (map (fun v => (v =? m)%Z) mi) hi) (Some tstart)
           (Some tstop) tstep (1 / 12) false true None = Ok o ->
  nth_error (yb o) j = Some nan ->
  exists hrow erow nrow,
    nth_error (hbi r) i = Some hrow /\ nth_error (ebi r) i = Some erow
    /\ nth_error (nbi r) i = Some nrow
    /\ length nrow = length hrow /\ length nrow = length erow
    /\ nth_error hrow j = Some nan /\ nth_error erow j = Some nan
    /\ nth_error nrow j = Some nan.
Proof.
  intros Hz. induction mu as [|m' mu IH]; intros win r i m o j Hrun Hi Ho Hj.
  - destruct i; discriminate.
  - destruct (bin_mission_row_explicit win m' Hz)
      as [b [o' [_ [Ho' [Lx [Ly [Le [Ln [Lo Hrow]]]]]]]]].
    cbv zeta in Hrow. cbn [bin_mission_loop] in Hrun.
    rewrite Hrow in Hrun. cbn [bind] in Hrun.
    destruct (bin_mission_loop _ _ _ _ _ _ _ _ _ _ _ _ mu) as [rest|e] eqn:Hrest;
      [|discriminate].
    cbn [bind] in Hrun. injection Hrun as <-. cbn [hbi ebi nbi].
    destruct i as [|i].
    + simpl in Hi. injection Hi as ->. rewrite Ho in Ho'. injection Ho' as <-.
      destruct (masked_entries (yb o) (yb b) (eb b) (nb b)
                  (fdiv (np_mean (select (map (fun v => (v =? m)%Z) mi) ei))
                        (Some (np_sqrt 2)))
                  (np_sqrt (effective_n (assign (map isnan (yb o)) nan (yb b))))
                  j ltac:(congruence) ltac:(congruence) ltac:(congruence) Hj)
        as [M1 [M2 M3]].
      do 3 eexists. cbn [nth_error].
      split; [reflexivity|]. split; [reflexivity|]. split; [reflexivity|].
      split; [now rewrite !assign_length; congruence|].
      split; [|split; [exact M1|split; [exact M3|exact M2]]].
      rewrite map2_length; rewrite !length_map, !assign_length; congruence.
    + simpl in Hi. cbn [nth_error]. eapply IH; eassumption.
Qed.

(** X12: wherever the strict one-month series of a mission has no value at
    a time step, the stacked value, error and count of that mission at that
    step are NaN: smoothing never fills a step without data of its own. *)
Theorem bin_mission_presence_mask (win : Q) (mb : mission_bins)
    (i : nat) (m : Z) (o : binned) (j : nat) :
  bin_mission np_sqrt np_exp np_interp ti hi mi ei tstart tstop tstep win wi
  = Ok mb ->
  nth_error (unique mi) i = Some m ->
  binning2 np_exp np_interp (select (map (fun v => (v =? m)%Z) mi) ti)
           (select (map (fun v => (v =? m)%Z) mi) hi) (Some tstart)
           (Some tstop) tstep (1 / 12) false true None = Ok o ->
  nth_error (yb o) j = Some nan ->
  exists hrow erow nrow,
    nth_error (hbi mb) i = Some hrow /\ nth_error (ebi mb) i = Some erow
    /\ nth_error (nbi mb) i = Some nrow
    /\ nth_error hrow j = Some nan /\ nth_error erow j = Some nan
    /\ nth_error nrow j = Some nan.
Proof.
  intros Hrun Hi Ho Hj. unfold bin_mission in Hrun.
  assert (Hz : ~ tstep == 0).
  { intros H0. unfold arange in Hrun. apply Qeq_eq_bool in H0.
    rewrite H0 in Hrun. discriminate. }
  destruct (arange tstart tstop tstep) as [tb|e]; [|discriminate].
  cbn [bind] in Hrun.
  destruct (bin_mission_loop _ _ _ _ _ _ _ _ _ _ _ _ (unique mi))
    as [r|e] eqn:Hr; [|discriminate].
  cbn [bind] in Hrun. injection Hrun as <-. cbn [hbi ebi nbi].
  destruct (bin_mission_loop_masked (unique mi) Hz win r i m o j Hr Hi Ho Hj)
    as [hrow [erow [nrow [H1 [H2 [H3 [L1 [L2 [J1 [J2 J3]]]]]]]]]].
  assert (Hmask : nth_error (map (fun c => flt_lt c (Some 1)) nrow) j
                  = Some false).
  { rewrite nth_error_map, J3. reflexivity. }
  exists (reject_row nrow hrow), (reject_row nrow erow), nrow.
  split; [now apply nth_error_map2|]. split; [now apply nth_error_map2|].
  split; [assumption|]. unfold reject_row.
  split; [exact (nth_error_assign _ nan _ j _ _ Hmask J1)|].
  split; [exact (nth_error_assign _ nan _ j _ _ Hmask J2)|assumption].
Qed.

Lemma in_map2 {A B C : Type} (f : A -> B -> C) (a : list A) (b : list B)
    (z : C) :
  In z (map2 f a b) -> exists x y, In x a /\ In y b /\ z = f x y.
Proof.
  revert b. induction a as [|u a IH]; intros [|v b] H; simpl in H;
    try contradiction.
  destruct H as [<-|H].
  - exists u, v. simpl. auto.
  - destruct (IH b H) as [x [y [Hx [Hy Hz]]]]. exists x, y. simpl. auto.
Qed.

Lemma in_assign {A : Type} (mask : list bool) (v : A) (a : list A) (z : A) :
  In z (assign mask v a) -> z = v \/ In z a.
Proof.
  revert a. induction mask as [|b mask IH]; intros [|w a] H; simpl in H;
    auto.
  destruct H as [H|H].
  - destruct b; [left; congruence|right; left; exact H].
  - destruct (IH a H); [left|right; right]; assumption.
Qed.

Hypothesis np_sqrt_nonneg : forall q, 0 <= q -> 0 <= np_sqrt q.

Lemma bin_mission_loop_errors (mu : list Z) :
  ~ tstep == 0 -> forall win r row v,
  bin_mission_loop np_sqrt np_exp np_interp ti hi mi ei tstart tstop tstep
                   wi win mu = Ok r ->
  In row (ebi r) -> In (Some v) row -> 0 <= v.
Proof.
  intros Hz. induction mu as [|m mu IH]; intros win r row v Hrun Hrow Hv.
  - simpl in Hrun. injection Hrun as <-. contradiction.
  - destruct (bin_mission_row_explicit win m Hz)
      as [b [o [_ [_ [_ [_ [_ [_ [_ Hr]]]]]]]]].
    cbv zeta in Hr. cbn [bin_mission_loop] in Hrun.
    rewrite Hr in Hrun. cbn [bind] in Hrun.
    destruct (bin_mission_loop _ _ _ _ _ _ _ _ _ _ _ _ mu) as [rest|e] eqn:Hrest;
      [|discriminate].
    cbn [bind] in Hrun. injection Hrun as <-. cbn [ebi] in Hrow.
    destruct Hrow as [<-|Hrow]; [|eapply IH; eassumption].
    apply in_map2 in Hv. destruct Hv as [s [e [_ [_ Hv]]]].
    destruct s as [s|], e as [e|]; simpl in Hv; try discriminate.
    injection Hv as ->. apply np_sqrt_nonneg. nra.
Qed.

(** X13: no error estimate that [bin_mission] returns is negative. *)
Theorem bin_mission_errors_nonneg (win : Q) (mb : mission_bins)
    (row : list flt) (v : Q) :
  bin_mission np_sqrt np_exp np_interp ti hi mi ei tstart tstop tstep win wi
  = Ok mb ->
  In row (ebi mb) -> In (Some v) row -> 0 <= v.
Proof.
  intros Hrun Hrow Hv. unfold bin_mission in Hrun.
  assert (Hz : ~ tstep == 0).
  { intros H0. unfold arange in Hrun. apply Qeq_eq_bool in H0.
    rewrite H0 in Hrun. discriminate. }
  destruct (arange tstart tstop tstep) as [tb|e]; [|discriminate].
  cbn [bind] in Hrun.
  destruct (bin_mission_loop _ _ _ _ _ _ _ _ _ _ _ _ (unique mi))
    as [r|e] eqn:Hr; [|discriminate].
  cbn [bind] in Hrun. injection Hrun as <-. cbn [ebi] in Hrow.
  apply in_map2 in Hrow. destruct Hrow as [nrow [erow [_ [He ->]]]].
  unfold reject_row in Hv. apply in_assign in Hv.
  destruct Hv as [Hv|Hv]; [discriminate|].
  exact (bin_mission_loop_errors (unique mi) Hz win r erow v Hr He Hv).
Qed.

End BinMission.

Lemma bin_mission_shape_witness :
  exists mb,
    bin_mission sqrt_approx exp_approx interp_left [3 # 10; 35 # 100]
                [Some 1; Some 2] [1; 1]%Z [Some (1 # 10); Some (1 # 10)]
                0 1 (1 # 4) (1 # 2) None = Ok mb
    /\ length (hbi mb) = 1%nat
    /\ Forall (fun row => length row = 4%nat) (hbi mb).
Proof.
  destruct (proj1 (bin_mission_shape sqrt_approx exp_approx interp_left
                     [3 # 10; 35 # 100] [Some 1; Some 2]
                     [Some (1 # 10); Some (1 # 10)] [1; 1]%Z 0 1 (1 # 4) None
                     (1 # 2)))
    as [mb [Hrun [_ [Hh [_ [_ [_ [_ [Fh _]]]]]]]]].
  - intros H. discriminate H.
  - exists mb. split; [exact Hrun|]. split; [exact Hh|exact Fh].
Defined.

Lemma bin_mission_presence_mask_witness :
  exists mb hrow,
    bin_mission sqrt_approx exp_approx interp_left [3 # 10; 35 # 100]
                [Some 1; Some 2] [1; 1]%Z [Some (1 # 10); Some (1 # 10)]
                0 1 (1 # 4) (1 # 2) None = Ok mb
    /\ nth_error (hbi mb) 0 = Some hrow
    /\ nth_error hrow 0 = Some nan.
Proof.
  destruct (bin_mission sqrt_approx exp_approx interp_left [3 # 10; 35 # 100]
              [Some 1; Some 2] [1; 1]%Z [Some (1 # 10); Some (1 # 10)]
              0 1 (1 # 4) (1 # 2) None) as [mb|e] eqn:Hrun;
    [|vm_compute in Hrun; discriminate].
  destruct (binning2 exp_approx interp_left
              (select (map (fun v => (v =? 1)%Z) [1; 1]%Z) [3 # 10; 35 # 100])
              (select (map (fun v => (v =? 1)%Z) [1; 1]%Z) [Some 1; Some 2])
              (Some 0) (Some 1) (1 # 4) (1 / 12) false true None)
    as [o|e] eqn:Ho; [|vm_compute in Ho; discriminate].
  destruct (bin_mission_presence_mask sqrt_approx exp_approx interp_left
              [3 # 10; 35 # 100] [Some 1; Some 2]
              [Some (1 # 10); Some (1 # 10)] [1; 1]%Z 0 1 (1 # 4) None
              (1 # 2) mb 0 1%Z o 0 Hrun eq_refl Ho)
    as [hrow [erow [nrow [H1 [_ [_ [J1 _]]]]]]].
  - vm_compute in Ho. injection Ho as <-. reflexivity.
  - exists mb, hrow. split; [reflexivity|]. split; assumption.
Defined.

Lemma bin_mission_errors_nonneg_witness :
  exists mb row v,
    bin_mission sqrt_approx exp_approx interp_left [3 # 10; 35 # 100]
                [Some 1; Some 2] [1; 1]%Z [Some (1 # 10); Some (1 # 10)]
                0 1 (1 # 4) (1 # 2) None = Ok mb
    /\ nth_error (ebi mb) 0 = Some row
    /\ nth_error row 1 = Some (Some v)
    /\ 0 <= v.
Proof.
  destruct (bin_mission sqrt_approx exp_approx interp_left [3 # 10; 35 # 100]
              [Some 1; Some 2] [1; 1]%Z [Some (1 # 10); Some (1 # 10)]
              0 1 (1 # 4) (1 # 2) None) as [mb|e] eqn:Hrun;
    [|vm_compute in Hrun; discriminate].
  destruct (nth_error (ebi mb) 0) as [row|] eqn:Hrow;
    [|vm_compute in Hrun; injection Hrun as <-; discriminate].
  destruct (nth_error row 1) as [[v|]|] eqn:Hv;
    try (vm_compute in Hrun; injection Hrun as <-;
         vm_compute in Hrow; injection Hrow as <-; discriminate).
  exists mb, row, v. split; [reflexivity|]. split; [exact Hrow|].
  split; [exact Hv|].
  apply (bin_mission_errors_nonneg sqrt_approx exp_approx interp_left
           [3 # 10; 35 # 100] [Some 1; Some 2] [Some (1 # 10); Some (1 # 10)]
           [1; 1]%Z 0 1 (1 # 4) None sqrt_approx_nonneg (1 # 2) mb row v Hrun).
  - eapply nth_error_In. exact Hrow.
  - eapply nth_error_In. exact Hv.
Defined.

(** ** [normalize_seasonal]: what it writes and when it fails *)

Section SeasonalMore.

Variable np_sqrt : Q -> Q.
Variable sin_2pi : Q -> Q.
Variable cos_2pi : Q -> Q.
Variable map_coordinates : list (list flt) -> Q -> Q -> flt.
Variables xs ys ts : list Q.
Variable ms : list Z.
Variables Xm Ym : list (list Q).
Variables C0 C1 : list (list (list flt)).

Lemma normalize_loop_reference_only (mi : list Z) (h : list flt) :
  (forall m, In m mi -> (m < 3)%Z) ->
  normalize_loop np_sqrt sin_2pi cos_2pi map_coordinates
                 xs ys ts ms Xm Ym C0 C1
      (reference_layer C0) (reference_layer C1) h mi = Ok h.
Proof.
  induction mi as [|m mi IH]; intros Hall; cbn [normalize_loop];
    [reflexivity|].
  unfold normalize_mission.
  assert (E : (m <? 3)%Z = true) by (apply Z.ltb_lt, Hall; simpl; auto).
  rewrite E. cbn [bind]. apply IH. intros; apply Hall; simpl; auto.
Qed.

(** X14: when every mission of the neighbourhood belongs to the reference
    class (identifier below 3) the call returns the correction zero for
    every observation, for any grids and any three-dimensional coefficient
    stacks: the reference layers are reduced before the loop as on every
    call, but no mission layer is looked up and nothing is interpolated. *)
Theorem normalize_seasonal_reference_only (hs : list flt) :
  (forall m, In m ms -> (m < 3)%Z) ->
  normalize_seasonal np_sqrt sin_2pi cos_2pi map_coordinates
                     xs ys ts hs ms Xm Ym C0 C1
  = Ok (map (fun _ => Some 0) hs).
Proof.
  intros Hall. unfold normalize_seasonal.
  apply normalize_loop_reference_only.
  intros m Hm. apply Hall, unique_In, Hm.
Qed.

Lemma missing_layer_raises (m : Z) :
  (length C0 <= Z.to_nat m)%nat \/ (length C1 <= Z.to_nat m)%nat ->
  exists e, mission_coefficients map_coordinates xs ys ms Xm Ym C0 C1
      (reference_layer C0) (reference_layer C1) m
            = Raise e.
Proof.
  intros Hlen. unfold mission_coefficients.
  destruct (interp2d _ _ _ (reference_layer C0) _ _) as [c0r|e];
    cbn [bind]; [|eauto].
  destruct (interp2d _ _ _ (reference_layer C1) _ _) as [c1r|e];
    cbn [bind]; [|eauto].
  unfold get at 1. destruct (nth_error C0 (Z.to_nat m)) as [l0|] eqn:E0;
    cbn [bind]; [|eauto].
  destruct (interp2d _ _ _ l0 _ _) as [c0m|e]; cbn [bind]; [|eauto].
  unfold get at 1. destruct (nth_error C1 (Z.to_nat m)) as [l1|] eqn:E1;
    cbn [bind]; [|eauto].
  exfalso. destruct Hlen as [H|H].
  - apply nth_error_None in H. congruence.
  - apply nth_error_None in H. congruence.
Qed.

Lemma normalize_loop_missing_layer (mi : list Z) (m : Z) :
  In m mi -> (3 <= m)%Z ->
  (length C0 <= Z.to_nat m)%nat \/ (length C1 <= Z.to_nat m)%nat ->
  forall h, exists e,
    normalize_loop np_sqrt sin_2pi cos_2pi map_coordinates
                   xs ys ts ms Xm Ym C0 C1
      (reference_layer C0) (reference_layer C1) h mi = Raise e.
Proof.
  intros Hin Hm Hlen. induction mi as [|m' mi IH]; [contradiction|].
  intros h. cbn [normalize_loop].
  destruct (normalize_mission np_sqrt sin_2pi cos_2pi map_coordinates
              xs ys ts ms Xm Ym C0 C1
      (reference_layer C0) (reference_layer C1) h m') as [h1|e] eqn:E1;
    cbn [bind]; [|eauto].
  destruct Hin as [->|Hin]; [|apply IH, Hin].
  exfalso. unfold normalize_mission in E1.
  assert (E : (m <? 3)%Z = false) by (apply Z.ltb_ge; lia).
  rewrite E in E1. destruct (missing_layer_raises m Hlen) as [e He].
  rewrite He in E1. discriminate.
Qed.

(** X15: a neighbourhood that holds a mission of identifier 3 or more for
    which a coefficient stack has no layer makes the whole call fail; no
    partial correction is returned. *)
Theorem normalize_seasonal_missing_layer (hs : list flt) (m : Z) :
  In m ms -> (3 <= m)%Z ->
  (length C0 <= Z.to_nat m)%nat \/ (length C1 <= Z.to_nat m)%nat ->
  exists e,
    normalize_seasonal np_sqrt sin_2pi cos_2pi map_coordinates
                       xs ys ts hs ms Xm Ym C0 C1 = Raise e.
Proof.
  intros Hin Hm Hlen. unfold normalize_seasonal.
  apply (normalize_loop_missing_layer (unique ms) m); try assumption.
  apply unique_In, Hin.
Qed.

(** The entry that the mission's own pass writes. *)
Lemma normalize_mission_step (h h' : list flt) (m' m : Z) (k : nat) (t : Q)
    (c0r c1r c0m c1m : flt) :
  length ts = length ms -> length h = length ms ->
  normalize_mission np_sqrt sin_2pi cos_2pi map_coordinates
                    xs ys ts ms Xm Ym C0 C1
      (reference_layer C0) (reference_layer C1) h m' = Ok h' ->
  nth_error ms k = Some m -> nth_error ts k = Some t -> (3 <= m)%Z ->
  mission_coefficients map_coordinates xs ys ms Xm Ym C0 C1
      (reference_layer C0) (reference_layer C1) m
  = Ok (c0r, c1r, c0m, c1m) ->
  ratio_gt_one (amplitude np_sqrt c0r c1r) (amplitude np_sqrt c0m c1m) = false ->
  length h' = length ms
  /\ nth_error h' k
     = if (m =? m')%Z
       then Some (fmul (scale_deficit (amplitude np_sqrt c0r c1r)
                                      (amplitude np_sqrt c0m c1m))
                       (fadd (fmul c0m (Some (sin_2pi (t - 0))))
                             (fmul c1m (Some (cos_2pi (t - 0))))))
       else nth_error h k.
Proof.
  intros Lt Lh Hrun Hk Ht Hm Hc Hr. unfold normalize_mission in Hrun.
  destruct (m' <? 3)%Z eqn:Eref.
  { injection Hrun as <-. split; [assumption|].
    destruct (m =? m')%Z eqn:Em; [|reflexivity].
    apply Z.eqb_eq in Em. apply Z.ltb_lt in Eref. lia. }
  destruct (mission_coefficients map_coordinates xs ys ms Xm Ym C0 C1
      (reference_layer C0) (reference_layer C1) m')
    as [[[[a0 a1] b0] b1]|e] eqn:Ec; simpl in Hrun; [|discriminate].
  destruct (ratio_gt_one (amplitude np_sqrt a0 a1) (amplitude np_sqrt b0 b1))
    eqn:Egt.
  { injection Hrun as <-. split; [assumption|].
    destruct (m =? m')%Z eqn:Em; [|reflexivity].
    apply Z.eqb_eq in Em. subst m'. rewrite Hc in Ec.
    injection Ec as <- <- <- <-. congruence. }
  injection Hrun as <-. split; [now apply map3_length|].
  destruct (map3_nth_error
              (fun v t0 old =>
                 if (v =? m')%Z
                 then fmul (scale_deficit (amplitude np_sqrt a0 a1)
                                          (amplitude np_sqrt b0 b1))
                           (fadd (fmul b0 (Some (sin_2pi (t0 - 0))))
                                 (fmul b1 (Some (cos_2pi (t0 - 0)))))
                 else old)
              ms ts h k m Lt Lh Hk) as [t' [old [Ht' [Hold ->]]]].
  rewrite Ht in Ht'. injection Ht' as <-.
  destruct (m =? m')%Z eqn:Em; [|now rewrite Hold].
  apply Z.eqb_eq in Em. subst m'. rewrite Hc in Ec.
  injection Ec as <- <- <- <-. reflexivity.
Qed.

Lemma normalize_loop_writes (mi : list Z) (m : Z) (k : nat) (t : Q)
    (c0r c1r c0m c1m : flt) :
  length ts = length ms ->
  nth_error ms k = Some m -> nth_error ts k = Some t -> (3 <= m)%Z ->
  mission_coefficients map_coordinates xs ys ms Xm Ym C0 C1
      (reference_layer C0) (reference_layer C1) m
  = Ok (c0r, c1r, c0m, c1m) ->
  ratio_gt_one (amplitude np_sqrt c0r c1r) (amplitude np_sqrt c0m c1m) = false ->
  let target :=
    Some (fmul (scale_deficit (amplitude np_sqrt c0r c1r)
                              (amplitude np_sqrt c0m c1m))
               (fadd (fmul c0m (Some (sin_2pi (t - 0))))
                     (fmul c1m (Some (cos_2pi (t - 0)))))) in
  forall h h',
    length h = length ms ->
    normalize_loop np_sqrt sin_2pi cos_2pi map_coordinates
                   xs ys ts ms Xm Ym C0 C1
      (reference_layer C0) (reference_layer C1) h mi = Ok h' ->
    (In m mi \/ nth_error h k = target) -> nth_error h' k = target.
Proof.
  intros Lt Hk Ht Hm Hc Hr target.
  induction mi as [|m' mi IH]; intros h h' Lh Hrun Hor;
    cbn [normalize_loop] in Hrun.
  - injection Hrun as <-. destruct Hor as [[]|H]. exact H.
  - destruct (normalize_mission np_sqrt sin_2pi cos_2pi map_coordinates
                xs ys ts ms Xm Ym C0 C1
      (reference_layer C0) (reference_layer C1) h m') as [h1|e] eqn:E1;
      cbn [bind] in Hrun; [|discriminate].
    destruct (normalize_mission_step h h1 m' m k t c0r c1r c0m c1m
                Lt Lh E1 Hk Ht Hm Hc Hr) as [L1 N1].
    apply (IH h1 h' L1 Hrun).
    destruct (m =? m')%Z eqn:Em.
    + right. exact N1.
    + apply Z.eqb_neq in Em. destruct Hor as [[Heq|Hin]|Hh].
      * congruence.
      * left. exact Hin.
      * right. rewrite N1. exact Hh.
Qed.

(** X16: an observation of a mission of identifier 3 or more whose amplitude
    quotient is not above one gets the correction
    [(1 - a_ref / a_sat) * (c0m * sin(2 pi t) + c1m * cos(2 pi t))] evaluated
    at its own time, whatever the other missions of the neighbourhood. *)
Theorem normalize_seasonal_correction (hs h_out : list flt) (k : nat) (m : Z)
    (t : Q) (c0r c1r c0m c1m : flt) :
  length ts = length ms -> length hs = length ms ->
  normalize_seasonal np_sqrt sin_2pi cos_2pi map_coordinates
                     xs ys ts hs ms Xm Ym C0 C1 = Ok h_out ->
  nth_error ms k = Some m -> nth_error ts k = Some t -> (3 <= m)%Z ->
  mission_coefficients map_coordinates xs ys ms Xm Ym C0 C1
      (reference_layer C0) (reference_layer C1) m
  = Ok (c0r, c1r, c0m, c1m) ->
  ratio_gt_one (amplitude np_sqrt c0r c1r) (amplitude np_sqrt c0m c1m) = false ->
  nth_error h_out k
  = Some (fmul (scale_deficit (amplitude np_sqrt c0r c1r)
                              (amplitude np_sqrt c0m c1m))
               (fadd (fmul c0m (Some (sin_2pi (t - 0))))
                     (fmul c1m (Some (cos_2pi (t - 0)))))).
Proof.
  intros Lt Lh Hrun Hk Ht Hm Hc Hr. unfold normalize_seasonal in Hrun.
  apply (normalize_loop_writes (unique ms) m k t c0r c1r c0m c1m Lt Hk Ht Hm
           Hc Hr (map (fun _ => Some 0) hs) h_out).
  - now rewrite length_map.
  - exact Hrun.
  - left. apply unique_In. eapply nth_error_In. exact Hk.
Qed.

(** X17: where both the reference and the mission amplitude are zero the
    quotient is [0 / 0]: every observation of that mission gets a NaN
    correction. *)
Theorem normalize_seasonal_zero_amplitudes (hs h_out : list flt) (k : nat)
    (m : Z) (t r s : Q) (c0r c1r c0m c1m : flt) :
  length ts = length ms -> length hs = length ms ->
  normalize_seasonal np_sqrt sin_2pi cos_2pi map_coordinates
                     xs ys ts hs ms Xm Ym C0 C1 = Ok h_out ->
  nth_error ms k = Some m -> nth_error ts k = Some t -> (3 <= m)%Z ->
  mission_coefficients map_coordinates xs ys ms Xm Ym C0 C1
      (reference_layer C0) (reference_layer C1) m
  = Ok (c0r, c1r, c0m, c1m) ->
  amplitude np_sqrt c0r c1r = Some r -> r == 0 ->
  amplitude np_sqrt c0m c1m = Some s -> s == 0 ->
  nth_error h_out k = Some nan.
Proof.
  intros Lt Lh Hrun Hk Ht Hm Hc Hr Hr0 Hs Hs0. unfold normalize_seasonal in Hrun.
  assert (Hgt : ratio_gt_one (amplitude np_sqrt c0r c1r)
                             (amplitude np_sqrt c0m c1m) = false).
  { rewrite Hr, Hs. unfold ratio_gt_one. apply Qeq_eq_bool in Hs0.
    rewrite Hs0. unfold Qlt_bool. apply negb_false_iff, Qle_bool_iff. lra. }
  rewrite (normalize_loop_writes (unique ms) m k t c0r c1r c0m c1m Lt Hk Ht Hm
             Hc Hgt (map (fun _ => Some 0) hs) h_out).
  - rewrite Hr, Hs. unfold scale_deficit. apply Qeq_eq_bool in Hs0.
    rewrite Hs0. reflexivity.
  - now rewrite length_map.
  - exact Hrun.
  - left. apply unique_In. eapply nth_error_In. exact Hk.
Qed.

End SeasonalMore.

Lemma normalize_seasonal_reference_only_witness :
  normalize_seasonal sqrt_approx sin_2pi_approx cos_2pi_approx map_nearest
                     [0; 0; 0] [0; 0; 0] [2000; 2001; 2002]
                     [Some 1; Some 2; Some 3] [1; 2; 0]%Z
                     unit_X unit_Y sample_C0 sample_C1
  = Ok [Some 0; Some 0; Some 0].
Proof.
  apply (normalize_seasonal_reference_only sqrt_approx sin_2pi_approx
           cos_2pi_approx map_nearest [0; 0; 0] [0; 0; 0] [2000; 2001; 2002]
           [1; 2; 0]%Z unit_X unit_Y sample_C0 sample_C1
           [Some 1; Some 2; Some 3]).
  intros m [<-|[<-|[<-|[]]]]; lia.
Defined.

Lemma normalize_seasonal_missing_layer_witness :
  exists e,
    normalize_seasonal sqrt_approx sin_2pi_approx cos_2pi_approx map_nearest
                       [0; 0; 0; 0] [0; 0; 0; 0] season_ts season_hs season_ms
                       unit_X unit_Y (firstn 4 sample_C0) sample_C1
    = Raise e.
Proof.
  apply (normalize_seasonal_missing_layer sqrt_approx sin_2pi_approx
           cos_2pi_approx map_nearest [0; 0; 0; 0] [0; 0; 0; 0] season_ts
           season_ms unit_X unit_Y (firstn 4 sample_C0) sample_C1 season_hs 4%Z).
  - simpl. auto.
  - lia.
  - left. simpl. lia.
Defined.

Lemma normalize_seasonal_correction_witness :
  exists h_out,
    normalize_seasonal sqrt_approx sin_2pi_approx cos_2pi_approx map_nearest
                       [0; 0; 0; 0] [0; 0; 0; 0] season_ts season_hs season_ms
                       unit_X unit_Y sample_C0 sample_C1 = Ok h_out
    /\ nth_error h_out 3
       = Some (fmul (scale_deficit (amplitude sqrt_approx (Some 3) (Some 0))
                                   (amplitude sqrt_approx (Some 5) (Some 0)))
                    (fadd (fmul (Some 5)
                                (Some (sin_2pi_approx (2000 + 1 / 8 - 0))))
                          (fmul (Some 0)
                                (Some (cos_2pi_approx (2000 + 1 / 8 - 0)))))).
Proof.
  destruct (normalize_seasonal sqrt_approx sin_2pi_approx cos_2pi_approx
              map_nearest [0; 0; 0; 0] [0; 0; 0; 0] season_ts season_hs
              season_ms unit_X unit_Y sample_C0 sample_C1)
    as [h_out|e] eqn:Hrun; [|vm_compute in Hrun; discriminate].
  exists h_out. split; [reflexivity|].
  apply (normalize_seasonal_correction sqrt_approx sin_2pi_approx
           cos_2pi_approx map_nearest [0; 0; 0; 0] [0; 0; 0; 0] season_ts
           season_ms unit_X unit_Y sample_C0 sample_C1 season_hs h_out 3 4%Z).
  - reflexivity.
  - reflexivity.
  - exact Hrun.
  - reflexivity.
  - reflexivity.
  - lia.
  - vm_compute. reflexivity.
  - vm_compute. reflexivity.
Defined.

Lemma normalize_seasonal_zero_amplitudes_witness :
  exists h_out,
    normalize_seasonal sqrt_approx sin_2pi_approx cos_2pi_approx map_nearest
                       [0] [0] [2000] [Some 1] [3]%Z unit_X unit_Y
                       [flat 0; flat 0; flat 0; flat 0]
                       [flat 0; flat 0; flat 0; flat 0] = Ok h_out
    /\ nth_error h_out 0 = Some nan.
Proof.
  destruct (normalize_seasonal sqrt_approx sin_2pi_approx cos_2pi_approx
              map_nearest [0] [0] [2000] [Some 1] [3]%Z unit_X unit_Y
              [flat 0; flat 0; flat 0; flat 0]
              [flat 0; flat 0; flat 0; flat 0])
    as [h_out|e] eqn:Hrun; [|vm_compute in Hrun; discriminate].
  exists h_out. split; [reflexivity|].
  apply (normalize_seasonal_zero_amplitudes sqrt_approx sin_2pi_approx
           cos_2pi_approx map_nearest [0] [0] [2000] [3]%Z unit_X unit_Y
           [flat 0; flat 0; flat 0; flat 0] [flat 0; flat 0; flat 0; flat 0]
           [Some 1] h_out 0 3%Z 2000 (sqrt_approx (0 * 0 + 0 * 0))
           (sqrt_approx (0 * 0 + 0 * 0)) (Some 0) (Some 0) (Some 0) (Some 0)).
  - reflexivity.
  - reflexivity.
  - exact Hrun.
  - reflexivity.
  - reflexivity.
  - lia.
  - vm_compute. reflexivity.
  - reflexivity.
  - reflexivity.
  - reflexivity.
  - reflexivity.
Defined.

(** ** [runfilter]: it only removes *)

Lemma scatter_only_removes (h hi : list flt) :
  Forall2 (fun a b => b = a \/ b = nan) h hi ->
  forall im io,
    Forall2 (fun a b => b = a \/ b = nan) h
            (scatter im (assign io nan (select im h)) hi).
Proof.
  intros HF. induction HF as [|a c h hi Hac HF IH]; intros im io.
  - destruct im as [|[|] im]; simpl; constructor.
  - destruct im as [|b im]; [simpl; constructor; assumption|].
    destruct b; simpl.
    + destruct io as [|o io]; simpl.
      * constructor; [left; reflexivity|]. apply (IH im []).
      * constructor; [destruct o; auto|]. apply IH.
    + constructor; [assumption|]. apply IH.
Qed.

Lemma select_member_nonempty {A : Type} (mk : Z) (m : list Z) (t : list A) :
  In mk m -> length t = length m ->
  select (map (fun v => (v =? mk)%Z) m) t <> [].
Proof.
  revert t. induction m as [|u m IH]; intros [|a t] Hin Hlen; simpl in *;
    try contradiction; try discriminate.
  destruct (u =? mk)%Z eqn:E; [discriminate|].
  destruct Hin as [->|Hin]; [rewrite Z.eqb_refl in E; discriminate|].
  apply IH; [assumption|congruence].
Qed.

Lemma binning2_auto_range_returns (np_exp : Q -> Q)
    (np_interp : list Q -> list Q -> list flt -> result (list flt))
    (x : list Q) (y : list flt) (dx window : Q) (interp median_flag : bool)
    (weight : option Q) :
  x <> [] -> ~ dx == 0 ->
  exists r, binning2 np_exp np_interp x y None None dx window interp
                     median_flag weight = Ok r.
Proof.
  intros Hx Hz. unfold binning2, or_default, arange.
  destruct x as [|a x]; [congruence|]. cbn [Qmin_list Qmax_list bind].
  assert (E : Qeq_bool dx 0 = false).
  { apply not_true_is_false. intros H. apply Qeq_bool_eq in H. contradiction. }
  rewrite E. cbn [bind]. cbv zeta. destruct interp; [|eauto].
  destruct (np_interp _ _ _); [|eauto].
  destruct (np_interp _ _ _); [|eauto].
  destruct (np_interp _ _ _); eauto.
Qed.

Section RunFilter.

Variable np_exp : Q -> Q.
Variable np_interp : list Q -> list Q -> list flt -> result (list flt).
Variable t : list Q.
Variable h : list flt.
Variable m : list Z.
Variables alpha win : Q.

Lemma runfilter_loop_only_removes (mi : list Z) :
  length t = length m ->
  (forall mk, In mk mi -> In mk m) ->
  forall hi,
    Forall2 (fun a b => b = a \/ b = nan) h hi ->
    exists hi',
      runfilter_loop np_exp np_interp t h m alpha win hi mi = Ok hi'
      /\ Forall2 (fun a b => b = a \/ b = nan) h hi'.
Proof.
  intros Lt. induction mi as [|mk mi IH]; intros Hin hi HF; simpl.
  - eauto.
  - unfold runfilter_mission.
    destruct (binning2_auto_range_returns np_exp np_interp
                (select (map (fun v => (v =? mk)%Z) m) t)
                (select (map (fun v => (v =? mk)%Z) m) h)
                (1 / 12) win true true None) as [b Hb].
    { apply select_member_nonempty; [apply Hin; simpl; auto|assumption]. }
    { intros H. discriminate H. }
    rewrite Hb. cbn [bind]. apply IH; [intros; apply Hin; simpl; auto|].
    apply scatter_only_removes, HF.
Qed.

(** X18: the running filter always returns, with as many values as it was
    given, and each value it returns is either the input value at that
    position or NaN: it rejects observations and alters none. *)
Theorem runfilter_only_removes :
  length t = length m ->
  exists hi,
    runfilter np_exp np_interp t h m alpha win = Ok hi
    /\ Forall2 (fun a b => b = a \/ b = nan) h hi.
Proof.
  intros Lt. unfold runfilter.
  apply runfilter_loop_only_removes; [assumption| |].
  - intros mk Hmk. apply unique_In, Hmk.
  - clear. induction h; constructor; auto.
Qed.

End RunFilter.

Lemma runfilter_only_removes_witness :
  exists hi,
    runfilter exp_approx interp_left [2000; 2000 + 1 / 24; 2000 + 1 / 12]
              [Some 0; Some 0; Some 50] [1; 1; 1]%Z 10 (3 / 12) = Ok hi
    /\ Forall2 (fun a b => b = a \/ b = nan) [Some 0; Some 0; Some 50] hi.
Proof.
  apply (runfilter_only_removes exp_approx interp_left
           [2000; 2000 + 1 / 24; 2000 + 1 / 12] [Some 0; Some 0; Some 50]
           [1; 1; 1]%Z 10 (3 / 12)).
  reflexivity.
Defined.

(** ** [design_matrix]: the indicator block *)

Lemma indicator_sum_absent (mk : Z) (l : list Z) :
  ~ In mk l -> Qsum (map (fun u => if (mk =? u)%Z then 1 else 0) l) == 0.
Proof.
  induction l as [|u l IH]; intros Hn; [reflexivity|].
  cbn [map Qsum fold_right].
  fold (Qsum (map (fun u => if (mk =? u)%Z then 1 else 0) l)).
  destruct (mk =? u)%Z eqn:E.
  - apply Z.eqb_eq in E. subst. exfalso. apply Hn. simpl. auto.
  - rewrite IH by (intros H; apply Hn; simpl; auto). ring.
Qed.

Lemma indicator_sum_present (mk : Z) (l : list Z) :
  StronglySorted Z.lt l -> In mk l ->
  Qsum (map (fun u => if (mk =? u)%Z then 1 else 0) l) == 1.
Proof.
  induction l as [|u l IH]; intros Hs Hin; [contradiction|].
  inversion Hs as [|? ? Hs' Hall]; subst.
  cbn [map Qsum fold_right].
  fold (Qsum (map (fun u => if (mk =? u)%Z then 1 else 0) l)).
  destruct (mk =? u)%Z eqn:E.
  - apply Z.eqb_eq in E. subst.
    rewrite indicator_sum_absent; [ring|].
    intros H. rewrite Forall_forall in Hall. specialize (Hall u H). lia.
  - apply Z.eqb_neq in E. destruct Hin as [->|Hin]; [congruence|].
    rewrite IH by assumption. ring.
Qed.

Lemma nth_error_map2_inv {A B C : Type} (f : A -> B -> C) (a : list A)
    (b : list B) (k : nat) (z : C) :
  nth_error (map2 f a b) k = Some z ->
  exists x y, nth_error a k = Some x /\ nth_error b k = Some y /\ z = f x y.
Proof.
  revert b k. induction a as [|u a IH]; intros [|v b] [|k] H; simpl in H;
    try discriminate.
  - injection H as <-. exists u, v. auto.
  - apply IH in H. exact H.
Qed.

Lemma map_add_seq (k s n : nat) :
  map (fun i => (k + i)%nat) (seq s n) = seq (k + s) n.
Proof.
  revert s. induction n as [|n IH]; intros s; simpl; [reflexivity|].
  f_equal. rewrite IH. f_equal. lia.
Qed.

(** X19: every row of the design matrix has seven regressors followed by
    one indicator per distinct mission; the row starts with the constant 1
    and exactly one indicator is set, so the indicator columns add up to the
    constant column.  The recorded bias columns are 7, 8, ... *)
Theorem design_matrix_indicators (sin_2pi cos_2pi : Q -> Q)
    (t : list Q) (m : list Z) :
  snd (design_matrix sin_2pi cos_2pi t m)
  = seq 7 (length (unique m))
  /\ forall k row,
       nth_error (fst (design_matrix sin_2pi cos_2pi t m)) k = Some row ->
       length row = (7 + length (unique m))%nat
       /\ nth_error row 0 = Some 1
       /\ Qsum (skipn 7 row) == 1.
Proof.
  unfold design_matrix. cbn [fst snd]. split.
  - apply (map_add_seq 7 0).
  - intros k row Hrow. apply nth_error_map2_inv in Hrow.
    destruct Hrow as [ti [mk [_ [Hm ->]]]].
    split; [|split].
    + rewrite length_app, length_map. reflexivity.
    + reflexivity.
    + cbn [app skipn]. apply indicator_sum_present; [apply unique_sorted|].
      apply unique_In. eapply nth_error_In. exact Hm.
Qed.

Lemma design_matrix_indicators_witness :
  exists row,
    nth_error (fst (design_matrix sin_2pi_approx cos_2pi_approx [0; 1]
                                  [3; 5]%Z)) 1 = Some row
    /\ length row = 9%nat
    /\ Qsum (skipn 7 row) == 1.
Proof.
  eexists. split; [reflexivity|].
  destruct (proj2 (design_matrix_indicators sin_2pi_approx cos_2pi_approx
                     [0; 1] [3; 5]%Z) 1%nat _ eq_refl) as [H1 [_ H3]].
  split; [exact H1|exact H3].
Defined.

(** ** The prediction loop: empty neighbourhoods and the output lists *)

Section Loop.

Variable np_sqrt : Q -> Q.
Variable np_exp : Q -> Q.
Variable np_interp : list Q -> list Q -> list flt -> result (list flt).
Variable np_lstsq : list (list Q) -> list Q -> list Q.
Variable sin_2pi : Q -> Q.
Variable cos_2pi : Q -> Q.
Variable map_coordinates : list (list flt) -> Q -> Q -> flt.
Variable transform_coord : list Q -> list Q -> list Q * list Q.
Variable cfg : config.
Variable ras : rasters.
Variable obs : list observation.

Lemma empty_cell_gate_aux (xc yc : Q) :
  query_ball_point obs xc yc (dmax cfg) = [] ->
  ((0 < nlim cfg)%Z \/ 0 < dtlim cfg ->
   cell_gate np_sqrt cfg obs xc yc = Ok SkipCoverage)
  /\ ((nlim cfg <= 0)%Z -> dtlim cfg <= 0 ->
      cell_gate np_sqrt cfg obs xc yc = Ok (Proceed [])).
Proof.
  intros Hq. unfold cell_gate. rewrite Hq. cbn [meet_constraints map bind fst].
  unfold final_test. cbn [nobs dt npct]. split.
  - intros [Hn|Hd].
    + apply Z.ltb_lt in Hn. rewrite Hn. reflexivity.
    + assert (E : Qlt_bool 0 (dtlim cfg) = true).
      { unfold Qlt_bool. apply negb_true_iff, not_true_is_false.
        intros H. apply Qle_bool_iff in H. lra. }
      rewrite E, orb_true_r. reflexivity.
  - intros Hn Hd.
    assert (E1 : (0 <? nlim cfg)%Z = false) by (apply Z.ltb_ge; lia).
    assert (E2 : Qlt_bool 0 (dtlim cfg) = false).
    { unfold Qlt_bool. apply negb_false_iff, Qle_bool_iff, Hd. }
    rewrite E1, E2. reflexivity.
Qed.

(** X20: a cell with no observation within the search radius is skipped at
    the coverage gate as soon as one of the two thresholds is positive; with
    both thresholds at zero or below it passes both gates with an empty
    neighbourhood. *)
Theorem empty_cell_gate (xc yc : Q) :
  query_ball_point obs xc yc (dmax cfg) = [] ->
  ((0 < nlim cfg)%Z \/ 0 < dtlim cfg ->
   cell_gate np_sqrt cfg obs xc yc = Ok SkipCoverage)
  /\ ((nlim cfg <= 0)%Z -> dtlim cfg <= 0 ->
      cell_gate np_sqrt cfg obs xc yc = Ok (Proceed [])).
Proof.
  exact (empty_cell_gate_aux xc yc).
Qed.

Lemma empty_cell_step_raises (st : outputs) (cell : Q * Q) :
  query_ball_point obs (fst cell) (snd cell) (dmax cfg) = [] ->
  (nlim cfg <= 0)%Z -> dtlim cfg <= 0 -> ~ tstep_ cfg == 0 ->
  cell_step np_sqrt np_exp np_interp np_lstsq sin_2pi cos_2pi map_coordinates
            transform_coord cfg ras obs st cell
  = Raise UnboundLocalError.
Proof.
  intros Hq Hn Hd Ht. unfold cell_step.
  rewrite (proj2 (empty_cell_gate_aux _ _ Hq) Hn Hd). cbn [bind].
  unfold adjust_cell. cbn [map]. unfold runfilter, normalize_seasonal.
  cbn [unique fold_right runfilter_loop normalize_loop bind map map2].
  unfold bin_mission, arange.
  assert (E : Qeq_bool (tstep_ cfg / 12) 0 = false).
  { apply not_true_is_false. intros H. apply Qeq_bool_eq in H.
    apply Ht. assert (H' : tstep_ cfg == tstep_ cfg / 12 * 12) by field.
    rewrite H', H. reflexivity. }
  rewrite E.
  cbn [bind unique fold_right bin_mission_loop tbi hbi ebi nbi mbi map2 concat
       finite_vals length].
  assert (E1 : (Z.of_nat 0 <? nlim cfg)%Z = false) by (apply Z.ltb_ge; lia).
  rewrite E1. reflexivity.
Qed.

Lemma prediction_loop_propagates (cells : list (Q * Q)) (cell : Q * Q) :
  In cell cells ->
  (forall st, exists e,
      cell_step np_sqrt np_exp np_interp np_lstsq sin_2pi cos_2pi
                map_coordinates transform_coord cfg ras obs st cell = Raise e) ->
  forall st, exists e,
    prediction_loop np_sqrt np_exp np_interp np_lstsq sin_2pi cos_2pi
                    map_coordinates transform_coord cfg ras obs st cells
    = Raise e.
Proof.
  intros Hin Hbad. induction cells as [|c cells IH]; [contradiction|].
  intros st. simpl.
  destruct (cell_step np_sqrt np_exp np_interp np_lstsq sin_2pi cos_2pi
              map_coordinates transform_coord cfg ras obs st c)
    as [st1|e] eqn:E; cbn [bind]; [|eauto].
  destruct Hin as [->|Hin]; [|apply IH, Hin].
  destruct (Hbad st) as [e He]. congruence.
Qed.

(** X21: with both coverage thresholds at zero or below, a cell with an
    empty neighbourhood reaches the solver with nothing to fit: its step
    fails with [UnboundLocalError], and a grid that contains such a cell
    makes the whole prediction loop fail, whatever the other cells. *)
Theorem empty_cell_aborts_loop (cell : Q * Q) :
  query_ball_point obs (fst cell) (snd cell) (dmax cfg) = [] ->
  (nlim cfg <= 0)%Z -> dtlim cfg <= 0 -> ~ tstep_ cfg == 0 ->
  (forall st,
      cell_step np_sqrt np_exp np_interp np_lstsq sin_2pi cos_2pi
                map_coordinates transform_coord cfg ras obs st cell
      = Raise UnboundLocalError)
  /\ (forall cells st, In cell cells ->
        exists e,
          prediction_loop np_sqrt np_exp np_interp np_lstsq sin_2pi cos_2pi
                          map_coordinates transform_coord cfg ras obs st cells
          = Raise e).
Proof.
  intros Hq Hn Hd Ht.
  assert (Hstep : forall st,
             cell_step np_sqrt np_exp np_interp np_lstsq sin_2pi cos_2pi
                       map_coordinates transform_coord cfg ras obs st cell
             = Raise UnboundLocalError).
  { intros st. now apply empty_cell_step_raises. }
  split; [exact Hstep|].
  intros cells st Hin. apply (prediction_loop_propagates cells cell Hin).
  intros st0. eexists. apply Hstep.
Qed.

Lemma cell_step_appends (st st' : outputs) (cell : Q * Q) :
  cell_step np_sqrt np_exp np_interp np_lstsq sin_2pi cos_2pi map_coordinates
            transform_coord cfg ras obs st cell = Ok st' ->
  exists l, out_cells st' = out_cells st ++ l /\ (length l <= 1)%nat.
Proof.
  unfold cell_step. intros H.
  destruct (cell_gate np_sqrt cfg obs (fst cell) (snd cell)) as [g|e];
    cbn [bind] in H; [|discriminate].
  assert (Hsame : forall s, Ok st = Ok s ->
            exists l, out_cells s = out_cells st ++ l /\ (length l <= 1)%nat).
  { intros s Hs. injection Hs as <-. exists []. rewrite app_nil_r. auto. }
  destruct g as [| |cap]; [now apply Hsame|now apply Hsame|].
  destruct (adjust_cell _ _ _ _ _ _ _ _ cfg ras cap (fst cell) (snd cell))
    as [[[tot b]|]|e]; cbn [bind] in H; [| |discriminate].
  - injection H as <-. exists [b]. auto.
  - now apply Hsame.
Qed.

(** X22: when the prediction loop completes, the bundles that were in the
    output lists before are still there, unchanged and in front, and at most
    one bundle per grid cell has been appended. *)
Theorem prediction_loop_appends (cells : list (Q * Q)) (st st' : outputs) :
  prediction_loop np_sqrt np_exp np_interp np_lstsq sin_2pi cos_2pi
                  map_coordinates transform_coord cfg ras obs st cells
  = Ok st' ->
  exists l, out_cells st' = out_cells st ++ l
            /\ (length l <= length cells)%nat.
Proof.
  revert st. induction cells as [|c cells IH]; intros st H; simpl in H.
  - injection H as <-. exists []. rewrite app_nil_r. auto.
  - destruct (cell_step np_sqrt np_exp np_interp np_lstsq sin_2pi cos_2pi
                map_coordinates transform_coord cfg ras obs st c)
      as [st1|e] eqn:E; cbn [bind] in H; [|discriminate].
    destruct (cell_step_appends st st1 c E) as [l1 [H1 L1]].
    destruct (IH st1 H) as [l2 [H2 L2]].
    exists (l1 ++ l2). rewrite H2, H1, app_assoc. split; [reflexivity|].
    rewrite length_app. simpl. lia.
Qed.

End Loop.

Lemma empty_cell_gate_witness :
  cell_gate sqrt_approx (sample_cfg 1 0 1) [] 0 0 = Ok SkipCoverage.
Proof.
  apply (proj1 (empty_cell_gate sqrt_approx (sample_cfg 1 0 1) [] 0 0 eq_refl)).
  left. reflexivity.
Defined.

Lemma empty_cell_aborts_loop_witness :
  exists e,
    prediction_loop sqrt_approx exp_approx interp_left lstsq_mean
                    sin_2pi_approx cos_2pi_approx map_nearest transform_id
                    (sample_cfg 0 0 1) no_rasters five_obs no_outputs
                    [(0, 0); (100, 100)]
    = Raise e.
Proof.
  apply (proj2 (empty_cell_aborts_loop sqrt_approx exp_approx interp_left
                  lstsq_mean sin_2pi_approx cos_2pi_approx map_nearest
                  transform_id (sample_cfg 0 0 1) no_rasters five_obs
                  (100, 100) eq_refl ltac:(simpl; lia) ltac:(discriminate)
                  ltac:(intros H; discriminate H))).
  simpl. auto.
Defined.

Lemma prediction_loop_appends_witness :
  exists st' l,
    prediction_loop sqrt_approx exp_approx interp_left lstsq_mean
                    sin_2pi_approx cos_2pi_approx map_nearest transform_id
                    yearly_cfg sample_rasters yearly_obs seed_outputs
                    [(0, 0); (100, 100)]
    = Ok st'
    /\ out_cells st' = out_cells seed_outputs ++ l
    /\ (length l <= 2)%nat
    /\ length (out_cells st') = 2%nat.
Proof.
  assert (Hc : bundle_count
                 (prediction_loop sqrt_approx exp_approx interp_left lstsq_mean
                    sin_2pi_approx cos_2pi_approx map_nearest transform_id
                    yearly_cfg sample_rasters yearly_obs seed_outputs
                    [(0, 0); (100, 100)]) = Some 2%nat)
    by (vm_compute; reflexivity).
  revert Hc.
  destruct (prediction_loop sqrt_approx exp_approx interp_left lstsq_mean
              sin_2pi_approx cos_2pi_approx map_nearest transform_id
              yearly_cfg sample_rasters yearly_obs seed_outputs
              [(0, 0); (100, 100)]) as [st'|e] eqn:Hrun;
    intros Hc; [|discriminate Hc].
  cbn [bundle_count] in Hc. injection Hc as Hc.
  destruct (prediction_loop_appends sqrt_approx exp_approx interp_left
              lstsq_mean sin_2pi_approx cos_2pi_approx map_nearest
              transform_id yearly_cfg sample_rasters yearly_obs
              [(0, 0); (100, 100)] seed_outputs st' Hrun) as [l [Hl Hn]].
  exists st', l. split; [reflexivity|]. split; [exact Hl|].
  split; [exact Hn|exact Hc].
Defined.

(** ** [make_grid]: the prediction grid *)

Lemma inject_Z_succ (i : nat) :
  inject_Z (Z.of_nat (S i)) == inject_Z (Z.of_nat i) + 1.
Proof.
  rewrite Nat2Z.inj_succ. unfold Z.succ. rewrite inject_Z_plus. reflexivity.
Qed.

(** [np.linspace] over an ascending range with at least one sample. *)
Lemma linspace_spans (a b : Q) (n : Z) :
  (1 <= n)%Z -> a <= b ->
  exists nodes,
    linspace a b n = GridOk nodes /\ length nodes = Z.to_nat n
    /\ spanning_axis a b nodes.
Proof.
  intros Hn Hle. unfold linspace.
  replace (n <? 0)%Z with false by (symmetry; apply Z.ltb_ge; lia).
  eexists. split; [reflexivity|].
  destruct (Z.to_nat n) as [|[|m]] eqn:En; [lia| |].
  - split; [reflexivity|]. unfold spanning_axis. simpl length.
    split; [lia|]. split; [reflexivity|]. split; [lia|].
    split; [intros i Hi; lia|].
    intros i Hi. assert (i = 0)%nat by lia. subst i. simpl. lra.
  - set (k := (n - 1)%Z).
    assert (Hk : (1 <= k)%Z) by (unfold k; lia).
    assert (Hkq : 1 <= inject_Z k).
    { change 1 with (inject_Z 1). rewrite <- Zle_Qle. exact Hk. }
    set (sx := (b - a) / inject_Z k).
    assert (Hsx : sx * inject_Z k == b - a) by (unfold sx; field; lra).
    assert (Hs0 : 0 <= sx) by nra.
    assert (Hnth : forall i, (i < S (S m))%nat ->
               nth i (map (fun i0 => a + inject_Z (Z.of_nat i0) * sx)
                          (seq 0 (S (S m)))) 0
               = a + inject_Z (Z.of_nat i) * sx).
    { intros i Hi.
      apply (nth_map_seq (fun i0 => a + inject_Z (Z.of_nat i0) * sx)). exact Hi. }
    split; [now rewrite length_map, length_seq|].
    unfold spanning_axis. rewrite length_map, length_seq.
    replace (Z.of_nat (S (S m) - 1)) with k by (unfold k; lia).
    split; [lia|]. split; [|split; [|split]].
    + rewrite Hnth by lia. change (inject_Z (Z.of_nat 0)) with 0. ring.
    + intros _. rewrite Hnth by lia.
      replace (Z.of_nat (S (S m) - 1)) with k by (unfold k; lia). lra.
    + intros i Hi. rewrite !Hnth by lia. rewrite inject_Z_succ.
      fold sx. ring.
    + intros i Hi. rewrite Hnth by lia.
      assert (Hi0 : 0 <= inject_Z (Z.of_nat i)).
      { change 0 with (inject_Z 0). rewrite <- Zle_Qle. lia. }
      assert (Hik : inject_Z (Z.of_nat i) <= inject_Z k).
      { rewrite <- Zle_Qle. unfold k. lia. }
      split; nra.
Qed.

(** The number of nodes that the exact quotient gives leaves the nodes at
    least the requested spacing apart. *)
Lemma axis_nodes (lo hi d : Q) :
  0 < d -> lo <= hi ->
  exists n nodes,
    axis_count lo hi d = GridOk n /\ linspace lo hi n = GridOk nodes
    /\ spanning_axis lo hi nodes
    /\ forall i, (S i < length nodes)%nat ->
         d <= nth (S i) nodes 0 - nth i nodes 0.
Proof.
  intros Hd Hle. unfold axis_count.
  assert (Ez : Qeq_bool d 0 = false) by (apply step_nonzero; lra).
  rewrite Ez.
  set (q := (hi - lo) / d).
  assert (Hq : q * d == hi - lo) by (unfold q; field; lra).
  assert (Hq0 : 0 <= q) by (apply Qle_shift_div_l; lra).
  assert (Eabs : Qabs (hi - lo) / d == q).
  { unfold q. rewrite Qabs_pos by lra. reflexivity. }
  assert (Etr : Qtrunc (Qabs (hi - lo) / d) = Qfloor q).
  { unfold Qtrunc.
    assert (E : Qlt_bool (Qabs (hi - lo) / d) 0 = false).
    { unfold Qlt_bool. apply negb_false_iff, Qle_bool_iff. rewrite Eabs.
      exact Hq0. }
    rewrite E. apply Qfloor_comp, Eabs. }
  rewrite Etr.
  pose proof (Qfloor_le q) as F1.
  set (k := Qfloor q) in *.
  assert (Hk : (0 <= k)%Z).
  { assert (H : Qfloor 0 = 0%Z) by reflexivity. rewrite <- H.
    apply Qfloor_resp_le, Hq0. }
  destruct (linspace_spans lo hi (k + 1) ltac:(lia) Hle)
    as [nodes [Hl [Hlen Hspan]]].
  exists (k + 1)%Z, nodes. split; [reflexivity|]. split; [exact Hl|].
  split; [exact Hspan|].
  intros i Hi. destruct Hspan as (_ & _ & _ & Hsp & _).
  rewrite (Hsp i Hi). rewrite Hlen.
  replace (Z.of_nat (Z.to_nat (k + 1) - 1)) with k by lia.
  assert (Hk1 : (1 <= k)%Z) by lia.
  assert (Hkq : 1 <= inject_Z k).
  { change 1 with (inject_Z 1). rewrite <- Zle_Qle. exact Hk1. }
  apply Qle_shift_div_l; [lra|]. nra.
Qed.

Lemma make_grid_axes (xmin xmax ymin ymax d_x d_y : Q) :
  0 < d_x -> 0 < d_y -> xmin <= xmax -> ymin <= ymax ->
  exists x_i y_i,
    make_grid xmin xmax ymin ymax d_x d_y = GridOk (meshgrid x_i y_i)
    /\ spanning_axis xmin xmax x_i /\ spanning_axis ymin ymax y_i
    /\ (forall i, (S i < length x_i)%nat ->
          d_x <= nth (S i) x_i 0 - nth i x_i 0)
    /\ (forall i, (S i < length y_i)%nat ->
          d_y <= nth (S i) y_i 0 - nth i y_i 0).
Proof.
  intros Hx Hy Lx Ly.
  destruct (axis_nodes xmin xmax d_x Hx Lx) as (Ne & x_i & Ex & Elx & Rx & Sx).
  destruct (axis_nodes ymin ymax d_y Hy Ly) as (Nn & y_i & Ey & Ely & Ry & Sy).
  exists x_i, y_i. unfold make_grid. rewrite Ey, Ex, Elx, Ely. auto.
Qed.

Lemma concat_constant_length {A B : Type} (f : B -> list A) (n : nat)
    (l : list B) :
  (forall b, In b l -> length (f b) = n) ->
  length (concat (map f l)) = (length l * n)%nat.
Proof.
  induction l as [|b l IH]; intros H; simpl; [reflexivity|].
  rewrite length_app, (H b) by (simpl; auto).
  rewrite IH by (intros; apply H; simpl; auto). reflexivity.
Qed.

Lemma grid_cells_length (x_i y_i : list Q) :
  length (grid_cells (meshgrid x_i y_i)) = (length x_i * length y_i)%nat.
Proof.
  unfold grid_cells, meshgrid. cbn [fst snd].
  rewrite length_combine.
  rewrite (concat_constant_length (fun _ => x_i) (length x_i)) by reflexivity.
  rewrite (concat_constant_length (fun y => map (fun _ => y) x_i) (length x_i))
    by (intros; apply length_map).
  lia.
Qed.

(** X23: for positive spacings and a bounding box with [xmin <= xmax] and
    [ymin <= ymax], [make_grid] returns a grid that spans the box: each axis
    has at least one node, starts at the lower bound, ends at the upper
    bound when it has two or more nodes, and has its nodes equally far
    apart; the flattened grid has one cell per pair of nodes. *)
Theorem make_grid_regular (xmin xmax ymin ymax d_x d_y : Q) :
  0 < d_x -> 0 < d_y -> xmin <= xmax -> ymin <= ymax ->
  exists x_i y_i,
    make_grid xmin xmax ymin ymax d_x d_y = GridOk (meshgrid x_i y_i)
    /\ spanning_axis xmin xmax x_i /\ spanning_axis ymin ymax y_i
    /\ length (grid_cells (meshgrid x_i y_i)) = (length x_i * length y_i)%nat.
Proof.
  intros Hx Hy Lx Ly.
  destruct (make_grid_axes xmin xmax ymin ymax d_x d_y Hx Hy Lx Ly)
    as (x_i & y_i & E & Rx & Ry & _ & _).
  exists x_i, y_i. split; [exact E|]. split; [exact Rx|]. split; [exact Ry|].
  apply grid_cells_length.
Qed.

Lemma make_grid_regular_witness :
  exists x_i y_i,
    make_grid 0 10 0 5 4 2 = GridOk (meshgrid x_i y_i)
    /\ spanning_axis 0 10 x_i /\ spanning_axis 0 5 y_i
    /\ length (grid_cells (meshgrid x_i y_i)) = (length x_i * length y_i)%nat.
Proof.
  apply (make_grid_regular 0 10 0 5 4 2); lra.
Defined.

Lemma axis_gap (d : Q) (nodes : list Q) :
  (forall i, (S i < length nodes)%nat ->
     d <= nth (S i) nodes 0 - nth i nodes 0) ->
  forall j i, (i <= j)%nat -> (j < length nodes)%nat ->
    inject_Z (Z.of_nat (j - i)) * d <= nth j nodes 0 - nth i nodes 0.
Proof.
  intros Hs. induction j as [|j IH]; intros i Hi Hj.
  - assert (i = 0)%nat by lia. subst i.
    change (inject_Z (Z.of_nat (0 - 0))) with 0. lra.
  - destruct (Nat.eq_dec i (S j)) as [->|Hne].
    + rewrite Nat.sub_diag. change (inject_Z (Z.of_nat 0)) with 0. lra.
    + assert (Hi' : (i <= j)%nat) by lia.
      specialize (IH i Hi' ltac:(lia)).
      pose proof (Hs j Hj) as S1.
      replace (S j - i)%nat with (S (j - i)) by lia.
      rewrite inject_Z_succ. lra.
Qed.

Lemma axis_windows_overlap (d v : Q) (nodes : list Q) (i j : nat) :
  0 < d ->
  (forall i, (S i < length nodes)%nat ->
     d <= nth (S i) nodes 0 - nth i nodes 0) ->
  (i < j)%nat -> (j < length nodes)%nat ->
  v <= nth i nodes 0 + (1 # 2) * d -> nth j nodes 0 - (1 # 2) * d <= v ->
  j = S i /\ v == nth i nodes 0 + (1 # 2) * d.
Proof.
  intros Hd R Hij Hj Hu Hl.
  pose proof (axis_gap d nodes R j i ltac:(lia) Hj) as G.
  assert (Hji : j = S i).
  { destruct (Nat.eq_dec j (S i)) as [|Hne]; [assumption|exfalso].
    assert (H2 : 2 <= inject_Z (Z.of_nat (j - i))).
    { change 2 with (inject_Z 2). rewrite <- Zle_Qle. lia. }
    nra. }
  split; [exact Hji|]. subst j.
  replace (S i - i)%nat with 1%nat in G by lia.
  change (inject_Z (Z.of_nat 1)) with 1 in G. lra.
Qed.

(** X24: on the grid of [make_grid] built with the cell size [dx], [dy] of
    the settings, an observation inside the footprints (lines 1318-1319) of
    two different grid columns lies in neighbouring columns, on their common
    edge; the same holds for two different grid rows. *)
Theorem grid_footprints_share_only_edges (cfg : config)
    (xmin xmax ymin ymax : Q) :
  0 < dx cfg -> 0 < dy cfg -> xmin <= xmax -> ymin <= ymax ->
  exists x_i y_i,
    make_grid xmin xmax ymin ymax (dx cfg) (dy cfg) = GridOk (meshgrid x_i y_i)
    /\ (forall i j yc yc' o,
          (i < j)%nat -> (j < length x_i)%nat ->
          in_cell cfg (nth i x_i 0) yc o = true ->
          in_cell cfg (nth j x_i 0) yc' o = true ->
          j = S i /\ o_x o == nth i x_i 0 + (1 # 2) * dx cfg)
    /\ (forall i j xc xc' o,
          (i < j)%nat -> (j < length y_i)%nat ->
          in_cell cfg xc (nth i y_i 0) o = true ->
          in_cell cfg xc' (nth j y_i 0) o = true ->
          j = S i /\ o_y o == nth i y_i 0 + (1 # 2) * dy cfg).
Proof.
  intros Hx Hy Lx Ly.
  destruct (make_grid_axes xmin xmax ymin ymax (dx cfg) (dy cfg) Hx Hy Lx Ly)
    as (x_i & y_i & E & _ & _ & Rx & Ry).
  exists x_i, y_i. split; [exact E|]. split.
  - intros i j yc yc' o Hij Hj Hi1 Hi2. unfold in_cell in Hi1, Hi2.
    apply andb_prop in Hi1. destruct Hi1 as [Hi1 _].
    apply andb_prop in Hi1. destruct Hi1 as [Hi1 _].
    apply andb_prop in Hi1. destruct Hi1 as [_ U].
    apply andb_prop in Hi2. destruct Hi2 as [Hi2 _].
    apply andb_prop in Hi2. destruct Hi2 as [Hi2 _].
    apply andb_prop in Hi2. destruct Hi2 as [L _].
    apply Qle_bool_iff in U, L.
    exact (axis_windows_overlap (dx cfg) (o_x o) x_i i j Hx Rx Hij Hj U L).
  - intros i j xc xc' o Hij Hj Hi1 Hi2. unfold in_cell in Hi1, Hi2.
    apply andb_prop in Hi1. destruct Hi1 as [_ U].
    apply andb_prop in Hi2. destruct Hi2 as [Hi2 _].
    apply andb_prop in Hi2. destruct Hi2 as [_ L].
    apply Qle_bool_iff in U, L.
    exact (axis_windows_overlap (dy cfg) (o_y o) y_i i j Hy Ry Hij Hj U L).
Qed.

Lemma grid_footprints_share_only_edges_witness :
  exists x_i y_i,
    make_grid 0 10 0 5 (dx (sample_cfg 1 0 1)) (dy (sample_cfg 1 0 1))
    = GridOk (meshgrid x_i y_i)
    /\ (forall i j yc yc' o,
          (i < j)%nat -> (j < length x_i)%nat ->
          in_cell (sample_cfg 1 0 1) (nth i x_i 0) yc o = true ->
          in_cell (sample_cfg 1 0 1) (nth j x_i 0) yc' o = true ->
          j = S i /\ o_x o == nth i x_i 0 + (1 # 2) * dx (sample_cfg 1 0 1))
    /\ (forall i j xc xc' o,
          (i < j)%nat -> (j < length y_i)%nat ->
          in_cell (sample_cfg 1 0 1) xc (nth i y_i 0) o = true ->
          in_cell (sample_cfg 1 0 1) xc' (nth j y_i 0) o = true ->
          j = S i /\ o_y o == nth i y_i 0 + (1 # 2) * dy (sample_cfg 1 0 1)).
Proof.
  apply (grid_footprints_share_only_edges (sample_cfg 1 0 1) 0 10 0 5);
    vm_compute; reflexivity || discriminate.
Defined.

(** X25: with a zero cell size on either axis [make_grid] returns no grid:
    the division of line 353 or 354 gives an infinity or a NaN, whose
    conversion to an integer raises. *)
Theorem make_grid_zero_spacing (xmin xmax ymin ymax d_x d_y : Q) :
  d_x == 0 \/ d_y == 0 ->
  make_grid xmin xmax ymin ymax d_x d_y = GridOverflowError
  \/ make_grid xmin xmax ymin ymax d_x d_y = GridValueError.
Proof.
  intros H. unfold make_grid.
  destruct (axis_count ymin ymax d_y) as [Nn| |] eqn:Ey; auto.
  destruct (axis_count xmin xmax d_x) as [Ne| |] eqn:Ex; auto.
  exfalso. destruct H as [H|H]; apply Qeq_eq_bool in H.
  - unfold axis_count in Ex. rewrite H in Ex. revert Ex.
    destruct (Qeq_bool (Qabs (xmax - xmin)) 0); intros Ex; discriminate Ex.
  - unfold axis_count in Ey. rewrite H in Ey. revert Ey.
    destruct (Qeq_bool (Qabs (ymax - ymin)) 0); intros Ey; discriminate Ey.
Qed.

Lemma make_grid_zero_spacing_witness :
  make_grid 0 10 0 5 0 2 = GridOverflowError
  \/ make_grid 0 10 0 5 0 2 = GridValueError.
Proof.
  apply (make_grid_zero_spacing 0 10 0 5 0 2). left. reflexivity.
Defined.

(** ** The elevation edit of [main] *)

(** No epoch is later than 2019 and earlier than 1992.2. *)
Lemma time_span_empty (t : Q) :
  Qlt_bool 2019 t && Qlt_bool t (19922 # 10) = false.
Proof.
  unfold Qlt_bool.
  destruct (Qle_bool t 2019) eqn:E1; [reflexivity|].
  destruct (Qle_bool (19922 # 10) t) eqn:E2; [reflexivity|exfalso].
  assert (H1 : ~ t <= 2019) by (rewrite <- Qle_bool_iff; congruence).
  assert (H2 : ~ (19922 # 10) <= t) by (rewrite <- Qle_bool_iff; congruence).
  apply H2. apply Qnot_le_lt in H1. lra.
Qed.

Lemma forallb_negb_existsb {A : Type} (f : A -> bool) (l : list A) :
  existsb f l = true -> forallb (fun r => negb (f r)) l = false.
Proof.
  induction l as [|r l IH]; simpl; [discriminate|].
  destruct (f r); simpl; [reflexivity|exact IH].
Qed.

(** X26: the time edit of lines 1171-1175 asks for epochs later than 2019
    and earlier than 1992.2, so it removes no observation: the edited
    elevations of a data set do not depend on the observation times. *)
Theorem edit_elevation_ignores_time (roglim : Q) (time time' : list Q)
    (elev dh_bs rough : list flt) (mode : list Z) :
  length time = length elev -> length time' = length elev ->
  edit_elevation roglim time elev dh_bs rough mode
  = edit_elevation roglim time' elev dh_bs rough mode.
Proof.
  intros _ _. unfold edit_elevation.
  rewrite !(assign_none (fun t => Qlt_bool 2019 t && Qlt_bool t (19922 # 10)))
    by (intros; apply time_span_empty).
  reflexivity.
Qed.

Lemma edit_elevation_ignores_time_witness :
  edit_elevation 1 [2020; 1990] [Some 10; Some 20] [Some 1; Some 2]
                 [Some 5; Some 0] [2; 2]%Z
  = edit_elevation 1 [2000; 2001] [Some 10; Some 20] [Some 1; Some 2]
                   [Some 5; Some 0] [2; 2]%Z.
Proof.
  apply (edit_elevation_ignores_time 1 [2020; 1990] [2000; 2001]
           [Some 10; Some 20] [Some 1; Some 2] [Some 5; Some 0] [2; 2]%Z);
    reflexivity.
Defined.

(** X27: one roughness entry equal to the sentinel 9999 switches the
    roughness edit of lines 1162-1168 off for every observation: the edited
    elevations do not depend on the roughness limit. *)
Theorem edit_elevation_sentinel_disables_roughness (roglim roglim' : Q)
    (time : list Q) (elev dh_bs rough : list flt) (mode : list Z) :
  existsb (fun r => flt_eq r (Some 9999)) rough = true ->
  edit_elevation roglim time elev dh_bs rough mode
  = edit_elevation roglim' time elev dh_bs rough mode.
Proof.
  intros H. unfold edit_elevation.
  rewrite (forallb_negb_existsb _ _ H). reflexivity.
Qed.

Lemma edit_elevation_sentinel_disables_roughness_witness :
  edit_elevation 1 [2000; 2001] [Some 10; Some 20] [Some 1; Some 2]
                 [Some 9999; Some 5] [2; 2]%Z
  = edit_elevation 100 [2000; 2001] [Some 10; Some 20] [Some 1; Some 2]
                   [Some 9999; Some 5] [2; 2]%Z.
Proof.
  apply (edit_elevation_sentinel_disables_roughness 1 100 [2000; 2001]
           [Some 10; Some 20] [Some 1; Some 2] [Some 9999; Some 5] [2; 2]%Z).
  reflexivity.
Defined.

(** X28: what the edit of lines 1153-1175 leaves at one observation: NaN
    when the roughness edit is on and the observation is rougher than the
    limit in a mode above 1; otherwise the elevation minus the scattering
    correction, where a missing correction counts as zero in mode 8 and
    removes the observation in every other mode. *)
Theorem edit_elevation_entry (roglim : Q) (time : list Q)
    (elev dh_bs rough : list flt) (mode : list Z) (k : nat)
    (e b r : flt) (m : Z) :
  nth_error elev k = Some e -> nth_error dh_bs k = Some b ->
  nth_error rough k = Some r -> nth_error mode k = Some m ->
  nth_error (edit_elevation roglim time elev dh_bs rough mode) k
  = Some (if forallb (fun r => negb (flt_eq r (Some 9999))) rough
             && flt_gt r (Some roglim) && (1 <? m)%Z
          then nan
          else match b with
               | Some q => fsub e (Some q)
               | None => if (m =? 8)%Z then fsub e (Some 0) else nan
               end).
Proof.
  intros He Hb Hr Hm. unfold edit_elevation.
  rewrite (assign_none (fun t => Qlt_bool 2019 t && Qlt_bool t (19922 # 10)))
    by (intros; apply time_span_empty).
  set (dh1 := assign _ (Some 0) dh_bs).
  assert (H1 : nth_error dh1 k
               = Some (if isnan b && (m =? 8)%Z then Some 0 else b)).
  { unfold dh1. apply nth_error_assign; [|exact Hb].
    exact (nth_error_map2 (fun b m => isnan b && (m =? 8)%Z) dh_bs mode k b m
             Hb Hm). }
  set (b1 := if isnan b && (m =? 8)%Z then Some 0 else b) in H1.
  set (el1 := assign (map isnan dh1) nan elev).
  assert (H2 : nth_error el1 k = Some (if isnan b1 then nan else e)).
  { unfold el1. apply nth_error_assign; [|exact He].
    exact (map_nth_error isnan k dh1 H1). }
  assert (H3 : nth_error (map2 fsub el1 dh1) k
               = Some (fsub (if isnan b1 then nan else e) b1)).
  { exact (nth_error_map2 fsub el1 dh1 k _ _ H2 H1). }
  assert (Hv : fsub (if isnan b1 then nan else e) b1
               = match b with
                 | Some q => fsub e (Some q)
                 | None => if (m =? 8)%Z then fsub e (Some 0) else nan
                 end).
  { unfold b1. destruct b as [q|]; simpl; [reflexivity|].
    destruct (m =? 8)%Z; simpl; [reflexivity|]. destruct e; reflexivity. }
  rewrite Hv in H3.
  destruct (forallb _ rough); cbn [andb].
  - rewrite (nth_error_assign _ nan _ k (flt_gt r (Some roglim) && (1 <? m)%Z)
               _ (nth_error_map2 (fun r m => flt_gt r (Some roglim) && (1 <? m)%Z)
                    rough mode k r m Hr Hm) H3).
    reflexivity.
  - exact H3.
Qed.

Lemma edit_elevation_entry_witness :
  nth_error (edit_elevation 1 [2000; 2001] [Some 10; Some 20] [None; None]
                            [Some (1 # 2); None] [8; 2]%Z) 0
  = Some (if forallb (fun r => negb (flt_eq r (Some 9999))) [Some (1 # 2); None]
             && flt_gt (Some (1 # 2)) (Some 1) && (1 <? 8)%Z
          then nan
          else match @None Q with
               | Some q => fsub (Some 10) (Some q)
               | None => if (8 =? 8)%Z then fsub (Some 10) (Some 0) else nan
               end).
Proof.
  apply (edit_elevation_entry 1 [2000; 2001] [Some 10; Some 20] [None; None]
           [Some (1 # 2); None] [8; 2]%Z 0 (Some 10) None (Some (1 # 2)) 8%Z);
    reflexivity.
Defined.

Lemma cross_calibrate_bounded_witness :
  exists v,
    nth_error (fst (cross_calibrate sqrt_approx chain_ti chain_dh chain_dh
                                    chain_mi 0)) 7 = Some v
    /\ Qabs v <= 30.
Proof.
  destruct (nth_error (fst (cross_calibrate sqrt_approx chain_ti chain_dh
                              chain_dh chain_mi 0)) 7) as [v|] eqn:E.
  - exists v. split; [reflexivity|].
    exact (proj1 (cross_calibrate_bounded sqrt_approx chain_ti chain_dh
                    chain_dh chain_mi 0) 7%nat v E).
  - vm_compute in E. discriminate E.
Defined.
